(** * IonQAPIservice: circuit validation, job identifiers, QASM emission and
      result reconciliation

    A shallow embedding of the parts of [IonQAPIservice.py] that carry the
    circuit validator ([validate_circuit]), the job-identifier check
    ([validate_jobid_hash]), the operation-emitting loop of
    [translate_qasm] and the polling loop and result arithmetic of
    [retrieve_job].

    Conventions of the embedding.
    - A Python [str] is a [string]; every [ascii] stands for one code point
      below 256.  Functions that scan a string work on its [list ascii].
    - A Python [dict] is an association list in insertion order; lookups
      return the first binding of a key.
    - A soft error (a returned [{"error": ...}] dictionary) is a constructor
      of an error type carrying the values the message is formatted from;
      a raised Python exception is [Raise].
    - A Python [float] is a binary64 value ([float], with the arithmetic
      of the processor); a Python [int] is a [Z]. *)

From Stdlib Require Import List String Ascii Bool Arith ZArith QArith Lia Floats.
Import ListNotations.

Local Open Scope string_scope.
Local Open Scope list_scope.
Local Open Scope nat_scope.

(** ** Python values *)

Inductive pyexc : Type :=
| KeyError
| IndexError
| TypeError
| NameError
| ZeroDivisionError
| OverflowError
| ValueError.

Inductive result (A : Type) : Type :=
| Ok (a : A)
| Raise (e : pyexc).
Arguments Ok {A} a.
Arguments Raise {A} e.

Definition bind {A B : Type} (r : result A) (k : A -> result B) : result B :=
  match r with
  | Ok a => k a
  | Raise e => Raise e
  end.

Notation "x <- r ;; k" := (bind r (fun x => k))
  (at level 61, r at next level, right associativity).

#[warnings="-register-all"]
Inductive value : Type :=
| VNone
| VBool (b : bool)
| VInt (z : Z)
| VFloat (f : float)
| VStr (s : string)
| VList (l : list value)
| VDict (d : list (string * value)).

Definition pydict : Type := list (string * value).

(** [d[k]] / [k in d.keys()] for a dictionary with string keys. *)
Fixpoint lookup {A : Type} (k : string) (d : list (string * A)) : option A :=
  match d with
  | [] => None
  | (k', v) :: r => if String.eqb k k' then Some v else lookup k r
  end.

Definition in_keys {A : Type} (k : string) (d : list (string * A)) : bool :=
  match lookup k d with Some _ => true | None => false end.

(** [v in d.values()] for a table whose values are strings. *)
Definition in_values (v : string) (d : list (string * string)) : bool :=
  existsb (fun kv => String.eqb v (snd kv)) d.

(** ** Python string helpers *)

Definition chars (s : string) : list ascii := list_ascii_of_string s.
Definition str (l : list ascii) : string := string_of_list_ascii l.

(** [str.isspace] on the code points below 256. *)
Definition py_isspace (c : ascii) : bool :=
  let n := nat_of_ascii c in
  ((9 <=? n) && (n <=? 13)) || ((28 <=? n) && (n <=? 32))
  || (n =? 133) || (n =? 160).

Fixpoint lstrip (s : list ascii) : list ascii :=
  match s with
  | [] => []
  | c :: r => if py_isspace c then lstrip r else s
  end.

Definition rstrip (s : list ascii) : list ascii := rev (lstrip (rev s)).

(** [s.strip()] *)
Definition strip (s : list ascii) : list ascii := rstrip (lstrip s).

(** [s.count(sep)] for a one-character [sep]. *)
Fixpoint count (sep : ascii) (s : list ascii) : nat :=
  match s with
  | [] => 0
  | c :: r => if Ascii.eqb c sep then S (count sep r) else count sep r
  end.

(** [s.split(sep)] for a one-character [sep]: never empty, and consecutive
    separators give empty pieces. *)
Fixpoint split (sep : ascii) (s : list ascii) : list (list ascii) :=
  match s with
  | [] => [[]]
  | c :: r =>
      if Ascii.eqb c sep then [] :: split sep r
      else match split sep r with
           | g :: gs => (c :: g) :: gs
           | [] => [[c]]
           end
  end.

(** ** Gate taxonomy ([__init__]) *)

Definition gates_1q : list (string * string) :=
  [("h","h"); ("i","id"); ("id","id"); ("p","z"); ("rx","rx"); ("ry","ry");
   ("rz","rz"); ("not","x"); ("s","s"); ("sdg","si"); ("sx","v");
   ("sxdg","vi"); ("t","t"); ("tdg","ti"); ("x","x"); ("y","y"); ("z","z")].

Definition gates_2q_ctl : list (string * string) :=
  [("ch","h"); ("cnot","x"); ("cp","z"); ("crx","rx"); ("cry","ry");
   ("crz","rz"); ("cx","x"); ("cy","y"); ("cz","z"); ("csx","v");
   ("cv","v"); ("csxdg","vi"); ("cvi","vi")].

Definition gates_2q_noctl : list (string * string) :=
  [("rxx","xx"); ("ryy","yy"); ("rzz","zz"); ("swap","swap")].

Definition gates_mq : list (string * string) :=
  [("mcp","z"); ("mcphase","z"); ("mct","t"); ("ccx","x"); ("c3x","x");
   ("c4x","x"); ("mcx","x"); ("mcx_gray","x"); ("toffoli","x")].

(** [math.pi], and the two angles of the [siswap] expansion. *)
Definition math_pi : float := 0x1.921fb54442d18p+1%float.
Definition half_pi : float := (math_pi / 2)%float.
Definition seven_half_pi : float := (7 * math_pi / 2)%float.

(** One step of a macro: gate, target positions, control positions,
    parameters. *)
Definition macro_step : Type := string * list nat * list nat * list float.

(** A macro: declared targets, declared controls, declared parameters and
    the expansion. *)
Record macro : Type := Macro {
  m_targets : list nat;
  m_controls : list nat;
  m_params : list float;
  m_body : list macro_step
}.

Definition gates_special : list (string * macro) :=
  [("sswap", Macro [0;1] [] []
      [("x",[1],[0],[]); ("v",[0],[1],[]); ("x",[1],[0],[])]);
   ("iswap", Macro [0;1] [] []
      [("s",[0],[],[]); ("s",[1],[],[]); ("h",[0],[],[]); ("x",[1],[0],[]);
       ("x",[0],[1],[]); ("h",[1],[],[])]);
   ("siswap", Macro [0;1] [] []
      [("v",[0],[],[]); ("v",[1],[],[]); ("rz",[0],[],[half_pi]);
       ("x",[1],[0],[]); ("v",[0],[],[]); ("v",[1],[],[]);
       ("rz",[0],[],[seven_half_pi]); ("rz",[1],[],[seven_half_pi]);
       ("v",[0],[],[]); ("rz",[0],[],[half_pi]); ("x",[1],[0],[]);
       ("v",[0],[],[])]);
   ("cswap", Macro [0;1] [0] []
      [("x",[1],[0],[]); ("x",[0],[1;2],[]); ("x",[1],[0],[])])].

(** ** [validate_jobid_hash] *)

(** The argument: a dictionary (of which only the string under ["id"], if
    any, is looked at), a string, or something else. *)
Inductive jobid_arg : Type :=
| JDict (id : option string)
| JStr (s : string)
| JOther.

Inductive jobid_error : Type :=
| NoIdKey
| NotAString
| NotValidJobID (id : string)
| HashWrongLength (id : string) (val : string)
| HashWrongHexChar (id : string) (val : string).

Inductive jobid_result : Type :=
| JobId (id : string)
| JobIdError (e : jobid_error).

Definition hashlen : list nat := [8; 4; 4; 4; 12].

Definition hexchars : list ascii := chars "1234567890abcdef".

Definition is_hexchar (ch : ascii) : bool := existsb (Ascii.eqb ch) hexchars.

(** The loop over [zip(hashlen, vals)]. *)
Fixpoint check_hashes (id : string) (nvs : list (nat * list ascii))
  : jobid_result :=
  match nvs with
  | [] => JobId id
  | (n, val) :: rest =>
      if negb (List.length val =? n) then JobIdError (HashWrongLength id (str val))
      else if forallb is_hexchar val then check_hashes id rest
      else JobIdError (HashWrongHexChar id (str val))
  end.

Definition validate_id (id : string) : jobid_result :=
  let cs := chars id in
  if negb (List.length cs =? 36) || negb (count "-"%char cs =? 4)
  then JobIdError (NotValidJobID id)
  else check_hashes id (combine hashlen (split "-"%char cs)).

Definition validate_jobid_hash (jobid : jobid_arg) : jobid_result :=
  match jobid with
  | JDict None => JobIdError NoIdKey
  | JDict (Some id) => validate_id id
  | JStr s => validate_id (str (strip (chars s)))
  | JOther => JobIdError NotAString
  end.

(** ** [validate_circuit] *)

Inductive circuit_error : Type :=
| NotAList
| NotADict (j : nat)
| NoTarget (j : nat) (gate : value)
| SpecialArity (j : nat) (gate : value)
| NotTwoTargets (j : nat) (gate : value)
| NotMultiQubit (j : nat) (gate : value)
| NoTargetAndControl (j : nat) (gate : value)
| NotOneQubit (j : nat) (gate : value)
| NoGates.

(** An element of [valid_circ].  [op_record] is the dictionary in the list;
    [op_index] and [op_same] are bookkeeping of the embedding: the index of
    the input entry the element was produced from, and whether the element
    is that very entry ([valid_circ.append(entry)]) or a dictionary built by
    the validator. *)
Record out_op : Type := OutOp {
  op_index : nat;
  op_same : bool;
  op_record : pydict
}.

Inductive validation : Type :=
| Validated (valid_circ : list out_op) (updates : list nat)
| Invalid (e : circuit_error).


(** Membership of [mygate] in a table: a gate that is not a string is in
    none. *)
Definition gate_in_keys {A : Type} (g : value) (tbl : list (string * A))
  : bool :=
  match g with VStr s => in_keys s tbl | _ => false end.

Definition gate_in_values (g : value) (tbl : list (string * string)) : bool :=
  match g with VStr s => in_values s tbl | _ => false end.

(** [tbl[mygate]], used once [mygate] is known to be a key. *)
Definition gate_remap (g : value) (tbl : list (string * string)) : value :=
  match g with
  | VStr s => match lookup s tbl with Some s' => VStr s' | None => g end
  | _ => g
  end.

Definition gate_macro (g : value) : option macro :=
  match g with VStr s => lookup s gates_special | _ => None end.

Definition hashable (v : value) : bool :=
  match v with VList _ | VDict _ => false | _ => true end.

(** The reading of [target]/[targets] (and of [control]/[controls]): the
    values as a list, and whether [flg_update] is set. *)
Definition shape (singular plural : string) (entry : pydict)
  : option (list value * bool) :=
  match lookup singular entry with
  | Some (VList l) => Some (l, true)
  | Some v => Some ([v], false)
  | None =>
      match lookup plural entry with
      | Some (VList l) => Some (l, false)
      | Some v => Some ([v], true)
      | None => None
      end
  end.

Definition entry_targets (entry : pydict) : option (list value * bool) :=
  shape "target" "targets" entry.

Definition entry_controls (entry : pydict) : list value * bool :=
  match shape "control" "controls" entry with
  | Some s => s
  | None => ([], false)
  end.

(** [parameters] and [rotations] set [flg_update] when they hold a scalar;
    [parameter] and [rotation] never do. *)
Definition scalar_under (k : string) (entry : pydict) : bool :=
  match lookup k entry with
  | Some (VList _) => false
  | Some _ => true
  | None => false
  end.

(** [[qbits[i] for i in idx]] *)
Fixpoint pick (qbits : list value) (idx : list nat) : result (list value) :=
  match idx with
  | [] => Ok []
  | i :: r =>
      match nth_error qbits i with
      | None => Raise IndexError
      | Some q => qs <- pick qbits r ;; Ok (q :: qs)
      end
  end.

Definition expand_step (qbits : list value) (st : macro_step)
  : result pydict :=
  let '(g, t, c, p) := st in
  myt <- pick qbits t ;;
  controls <- (if 0 <? List.length c
               then myc <- pick qbits c ;; Ok [("controls", VList myc)]
               else Ok []) ;;
  Ok ([("gate", VStr g); ("targets", VList myt)] ++ controls
      ++ (if 0 <? List.length p then [("parameters", VList (map VFloat p))]
          else [])).

Fixpoint expand (qbits : list value) (qgates : list macro_step)
  : result (list pydict) :=
  match qgates with
  | [] => Ok []
  | st :: r =>
      circ <- expand_step qbits st ;;
      rest <- expand qbits r ;;
      Ok (circ :: rest)
  end.

(** The reclassification by arity: the gate, targets, controls and
    [flg_update] after it, or the error returned. *)
Definition classify (j : nat) (mygate : value) (tgt_vals ctl_vals : list value)
  (flg_update : bool)
  : circuit_error + (value * list value * list value * bool) :=
  if 1 <? List.length tgt_vals then
    if gate_in_values mygate gates_2q_noctl
    then inr (mygate, tgt_vals, ctl_vals, flg_update)
    else if gate_in_keys mygate gates_2q_noctl
    then inr (gate_remap mygate gates_2q_noctl, tgt_vals, ctl_vals, true)
    else inl (NotTwoTargets j mygate)
  else if 1 <? List.length ctl_vals then
    if gate_in_values mygate gates_mq
    then inr (mygate, tgt_vals, ctl_vals, flg_update)
    else if gate_in_keys mygate gates_mq
    then inr (gate_remap mygate gates_mq, tgt_vals, ctl_vals, true)
    else inl (NotMultiQubit j mygate)
  else if List.length ctl_vals =? 1 then
    if gate_in_values mygate gates_2q_ctl
    then inr (mygate, tgt_vals, ctl_vals, flg_update)
    else if gate_in_keys mygate gates_2q_ctl
    then inr (gate_remap mygate gates_2q_ctl, tgt_vals, ctl_vals, true)
    else if gate_in_values mygate gates_2q_noctl
            || gate_in_keys mygate gates_2q_noctl
    then inr (if gate_in_values mygate gates_2q_noctl then mygate
              else gate_remap mygate gates_2q_noctl,
              tgt_vals ++ ctl_vals, [], true)
    else inl (NoTargetAndControl j mygate)
  else
    if gate_in_values mygate gates_1q
    then inr (mygate, tgt_vals, ctl_vals, flg_update)
    else if gate_in_keys mygate gates_1q
    then inr (gate_remap mygate gates_1q, tgt_vals, ctl_vals, true)
    else inl (NotOneQubit j mygate).

(** The dictionary built for an entry that changed:
    [{"gate": mygate, "targets": tgt_vals}], with ["controls"] added when
    there are some. *)
Definition rebuilt (mygate : value) (tgt_vals ctl_vals : list value) : pydict :=
  [("gate", mygate); ("targets", VList tgt_vals)]
  ++ (if 0 <? List.length ctl_vals then [("controls", VList ctl_vals)] else []).

(** What one pass of the loop body does with entry [j]. *)
Inductive entry_step : Type :=
| Skip
| Emit (ops : list out_op) (updated : bool)
| Stop (e : circuit_error).

Definition validate_entry (j : nat) (entry : pydict) : result entry_step :=
  match lookup "gate" entry with
  | None => Ok Skip
  | Some mygate =>
      match entry_targets entry with
      | None => Ok (Stop (NoTarget j mygate))
      | Some (tgt_vals, flg_t) =>
          let '(ctl_vals, flg_c) := entry_controls entry in
          let flg_update :=
            flg_t || flg_c || scalar_under "parameters" entry
            || scalar_under "rotations" entry in
          if negb (hashable mygate) then Raise TypeError
          else
            match gate_macro mygate with
            | Some m =>
                if negb (List.length (m_targets m) =? List.length tgt_vals)
                   || negb (List.length (m_controls m) =? List.length ctl_vals)
                then Ok (Stop (SpecialArity j mygate))
                else
                  circs <- expand (tgt_vals ++ ctl_vals) (m_body m) ;;
                  Ok (Emit (map (OutOp j false) circs) true)
            | None =>
                match classify j mygate tgt_vals ctl_vals flg_update with
                | inl e => Ok (Stop e)
                | inr (mygate', tgt_vals', ctl_vals', true) =>
                    Ok (Emit [OutOp j false (rebuilt mygate' tgt_vals' ctl_vals')]
                          true)
                | inr (_, _, _, false) => Ok (Emit [OutOp j true entry] false)
                end
            end
      end
  end.

(** The loop over [enumerate(circuit)] from entry [j] on, and the check on
    the validated list that follows it. *)
Fixpoint validate_entries (j : nat) (entries : list value)
  (valid_circ : list out_op) (updates : list nat) : result validation :=
  match entries with
  | [] =>
      Ok (if List.length valid_circ =? 0 then Invalid NoGates
          else Validated valid_circ updates)
  | VDict entry :: rest =>
      s <- validate_entry j entry ;;
      match s with
      | Skip => validate_entries (S j) rest valid_circ updates
      | Emit ops updated =>
          validate_entries (S j) rest (valid_circ ++ ops)
            (if updated then updates ++ [j] else updates)
      | Stop e => Ok (Invalid e)
      end
  | _ :: _ => Ok (Invalid (NotADict j))
  end.

Definition validate_circuit (circuit : value) : result validation :=
  match circuit with
  | VList entries => validate_entries 0 entries [] []
  | _ => Ok (Invalid NotAList)
  end.

(** Entries as they are written in Python. *)
Definition qubit (n : nat) : value := VInt (Z.of_nat n).
Definition qubits (l : list nat) : value := VList (map qubit l).


(** ** The emission loop of [translate_qasm]

    The loop runs over [qc_list], the cleaned statements with the custom
    gates inlined, and resolves operands through [qname], the register map
    built from the [qreg] statement.  The lists bound to [qtgt] and [qctl]
    are Python objects that the emitted dictionaries share, and the
    [append] of the uncontrolled branch mutates [qtgt] in place: the lists
    live in a store and are named by their position in it. *)

Inductive emitted : Type :=
| Emit1q (gate : string) (target : nat)
| EmitNoctl (gate : string) (targets : nat)
| EmitCtl (gate : string) (targets controls : nat).

Record emit_state : Type := EmitState {
  store : list (list nat);
  circ : list emitted;
  qtgt : option nat;
  qctl : option nat
}.

Definition emit_init : emit_state := EmitState [] [] None None.

(** [seq[i]] and [d[k]] with their exceptions. *)
Definition item {A : Type} (l : list A) (i : nat) : result A :=
  match nth_error l i with Some a => Ok a | None => Raise IndexError end.

Definition getitem {A : Type} (d : list (string * A)) (k : string)
  : result A :=
  match lookup k d with Some a => Ok a | None => Raise KeyError end.

Fixpoint getitems {A : Type} (d : list (string * A)) (ks : list string)
  : result (list A) :=
  match ks with
  | [] => Ok []
  | k :: r => a <- getitem d k ;; rest <- getitems d r ;; Ok (a :: rest)
  end.

(** A variable read before any assignment. *)
Definition bound {A : Type} (v : option A) : result A :=
  match v with Some a => Ok a | None => Raise NameError end.

(** [l.append(x)] on the list at [r]. *)
Fixpoint store_append (st : list (list nat)) (r : nat) (x : nat)
  : list (list nat) :=
  match st, r with
  | [], _ => []
  | l :: rest, 0 => (l ++ [x]) :: rest
  | l :: rest, S r' => l :: store_append rest r' x
  end.

Definition words (sep : ascii) (s : string) : list string :=
  map str (split sep (chars s)).

(** The mnemonic of a statement: [qc_list[j].split(" ")[0]]. *)
Definition mnemonic (line : string) : string :=
  hd "" (words " " line).

(** [if qval[-1] in qname.keys(): qtgt = [...]; qctl = [...]]: two new
    lists, bound to [qtgt] and [qctl]. *)
Definition rebind (qname : list (string * nat)) (qval : list string)
  (st : emit_state) : result emit_state :=
  if in_keys (last qval "") qname then
    t <- getitem qname (last qval "") ;;
    cs <- getitems qname (removelast qval) ;;
    Ok (EmitState (store st ++ [[t]; cs]) (circ st)
          (Some (List.length (store st)))
          (Some (S (List.length (store st)))))
  else Ok st.

(** One pass of the loop body. *)
Definition emit_step (qname : list (string * nat)) (line : string)
  (st : emit_state) : result emit_state :=
  let vals := words " " line in
  let gate := hd "" vals in
  match lookup gate gates_1q with
  | Some g =>
      v1 <- item vals 1 ;;
      t <- getitem qname v1 ;;
      Ok (EmitState (store st) (circ st ++ [Emit1q g t]) (qtgt st) (qctl st))
  | None =>
      v1 <- item vals 1 ;;
      let qval := words "," v1 in
      st1 <- rebind qname qval st ;;
      match lookup gate gates_2q_noctl with
      | Some g =>
          r <- bound (qtgt st1) ;;
          q0 <- getitem qname (hd "" qval) ;;
          Ok (EmitState (store_append (store st1) r q0)
                (circ st1 ++ [EmitNoctl g r]) (qtgt st1) (qctl st1))
      | None =>
          match lookup gate gates_2q_ctl with
          | Some g =>
              t <- bound (qtgt st1) ;;
              c <- bound (qctl st1) ;;
              Ok (EmitState (store st1) (circ st1 ++ [EmitCtl g t c])
                    (qtgt st1) (qctl st1))
          | None =>
              match lookup gate gates_mq with
              | Some g =>
                  t <- bound (qtgt st1) ;;
                  c <- bound (qctl st1) ;;
                  Ok (EmitState (store st1) (circ st1 ++ [EmitCtl g t c])
                        (qtgt st1) (qctl st1))
              | None => Ok st1
              end
          end
      end
  end.

Fixpoint emit_loop (qname : list (string * nat)) (qc_list : list string)
  (st : emit_state) : result emit_state :=
  match qc_list with
  | [] => Ok st
  | line :: rest => st' <- emit_step qname line st ;; emit_loop qname rest st'
  end.

(** The dictionaries of [circ] as [json.dumps] writes them. *)
Definition deref (st : list (list nat)) (r : nat) : value :=
  qubits (nth r st []).

Definition render_op (st : list (list nat)) (e : emitted) : pydict :=
  match e with
  | Emit1q g t => [("gate", VStr g); ("target", qubit t)]
  | EmitNoctl g r => [("gate", VStr g); ("targets", deref st r)]
  | EmitCtl g t c =>
      [("gate", VStr g); ("targets", deref st t); ("controls", deref st c)]
  end.

Definition render (st : emit_state) : list pydict :=
  map (render_op (store st)) (circ st).

(** The ["circuit"] entry of the body [translate_qasm] returns. *)
Definition translate_circuit (qname : list (string * nat))
  (qc_list : list string) : result (list pydict) :=
  if 0 <? List.length qname then
    st <- emit_loop qname qc_list emit_init ;; Ok (render st)
  else Ok [].

Definition two_qubits : list (string * nat) := [("q[0]", 0); ("q[1]", 1)].


(** ** Result reconciliation ([retrieve_job])

    [resdata] is the histogram the service returned: each entry is the
    integer [int(k)] of its key and the number under it. *)

(** ** Python numbers

    The numbers of a result histogram and the number of shots are Python
    numbers as [json] reads them: an [int], of any size, or a [float], a
    binary64 value.  Arithmetic that involves a [float] is binary64
    arithmetic, on the operands as [float(x)] gives them. *)

#[local] Set Warnings "-inexact-float".

Inductive num : Type :=
| NInt (z : Z)
| NFloat (f : float).

(** [float(z)] for an [int]: the nearest binary64 value, ties to even;
    [OverflowError] when it is out of range. *)
Definition float_of_Z (z : Z) : result float :=
  match binary_normalize prec emax z 0 false with
  | S754_infinity _ => Raise OverflowError
  | x => Ok (SF2Prim x)
  end.

(** The operand of a binary64 operation. *)
Definition to_float (x : num) : result float :=
  match x with
  | NInt z => float_of_Z z
  | NFloat f => Ok f
  end.

(** [x + y] *)
Definition num_add (x y : num) : result num :=
  match x, y with
  | NInt a, NInt b => Ok (NInt (a + b))
  | _, _ => a <- to_float x ;; b <- to_float y ;; Ok (NFloat (a + b))
  end.

(** The comparison of an [int] with a [float] is exact: the [int] is not
    rounded.  [None]: the [float] is not a number. *)
Definition Z_compare_float (z : Z) (f : float) : option comparison :=
  match Prim2SF f with
  | S754_nan => None
  | S754_infinity s => Some (if s then Gt else Lt)
  | S754_zero _ => Some (z ?= 0)%Z
  | S754_finite s m e =>
      Some (if (0 <=? e)%Z then (z ?= cond_Zopp s (Zpos m) * 2 ^ e)%Z
            else (z * 2 ^ (- e) ?= cond_Zopp s (Zpos m))%Z)
  end.

Definition num_compare (x y : num) : option comparison :=
  match x, y with
  | NInt a, NInt b => Some (a ?= b)%Z
  | NInt a, NFloat g => Z_compare_float a g
  | NFloat f, NInt b => option_map CompOpp (Z_compare_float b f)
  | NFloat f, NFloat g =>
      match (f ?= g)%float with
      | FEq => Some Eq
      | FLt => Some Lt
      | FGt => Some Gt
      | FNotComparable => None
      end
  end.

(** [x < y] and [x == y] *)
Definition num_ltb (x y : num) : bool :=
  match num_compare x y with Some Lt => true | _ => false end.

Definition num_eqb (x y : num) : bool :=
  match num_compare x y with Some Eq => true | _ => false end.

(** [int(f)] for a [float]: truncation towards zero. *)
Definition py_int (f : float) : result Z :=
  match Prim2SF f with
  | S754_nan => Raise ValueError
  | S754_infinity _ => Raise OverflowError
  | S754_zero _ => Ok 0%Z
  | S754_finite s m e =>
      Ok (cond_Zopp s (if (0 <=? e)%Z then Zpos m * 2 ^ e
                       else Zpos m / 2 ^ (- e)))%Z
  end.

(** [x * y] and [x / y] for a [float] [y] *)
Definition py_mul (x : num) (y : float) : result float :=
  a <- to_float x ;; Ok (a * y)%float.

Definition py_div (x : num) (y : float) : result float :=
  a <- to_float x ;;
  if (y =? 0)%float then Raise ZeroDivisionError else Ok (a / y)%float.

(** [x - y] for a [float] [x] *)
Definition py_sub (x : float) (y : num) : result float :=
  b <- to_float y ;; Ok (x - b)%float.

(** ** The keys of the result maps *)

Fixpoint bin_digits (p : positive) : list ascii :=
  match p with
  | xH => ["1"%char]
  | xO q => (bin_digits q ++ ["0"%char])%list
  | xI q => (bin_digits q ++ ["1"%char])%list
  end.

(** [bin(n)] *)
Definition py_bin (n : Z) : list ascii :=
  match n with
  | Z0 => chars "0b0"
  | Zpos p => (chars "0b" ++ bin_digits p)%list
  | Zneg p => (chars "-0b" ++ bin_digits p)%list
  end.

(** [s.zfill(width)] *)
Definition zfill (width : Z) (s : list ascii) : list ascii :=
  let pad := repeat "0"%char (Z.to_nat width - List.length s) in
  match s with
  | c :: r =>
      if Ascii.eqb c "+" || Ascii.eqb c "-" then (c :: pad ++ r)%list
      else (pad ++ s)%list
  | [] => pad
  end.

(** [bin(int(k))[2:].zfill(qubits)] *)
Definition kbin (nqbits : Z) (k : Z) : string :=
  str (zfill nqbits (skipn 2 (py_bin k))).

(** [d[k] = v] *)
Fixpoint dict_set {A : Type} (k : string) (v : A) (d : list (string * A))
  : list (string * A) :=
  match d with
  | [] => [(k, v)]
  | (k', v') :: r =>
      if String.eqb k k' then (k, v) :: r else (k', v') :: dict_set k v r
  end.

(** ** The result arithmetic of [retrieve_job] *)

(** [sumcnts = 0; for val in resdata.values(): sumcnts += val], from the
    sum [s]. *)
Fixpoint sum_values (resdata : list (Z * num)) (s : num) : result num :=
  match resdata with
  | [] => Ok s
  | (_, val) :: r => s' <- num_add s val ;; sum_values r s'
  end.

(** [sumcnts > 0.8 and sumcnts < 1.2] *)
Definition between (s : num) : bool :=
  num_ltb (NFloat 0.8) s && num_ltb s (NFloat 1.2).

Definition flg_probs (resdata : list (Z * num)) : result bool :=
  s <- sum_values resdata (NInt 0) ;; Ok (between s).

Record tally : Type := Tally {
  probs : list (string * num);
  cnts : list (string * num);
  sumcnts : num;
  sumprobs : float
}.

(** The loop over [resdata.items()]. *)
Fixpoint fill (flg : bool) (shots : float) (nqbits : Z)
  (resdata : list (Z * num)) (t : tally) : result tally :=
  match resdata with
  | [] => Ok t
  | (k, v) :: r =>
      p <- (if flg then Ok v else q <- py_div v shots ;; Ok (NFloat q)) ;;
      c <- (if flg then x <- py_mul v shots ;; n <- py_int x ;; Ok (NInt n)
            else Ok v) ;;
      sc <- num_add (sumcnts t) c ;;
      fp <- to_float p ;;
      fill flg shots nqbits r
        (Tally (dict_set (kbin nqbits k) p (probs t))
               (dict_set (kbin nqbits k) c (cnts t))
               sc (sumprobs t + fp)%float)
  end.

(** [for k,v in probs.items(): probs[k] = v/sumprobs] *)
Fixpoint normalize (s : float) (d : list (string * num))
  : result (list (string * num)) :=
  match d with
  | [] => Ok []
  | (k, v) :: r =>
      q <- py_div v s ;; rest <- normalize s r ;; Ok ((k, NFloat q) :: rest)
  end.

(** The search for the largest count, from [maxk, maxcnt = '', 0]. *)
Definition max_count (d : list (string * num)) : string * num :=
  fold_left (fun m kv => if num_ltb (snd m) (snd kv) then kv else m) d
    (""%string, NInt 0).

(** [cnts[maxk] += int(shots - sumcnts)]: the item is read first. *)
Definition correct (shots : float) (t : tally)
  : result (list (string * num)) :=
  let maxk := fst (max_count (cnts t)) in
  c <- getitem (cnts t) maxk ;;
  x <- py_sub shots (sumcnts t) ;;
  d <- py_int x ;;
  c' <- num_add c (NInt d) ;;
  Ok (dict_set maxk c' (cnts t)).

Definition reconcile (shots : float) (nqbits : Z) (resdata : list (Z * num))
  : result (list (string * num) * list (string * num)) :=
  flg <- flg_probs resdata ;;
  t <- fill flg shots nqbits resdata (Tally [] [] (NInt 0) 0) ;;
  probs' <- (if negb (sumprobs t =? 1)%float
             then normalize (sumprobs t) (probs t)
             else Ok (probs t)) ;;
  cnts' <- (if negb (num_eqb (sumcnts t) (NFloat shots))
            then correct shots t
            else Ok (cnts t)) ;;
  Ok (probs', cnts').


(** ** The polling loop of [retrieve_job]

    The service is a pair of reply functions: the reply to the [n]-th job
    request and the reply to the [n]-th results request.  What the loop does
    to the outside is a trace of [event]s.  The call is modelled with
    [verbose=False]; the rewriting of [data["metadata"]["qiskit_header"]]
    does not touch the fields modelled here. *)

Record job_data : Type := JobData {
  job_status : string;
  job_shots : option num;
  job_qubits : Z
}.

Inductive response (A : Type) : Type :=
| HttpOk (body : A)
| HttpError.
Arguments HttpOk {A} body.
Arguments HttpError {A}.

Record service : Type := Service {
  job_reply : nat -> response job_data;
  results_reply : nat -> response (list (Z * num))
}.

Inductive event : Type :=
| GetJob
| GetResults
| Print
| Sleep.

Inductive retrieved : Type :=
| JobInfo (data : job_data)
    (results : option (list (string * num) * list (string * num)))
| InvalidJobId (e : jobid_error)
| ResponseError.

(** The code between [if results.ok:] and [return data]:
    [shots = float(data["shots"]) if "shots" in data.keys() else 1024.0],
    then the arithmetic on the results. *)
Definition with_results (data : job_data) (resdata : list (Z * num))
  : result retrieved :=
  shots <- match job_shots data with
           | Some n => to_float n
           | None => Ok 1024%float
           end ;;
  r <- reconcile shots (job_qubits data) resdata ;;
  Ok (JobInfo data (Some r)).

(** The [while wait_minutes >= 0] loop and the [return] after it.
    [responded] tells whether [response] has been assigned; [n_job] and
    [n_res] count the requests sent so far.  [None] is running out of
    [fuel]. *)
Fixpoint poll (fuel : nat) (svc : service) (wait_minutes : Z)
  (flg_waitprint responded : bool) (n_job n_res : nat) (trace : list event)
  : option (list event * result retrieved) :=
  if (wait_minutes <? 0)%Z then
    Some (trace, if responded then Ok ResponseError else Raise NameError)
  else
    match fuel with
    | O => None
    | S fuel' =>
        let rest (w : Z) (n_res' : nat) (tr : list event) :=
          poll fuel' svc (w - 1)%Z false true (S n_job) n_res'
            ((if flg_waitprint then tr ++ [Print] else tr) ++ [Sleep])%list in
        match job_reply svc n_job with
        | HttpOk data =>
            let w :=
              if String.eqb (job_status data) "failed"
                 || String.eqb (job_status data) "canceled"
              then 0%Z else wait_minutes in
            if String.eqb (job_status data) "completed" then
              match results_reply svc n_res with
              | HttpOk resdata =>
                  Some ((trace ++ [GetJob; GetResults])%list,
                        with_results data resdata)
              | HttpError =>
                  rest w (S n_res) (trace ++ [GetJob; GetResults; Print])%list
              end
            else if (w <=? 0)%Z then
              Some ((trace ++ [GetJob])%list, Ok (JobInfo data None))
            else rest w n_res (trace ++ [GetJob])%list
        | HttpError => rest wait_minutes n_res (trace ++ [GetJob])%list
        end
    end.

Definition retrieve_job (svc : service) (jobid : jobid_arg) (wait_minutes : Z)
  : option (list event * result retrieved) :=
  match validate_jobid_hash jobid with
  | JobIdError e => Some ([], Ok (InvalidJobId e))
  | JobId _ =>
      poll (S (Z.to_nat (wait_minutes * 4))) svc (wait_minutes * 4)%Z
        true false 0 0 []
  end.

(** The number of times an event occurs in a trace. *)
Definition occurrences (e : event) (tr : list event) : nat :=
  List.length
    (filter (fun x => match e, x with
                      | GetJob, GetJob | GetResults, GetResults
                      | Print, Print | Sleep, Sleep => true
                      | _, _ => false
                      end) tr).

(** * Further parts of the service *)

From Stdlib Require Import Sorted DecimalString DecimalNat.
From Stdlib Require DecimalFacts.

Local Close Scope Q_scope.
Local Open Scope nat_scope.

(** ** [str(j)] and [int(s)] *)

(** [str(j)] for an index [j]. *)
Definition py_str_nat (n : nat) : string :=
  NilEmpty.string_of_uint (Nat.to_uint n).

Definition digit_value (c : ascii) : option nat :=
  let n := nat_of_ascii c in
  if (48 <=? n) && (n <=? 57) then Some (n - 48) else None.

(** The digits after the first one: each may be preceded by one
    underscore. *)
Fixpoint int_digits (acc : nat) (s : list ascii) : option nat :=
  match s with
  | [] => Some acc
  | c :: r =>
      if Ascii.eqb c "_" then
        match r with
        | d :: r' =>
            match digit_value d with
            | Some k => int_digits (10 * acc + k) r'
            | None => None
            end
        | [] => None
        end
      else
        match digit_value c with
        | Some k => int_digits (10 * acc + k) r
        | None => None
        end
  end.

(** [int(s)]: surrounding whitespace, an optional sign, decimal digits;
    [None] stands for the [ValueError] raised on anything else. *)
Definition py_int_str (s : list ascii) : option Z :=
  let t := strip s in
  let sign_body :=
    match t with
    | c :: r =>
        if Ascii.eqb c "-" then (true, r)
        else if Ascii.eqb c "+" then (false, r)
        else (false, t)
    | [] => (false, t)
    end in
  match snd sign_body with
  | c :: r =>
      match digit_value c with
      | Some k =>
          match int_digits k r with
          | Some n =>
              Some (if fst sign_body then (- Z.of_nat n)%Z else Z.of_nat n)
          | None => None
          end
      | None => None
      end
  | [] => None
  end.

(** ** Register declarations ([translate_qasm])

    [vals[1]] of a [qreg] or [creg] statement is either [name[N]] or a list
    of names separated by commas.  [None] stands for the [ValueError] of a
    failed unpacking or [int]. *)

(** [{ name+'['+str(j)+']': j for j in range(nbits) }], from index [j]. *)
Fixpoint indexed_names (name : string) (j count : nat)
  (d : list (string * nat)) : list (string * nat) :=
  match count with
  | 0 => d
  | S count' =>
      indexed_names name (S j) count'
        (dict_set (name ++ "[" ++ py_str_nat j ++ "]") j d)
  end.

(** [{ mylist[j]: j for j in range(nbits) }], from index [j]. *)
Fixpoint listed_names (j : nat) (mylist : list string)
  (d : list (string * nat)) : list (string * nat) :=
  match mylist with
  | [] => d
  | n :: r => listed_names (S j) r (dict_set n j d)
  end.

Definition parse_register (operand : string) : option (list (string * nat)) :=
  let mylist := words "," operand in
  match mylist with
  | [one] =>
      match split "[" (chars one) with
      | [name; num] =>
          match py_int_str (removelast num) with
          | Some nbits => Some (indexed_names (str name) 0 (Z.to_nat nbits) [])
          | None => None
          end
      | _ => None
      end
  | _ => Some (listed_names 0 mylist [])
  end.

(** ** [set_jobid_dict] *)

(** The argument: nothing, a string, a dictionary (with the string under
    ["id"], if any), a list, or something else. *)
Inductive jobid_input : Type :=
| INone
| IStr (s : string)
| IDict (id : option string)
| IList (l : list jobid_arg)
| IOther.

(** [Ok None]: [None] is returned and [last_jobid_dict] is left as it is;
    [Ok (Some d)]: [d] is the new [last_jobid_dict]. *)
Definition set_jobid_dict (jobid_dict : jobid_input)
  : result (option jobid_arg) :=
  match jobid_dict with
  | INone => Ok None
  | IStr s =>
      match validate_jobid_hash (JStr s) with
      | JobId id => Ok (Some (JDict (Some id)))
      | JobIdError _ => Ok None
      end
  | IDict None => Ok None
  | IDict (Some id) =>
      match validate_jobid_hash (JStr id) with
      | JobId _ => Ok (Some (JDict (Some id)))
      | JobIdError _ => Ok None
      end
  | IList l =>
      a <- item l 0 ;;
      match validate_jobid_hash a with
      | JobId id => Ok (Some (JDict (Some id)))
      | JobIdError _ => Ok None
      end
  | IOther => Ok None
  end.

(** ** [get_jobids_from_input] *)

(** A value of the dictionary given: one object or a list. *)
Inductive dval : Type :=
| DOne (a : jobid_arg)
| DMany (l : list jobid_arg).

(** The argument.  [InDict name ids d] is the dictionary with the string
    [name] under ["name"] and the list [ids] under ["ids"], when they are
    there, followed by the entries [d]. *)
Inductive ids_input : Type :=
| InNone
| InDict (name : option string) (ids : option (list jobid_arg))
    (d : list (string * dval))
| InList (l : list jobid_arg)
| InStr (s : string)
| InOther.

Inductive ids_error : Type :=
| NoInput
| NoIdsInDict
| NotListDictFile
| NoValidIds.

Inductive ids_result : Type :=
| Names (jobdict : list (string * string))
| IdsError (e : ids_error).

(** [jobdict.update({name: outdict["id"]})] when [a] is a valid
    identifier. *)
Definition add_valid (name : string) (a : jobid_arg)
  (jobdict : list (string * string)) : list (string * string) :=
  match validate_jobid_hash a with
  | JobId id => dict_set name id jobdict
  | JobIdError _ => jobdict
  end.

(** The loop over [enumerate(jobidlist)]. *)
Fixpoint from_list (name_base : string) (j : nat) (jobidlist : list jobid_arg)
  (jobdict : list (string * string)) : list (string * string) :=
  match jobidlist with
  | [] => jobdict
  | a :: r =>
      from_list name_base (S j) r
        (add_valid (name_base ++ py_str_nat j) a jobdict)
  end.

(** The loop over the items of a dictionary; a list is not an
    identifier. *)
Fixpoint from_items (items : list (string * dval))
  (jobdict : list (string * string)) : list (string * string) :=
  match items with
  | [] => jobdict
  | (k, v) :: r =>
      from_items r
        (add_valid k (match v with DOne a => a | DMany _ => JOther end) jobdict)
  end.

(** One line of a file of identifiers. *)
Definition from_line (name_base : string) (j : nat) (line : string)
  (jobdict : list (string * string)) : result (list (string * string)) :=
  c <- item (chars line) 0 ;;
  if Ascii.eqb c "#" then Ok jobdict
  else
    let vals := split ":" (strip (chars line)) in
    match validate_jobid_hash (JStr (str (strip (last vals [])))) with
    | JobId id =>
        Ok (if 1 <? List.length vals
            then dict_set (str (strip (hd [] vals))) id jobdict
            else dict_set (name_base ++ py_str_nat j) id jobdict)
    | JobIdError _ => Ok jobdict
    end.

Fixpoint from_lines (name_base : string) (j : nat) (lines : list string)
  (jobdict : list (string * string)) : result (list (string * string)) :=
  match lines with
  | [] => Ok jobdict
  | line :: r =>
      jobdict' <- from_line name_base j line jobdict ;;
      from_lines name_base (S j) r jobdict'
  end.

(** The last part of the function: the identifiers of [jobidlist]. *)
Definition from_jobidlist (name_base : string) (jobidlist : list jobid_arg)
  : ids_result :=
  let jobdict := from_list name_base 0 jobidlist [] in
  if List.length jobdict =? 0 then IdsError NoValidIds else Names jobdict.

(** [fs path] is the list of the lines of the file at [path], when there is
    one. *)
Definition get_jobids_from_input (fs : string -> option (list string))
  (list_dict_file : ids_input) (name_base : string) : result ids_result :=
  match list_dict_file with
  | InNone => Ok (IdsError NoInput)
  | InDict name ids d =>
      let name_base := match name with Some s => s | None => name_base end in
      match ids with
      | Some l => Ok (from_jobidlist name_base l)
      | None =>
          match lookup "id" d with
          | Some (DMany l) => Ok (from_jobidlist name_base l)
          | Some (DOne a) => Ok (from_jobidlist name_base [a])
          | None =>
              let items :=
                match name with
                | Some s => ("name", DOne (JStr s)) :: d
                | None => d
                end in
              let jobdict := from_items items [] in
              if List.length jobdict =? 0 then Ok (IdsError NoIdsInDict)
              else Ok (Names jobdict)
          end
      end
  | InList l => Ok (from_jobidlist name_base l)
  | InStr s =>
      match fs s with
      | Some lines =>
          jobdict <- from_lines name_base 0 lines [] ;;
          if List.length jobdict =? 0 then Ok (from_jobidlist name_base [])
          else Ok (Names jobdict)
      | None => Ok (from_jobidlist name_base [JStr s])
      end
  | InOther => Ok (IdsError NotListDictFile)
  end.

(** The line [submit_job] writes to the file of identifiers:
    [f"{timestamp} : {outdata['id']}\n"]. *)
Definition log_line (timestamp id : string) : string :=
  timestamp ++ " : " ++ id ++ String "010" "".

(** ** [cancel_job] *)

(** The argument: an object, with whether it is a string that names an
    existing path, or a list. *)
Inductive cancel_arg : Type :=
| CArg (a : jobid_arg) (is_path : bool)
| CList (l : list jobid_arg).

(** The service as [cancel_job] sees it: the reply to the request for a
    job, with the status when the data have one, and the reply to the
    request to cancel it. *)
Record cancel_service : Type := CancelService {
  status_reply : string -> response (option string);
  cancel_reply : string -> response unit
}.

(** The requests sent, with the identifier in their address. *)
Inductive cancel_event : Type :=
| GetStatus (id : string)
| PutCancel (id : string).

Inductive cancel_result : Type :=
| CancelInvalid (e : jobid_error) (note : bool)
| CancelNoStatus
| CancelDeclined (status : string)
| CancelSent
| CancelRefused
| CancelGetFailed.

Definition not_cancellable : list string :=
  ["failed"; "running"; "completed"; "canceled"].

Definition cancel_validated (svc : cancel_service) (id : string)
  : list cancel_event * cancel_result :=
  match status_reply svc id with
  | HttpOk None => ([GetStatus id], CancelNoStatus)
  | HttpOk (Some status) =>
      if existsb (String.eqb status) not_cancellable
      then ([GetStatus id], CancelDeclined status)
      else
        match cancel_reply svc id with
        | HttpOk _ => ([GetStatus id; PutCancel id], CancelSent)
        | HttpError => ([GetStatus id; PutCancel id], CancelRefused)
        end
  | HttpError => ([GetStatus id], CancelGetFailed)
  end.

Definition cancel_job (svc : cancel_service) (jobid : cancel_arg)
  : list cancel_event * cancel_result :=
  match jobid with
  | CArg a is_path =>
      match validate_jobid_hash a with
      | JobId id => cancel_validated svc id
      | JobIdError e =>
          ([], CancelInvalid e
                 (match a with JStr _ => is_path | _ => false end))
      end
  | CList [a] =>
      match validate_jobid_hash a with
      | JobId id => cancel_validated svc id
      | JobIdError e => ([], CancelInvalid e false)
      end
  | CList _ => ([], CancelInvalid NotAString true)
  end.

(** ** The number of digits of [extract_probabilities]

    With [rounded] below one, the probabilities are rounded to as many
    digits as the loop [while n//(10**rounded) > 0: rounded += 1] counts.
    [None] is running out of [fuel]. *)
Fixpoint count_digits (fuel : nat) (n : Z) (rounded : nat) : option nat :=
  if (0 <? n / 10 ^ Z.of_nat rounded)%Z then
    match fuel with
    | 0 => None
    | S fuel' => count_digits fuel' n (S rounded)
    end
  else Some rounded.

Definition auto_rounded (shots : option Z) : option nat :=
  let n := match shots with Some n => n | None => 1024%Z end in
  count_digits (Z.to_nat n) n 0.

(** ** The file of identifiers ([__init__], [submit_job]) *)

(** [len(s) > 4 and s.find(".", -5) >= 0]: the name is used as it is. *)
Definition has_extension (s : list ascii) : bool :=
  (4 <? List.length s)
  && existsb (Ascii.eqb ".") (skipn (List.length s - 5) s).

(** The argument [jobid_file_base] of [__init__]: nothing, a boolean or a
    string. *)
Inductive base_arg : Type :=
| BNone
| BBool (b : bool)
| BStr (s : string).

Definition init_file_base (jobid_file_base : base_arg) : string :=
  match jobid_file_base with
  | BNone => ""
  | BBool true => "qpu_jobs"
  | BBool false => ""
  | BStr s => if has_extension (chars s) then s else s ++ ".txt"
  end.

(** ** Where a line of identifiers is written ([submit_job],
    [submit_multiple_jobs]) *)

(** [while os.path.exists(f"{base}{j}.txt"): j += 1], from [j]; [None] is
    running out of [fuel]. *)
Fixpoint free_index (existing : string -> bool) (base : string)
  (fuel j : nat) : option nat :=
  if existing (base ++ py_str_nat j ++ ".txt")%string then
    match fuel with
    | 0 => None
    | S fuel' => free_index existing base fuel' (S j)
    end
  else Some j.

(** The flag a file is opened with: ["a"] or ["w"]. *)
Inductive io_mode : Type :=
| ModeA
| ModeW.

(** The file opened for a base name, and how: [Some None] is no file (an
    empty base name), [None] is running out of [fuel] in the search for a
    free number.  [existing] is [os.path.exists]. *)
Definition file_target (existing : string -> bool) (fuel : nat)
  (base : string) : option (option (string * io_mode)) :=
  if 0 <? String.length base then
    if has_extension (chars base) then
      Some (Some (base, if existing base then ModeA else ModeW))
    else if negb (existing (base ++ ".txt")%string) then
      Some (Some ((base ++ ".txt")%string, ModeW))
    else
      match free_index existing base fuel 0 with
      | Some j =>
          Some (Some ((base ++ py_str_nat j ++ ".txt")%string, ModeW))
      | None => None
      end
  else Some None.

(** The argument [save_file]: absent, a boolean, a string, an open or
    closed stream, or something else. *)
Inductive save_arg : Type :=
| SaveAbsent
| SaveBool (b : bool)
| SaveStr (s : string)
| SaveStream
| SaveOther.

(** The base name [submit_job] uses; with something else the name is not
    bound when it is read. *)
Definition save_base (self_base : string) (save_file : save_arg)
  : result string :=
  match save_file with
  | SaveAbsent => Ok self_base
  | SaveBool b => Ok (if b then self_base else "")
  | SaveStr s => Ok s
  | SaveStream => Ok ""
  | SaveOther => Raise NameError
  end.

(** The file [submit_job] opens by name, for the stored base name
    [self_base] and the argument [save_file]. *)
Definition save_target (existing : string -> bool) (fuel : nat)
  (self_base : string) (save_file : save_arg)
  : result (option (option (string * io_mode))) :=
  base <- save_base self_base save_file ;;
  Ok (file_target existing fuel base).

(** ** The names of the jobs ([submit_multiple_jobs]) *)

(** [[f"{prefix}{j}" for j in range(n)]] *)
Definition indexed (prefix : string) (n : nat) : list string :=
  map (fun j => (prefix ++ py_str_nat j)%string) (seq 0 n).

(** The argument [name]: a string or a list of strings. *)
Inductive name_arg : Type :=
| NameStr (s : string)
| NameList (l : list string).

(** The names given to [n] circuits, from the keyword arguments [name],
    [name_base] and [names] (a list), when they are there. *)
Definition job_names (name : option name_arg) (name_base : option string)
  (names : option (list string)) (n : nat) : result (list string) :=
  let name := match name with Some x => x | None => NameStr "circuit" end in
  let names0 :=
    match name with
    | NameList l => l
    | NameStr s => indexed (s ++ "_")%string n
    end in
  let names1 :=
    match name_base with
    | Some b => indexed b n
    | None => match names with Some l => l | None => names0 end
    end in
  if negb (List.length (nodup string_dec names1) =? n) then
    s <- match name with NameList l => item l 0 | NameStr s => Ok s end ;;
    Ok (indexed (s ++ "_")%string n)
  else Ok names1.

(** The loop over [zip(names, list_of_circuits)]; [submit j nam circ] is
    what the call of [submit_job] number [j] returns. *)
Fixpoint submit_all {C J : Type} (submit : nat -> string -> C -> J)
  (j : nat) (pairs : list (string * C)) (outdict : list (string * J))
  : list (string * J) :=
  match pairs with
  | [] => outdict
  | (nam, circ) :: r =>
      submit_all submit (S j) r (dict_set nam (submit j nam circ) outdict)
  end.



(** * Specifications *)

Local Close Scope Q_scope.
Local Open Scope nat_scope.

(** [sep.join(pieces)] *)
Fixpoint join (sep : ascii) (pieces : list (list ascii)) : list ascii :=
  match pieces with
  | [] => []
  | [g] => g
  | g :: gs => g ++ sep :: join sep gs
  end.

(** The digits [0]-[9] and the lower-case letters [a]-[f]. *)
Definition lower_hex_digit (c : ascii) : Prop :=
  48 <= nat_of_ascii c <= 57 \/ 97 <= nat_of_ascii c <= 102.

(** The shape of a job identifier: 36 characters, 4 hyphens, five groups of
    8, 4, 4, 4 and 12 lower-case hex digits. *)
Definition uid_shape (id : list ascii) : Prop :=
  List.length id = 36 /\ count "-" id = 4 /\
  exists g1 g2 g3 g4 g5,
    id = g1 ++ "-"%char :: g2 ++ "-"%char :: g3 ++ "-"%char :: g4
            ++ "-"%char :: g5
    /\ List.length g1 = 8 /\ List.length g2 = 4 /\ List.length g3 = 4
    /\ List.length g4 = 4 /\ List.length g5 = 12
    /\ Forall lower_hex_digit (g1 ++ g2 ++ g3 ++ g4 ++ g5).

(** The identifier of the examples. *)
Definition sample_jobid : string := "01234567-89ab-cdef-0123-456789abcdef".


(** ** The circuit validator *)

(** [run j entries out upd]: the loop body, run on [entries] from index [j]
    on, stops at none of them, appends [out] to [valid_circ] and [upd] to
    [updates]. *)
Inductive run : nat -> list value -> list out_op -> list nat -> Prop :=
| run_nil (j : nat) : run j [] [] []
| run_skip (j : nat) (entry : pydict) (rest : list value)
    (out : list out_op) (upd : list nat) :
    validate_entry j entry = Ok Skip ->
    run (S j) rest out upd ->
    run j (VDict entry :: rest) out upd
| run_emit (j : nat) (entry : pydict) (rest : list value)
    (ops : list out_op) (updated : bool) (out : list out_op) (upd : list nat) :
    validate_entry j entry = Ok (Emit ops updated) ->
    run (S j) rest out upd ->
    run j (VDict entry :: rest) (ops ++ out)
      ((if updated then [j] else []) ++ upd).


(** An entry whose [target]/[control] key holds a list, or whose
    [targets]/[controls] key, read because the other is absent, holds a
    scalar. *)
Definition holds_list (k : string) (entry : pydict) : bool :=
  match lookup k entry with Some (VList _) => true | _ => false end.

Definition shape_mismatch (entry : pydict) : bool :=
  holds_list "target" entry
  || (negb (in_keys "target" entry) && scalar_under "targets" entry)
  || holds_list "control" entry
  || (negb (in_keys "control" entry) && scalar_under "controls" entry).

(** The gate classes and their arity contracts. *)
Inductive gate_class : Type :=
| SingleQubit
| TwoQubitControlled
| TwoQubitUncontrolled
| MultiControl.

Definition class_table (c : gate_class) : list (string * string) :=
  match c with
  | SingleQubit => gates_1q
  | TwoQubitControlled => gates_2q_ctl
  | TwoQubitUncontrolled => gates_2q_noctl
  | MultiControl => gates_mq
  end.

(** A canonical name of a class: a name the class's table maps to. *)
Definition canonical (c : gate_class) (g : string) : Prop :=
  exists k, In (k, g) (class_table c).

Definition arity_ok (c : gate_class) (targets controls : nat) : Prop :=
  match c with
  | SingleQubit => targets = 1 /\ controls = 0
  | TwoQubitControlled => targets = 1 /\ controls = 1
  | TwoQubitUncontrolled => targets = 2 /\ controls = 0
  | MultiControl => targets = 1 /\ 2 <= controls
  end.







(** ** The emission loop *)

(** A statement whose mnemonic is in none of the four tables. *)
Definition unknown_mnemonic (line : string) : bool :=
  negb (in_keys (mnemonic line) gates_1q)
  && negb (in_keys (mnemonic line) gates_2q_noctl)
  && negb (in_keys (mnemonic line) gates_2q_ctl)
  && negb (in_keys (mnemonic line) gates_mq).

(** The statement has an operand field and the register map knows every
    name in it. *)
Definition operands_resolve (qname : list (string * nat)) (line : string)
  : Prop :=
  exists ops,
    nth_error (words " " line) 1 = Some ops
    /\ Forall (fun q => in_keys q qname = true) (words "," ops).

(** The statement is passed on into the circuit: some operation carries its
    mnemonic. *)
Definition passed_through (line : string) (circuit : list pydict) : Prop :=
  exists r, In r circuit /\ lookup "gate" r = Some (VStr (mnemonic line)).

(** The references of a state point into its store. *)
Definition ref_ok (n : nat) (e : emitted) : Prop :=
  match e with
  | Emit1q _ _ => True
  | EmitNoctl _ r => r < n
  | EmitCtl _ t c => t < n /\ c < n
  end.

Definition refs_ok (st : emit_state) : Prop :=
  Forall (ref_ok (List.length (store st))) (circ st)
  /\ (forall r, qtgt st = Some r -> r < List.length (store st))
  /\ (forall r, qctl st = Some r -> r < List.length (store st)).

(** ** Result reconciliation *)

(** The probabilities and the counts of a tally, or the exception the loop
    raised. *)
Definition maps_of (r : result tally)
  : result (list (string * num) * list (string * num)) :=
  t <- r ;; Ok (probs t, cnts t).

(** The two readings of a histogram, key by key: the numbers as
    probabilities, with [int(v*shots)] as counts, and the numbers as
    counts, with [v/shots] as probabilities. *)
Fixpoint read_as_probabilities (shots : float) (nqbits : Z)
  (resdata : list (Z * num))
  : result (list (string * num) * list (string * num)) :=
  match resdata with
  | [] => Ok ([], [])
  | (k, v) :: r =>
      x <- py_mul v shots ;;
      n <- py_int x ;;
      rest <- read_as_probabilities shots nqbits r ;;
      Ok ((kbin nqbits k, v) :: fst rest, (kbin nqbits k, NInt n) :: snd rest)
  end.

Fixpoint read_as_counts (shots : float) (nqbits : Z)
  (resdata : list (Z * num))
  : result (list (string * num) * list (string * num)) :=
  match resdata with
  | [] => Ok ([], [])
  | (k, v) :: r =>
      q <- py_div v shots ;;
      rest <- read_as_counts shots nqbits r ;;
      Ok ((kbin nqbits k, NFloat q) :: fst rest, (kbin nqbits k, v) :: snd rest)
  end.

(** The exact value of a number; an infinity and a NaN have none. *)
Definition SF_value (x : spec_float) : option Q :=
  match x with
  | S754_zero _ => Some 0%Q
  | S754_finite s m e =>
      Some (if (0 <=? e)%Z then inject_Z (cond_Zopp s (Zpos m) * 2 ^ e)
            else Qmake (cond_Zopp s (Zpos m)) (2 ^ Z.to_pos (- e)))
  | _ => None
  end.

Definition float_value (f : float) : option Q := SF_value (Prim2SF f).

Definition num_value (x : num) : option Q :=
  match x with
  | NInt z => Some (inject_Z z)
  | NFloat f => float_value f
  end.

(** The values of the binary64 numbers that [0.8] and [1.2] denote:
    0.8000000000000000444 and 1.1999999999999999556, to 19 places. *)
Definition lower_bound : Q := (7205759403792794 # 9007199254740992)%Q.
Definition upper_bound : Q := (5404319552844595 # 4503599627370496)%Q.

(** The number lies strictly between them. *)
Definition strictly_between (s : num) : Prop :=
  exists q, num_value s = Some q /\ (lower_bound < q)%Q /\ (q < upper_bound)%Q.

(** The value of a finite binary64 number in units of [2^-1074]. *)
Definition scaled (m : positive) (e : Z) : Z := (Zpos m * 2 ^ (e + 1074))%Z.



(** The keys of the histogram are rendered as distinct bit strings. *)
Definition distinct_states (nqbits : Z) (resdata : list (Z * num)) : Prop :=
  NoDup (map (fun kv => kbin nqbits (fst kv)) resdata).

(** ** Polling *)

(** A job that is reported completed, with results that cannot be
    fetched. *)
Definition completed_without_results : service :=
  Service (fun _ => HttpOk (JobData "completed" (Some (NInt 1024)) 2))
          (fun _ => HttpError).


(** ** Binary strings *)

(** The number a string of binary digits stands for; [None] when a
    character is not a binary digit. *)
Definition bits_value (s : list ascii) : option Z :=
  fold_left
    (fun acc c =>
       match acc with
       | None => None
       | Some n =>
           if Ascii.eqb c "0" then Some (2 * n)%Z
           else if Ascii.eqb c "1" then Some (2 * n + 1)%Z
           else None
       end)
    s (Some 0%Z).

(** ** Statements of the emission loop *)

(** The statement has an operand field whose last name is a declared
    qubit, so that the loop binds fresh lists to [qtgt] and [qctl]. *)
Definition binds_target (qname : list (string * nat)) (line : string) : Prop :=
  exists ops,
    nth_error (words " " line) 1 = Some ops
    /\ in_keys (last (words "," ops) "") qname = true.

(** A statement that cannot touch a list bound by an earlier statement:
    it binds fresh lists, or it is not a statement of an uncontrolled
    two-qubit gate. *)
Definition keeps_earlier (qname : list (string * nat)) (line : string) : Prop :=
  binds_target qname line \/ lookup (mnemonic line) gates_2q_noctl = None.

(** ** Files of identifiers *)

(** A timestamp as [submit_job] formats it has no colon, does not begin
    with [#] and has no whitespace at its ends. *)
Definition timestamp_ok (ts : string) : Prop :=
  exists c r,
    chars ts = c :: r
    /\ c <> "#"%char
    /\ py_isspace c = false
    /\ py_isspace (last (chars ts) c) = false
    /\ ~ In ":"%char (chars ts).

(** The dictionary that reading the lines of [entries] builds. *)
Definition logged (entries : list (string * string)) : list (string * string) :=
  fold_left (fun d e => dict_set (fst e) (snd e) d) entries [].

(** The property kept by every loop of [get_jobids_from_input]. *)
Definition all_valid (jobdict : list (string * string)) : Prop :=
  forall n id, In (n, id) jobdict -> uid_shape (chars id).

(** ** Registers *)

Definition is_digit (c : ascii) : bool :=
  match digit_value c with Some _ => true | None => false end.

(** The name of bit [j] of the register [name]. *)
Definition bit_name (name : string) (j : nat) : string :=
  name ++ "[" ++ py_str_nat j ++ "]".

(** ** Files of identifiers, written *)

(** [f"{base}{j}.txt"] *)
Definition numbered_file (base : string) (j : nat) : string :=
  (base ++ py_str_nat j ++ ".txt")%string.

(** ** Histograms of whole counts *)

(** A map whose values are Python ints. *)
Definition ints {K : Type} (zs : list (K * Z)) : list (K * num) :=
  map (fun kv => (fst kv, NInt (snd kv))) zs.



(** ** Worked examples *)

Example validate_cx :
  validate_circuit
    (VList [VDict [("gate", VStr "cx"); ("target", qubit 1); ("control", qubit 0)]])
  = Ok (Validated
          [OutOp 0 false [("gate", VStr "x"); ("targets", qubits [1]);
                          ("controls", qubits [0])]]
          [0]).
Proof. reflexivity. Qed.

Example validate_sswap :
  validate_circuit
    (VList [VDict [("gate", VStr "sswap"); ("targets", qubits [4; 7])]])
  = Ok (Validated
          [OutOp 0 false [("gate", VStr "x"); ("targets", qubits [7]);
                          ("controls", qubits [4])];
           OutOp 0 false [("gate", VStr "v"); ("targets", qubits [4]);
                          ("controls", qubits [7])];
           OutOp 0 false [("gate", VStr "x"); ("targets", qubits [7]);
                          ("controls", qubits [4])]]
          [0]).
Proof. reflexivity. Qed.

Example translate_bell :
  translate_circuit two_qubits
    ["qreg q[2]"; "creg c[2]"; "h q[0]"; "cx q[0],q[1]"; "swap q[0],q[1]";
     "measure q[0] -> c[0]"]
  = Ok [[("gate", VStr "h"); ("target", qubit 0)];
        [("gate", VStr "x"); ("targets", qubits [1]); ("controls", qubits [0])];
        [("gate", VStr "swap"); ("targets", qubits [1; 0])]].
Proof. reflexivity. Qed.

Example reconcile_bell :
  reconcile 1024 2 [(0%Z, NInt 512); (3%Z, NInt 512)]
  = Ok ([("00", NFloat 0.5); ("11", NFloat 0.5)],
        [("00", NInt 512); ("11", NInt 512)]).
Proof. reflexivity. Qed.

(** * Properties *)

(** ** Strings *)

Lemma chars_str (l : list ascii) : chars (str l) = l.
Proof. apply list_ascii_of_string_of_list_ascii. Qed.

Lemma str_chars (s : string) : str (chars s) = s.
Proof. apply string_of_list_ascii_of_string. Qed.

Lemma split_not_nil (sep : ascii) (s : list ascii) : split sep s <> [].
Proof.
  destruct s as [|c r]; simpl; [discriminate|].
  destruct (Ascii.eqb c sep); [discriminate|].
  destruct (split sep r); discriminate.
Qed.

Lemma split_length (sep : ascii) (s : list ascii) :
  List.length (split sep s) = S (count sep s).
Proof.
  induction s as [|c r IH]; simpl; [reflexivity|].
  destruct (Ascii.eqb c sep); simpl; [now rewrite IH|].
  destruct (split sep r) as [|g gs] eqn:E; simpl in *; [discriminate|exact IH].
Qed.

Lemma join_split (sep : ascii) (s : list ascii) : join sep (split sep s) = s.
Proof.
  induction s as [|c r IH]; simpl; [reflexivity|].
  destruct (Ascii.eqb c sep) eqn:E.
  - apply Ascii.eqb_eq in E; subst c.
    destruct (split sep r) as [|g gs] eqn:S; [now apply split_not_nil in S|].
    simpl in *. now rewrite IH.
  - destruct (split sep r) as [|g gs] eqn:S; [now apply split_not_nil in S|].
    destruct gs; simpl in *; now rewrite <- IH.
Qed.

Lemma split_free (sep : ascii) (g : list ascii) :
  ~ In sep g -> split sep g = [g].
Proof.
  induction g as [|c r IH]; simpl; intros H; [reflexivity|].
  destruct (Ascii.eqb c sep) eqn:E.
  - apply Ascii.eqb_eq in E. tauto.
  - rewrite IH; tauto.
Qed.

Lemma split_app (sep : ascii) (g r : list ascii) :
  ~ In sep g -> split sep (g ++ sep :: r) = g :: split sep r.
Proof.
  induction g as [|c g IH]; simpl; intros H.
  - now rewrite Ascii.eqb_refl.
  - destruct (Ascii.eqb c sep) eqn:E.
    + apply Ascii.eqb_eq in E. tauto.
    + rewrite IH; tauto.
Qed.

Lemma count_app (sep : ascii) (a b : list ascii) :
  count sep (a ++ b) = count sep a + count sep b.
Proof.
  induction a as [|c a IH]; simpl; [reflexivity|].
  destruct (Ascii.eqb c sep); simpl; now rewrite IH.
Qed.

Lemma count_free (sep : ascii) (g : list ascii) :
  ~ In sep g -> count sep g = 0.
Proof.
  induction g as [|c g IH]; simpl; intros H; [reflexivity|].
  destruct (Ascii.eqb c sep) eqn:E.
  - apply Ascii.eqb_eq in E. tauto.
  - apply IH. tauto.
Qed.

(** ** Job identifiers *)

Lemma is_hexchar_spec (c : ascii) : is_hexchar c = true <-> lower_hex_digit c.
Proof.
  unfold lower_hex_digit.
  destruct c as [[] [] [] [] [] [] [] []]; vm_compute;
    split; intros H; try reflexivity; try discriminate; try lia.
Qed.

Lemma hex_not_hyphen (g : list ascii) :
  Forall lower_hex_digit g -> ~ In "-"%char g.
Proof.
  intros H I. rewrite Forall_forall in H. apply H in I.
  unfold lower_hex_digit in I. vm_compute in I. lia.
Qed.

Lemma forallb_hex (g : list ascii) :
  forallb is_hexchar g = true <-> Forall lower_hex_digit g.
Proof.
  rewrite forallb_forall, Forall_forall.
  split; intros H c I; apply is_hexchar_spec; auto.
Qed.

Lemma check_hashes_id (id id' : string) (nvs : list (nat * list ascii)) :
  check_hashes id nvs = JobId id' -> id' = id.
Proof.
  induction nvs as [|[n v] r IH]; simpl.
  - congruence.
  - destruct (negb (List.length v =? n)); [discriminate|].
    destruct (forallb is_hexchar v); [exact IH|discriminate].
Qed.

Lemma check_hashes_ok (id : string) (nvs : list (nat * list ascii)) :
  check_hashes id nvs = JobId id <->
  Forall (fun nv => List.length (snd nv) = fst nv
                    /\ Forall lower_hex_digit (snd nv)) nvs.
Proof.
  induction nvs as [|[n v] r IH]; simpl.
  - split; auto.
  - destruct (List.length v =? n) eqn:L; simpl.
    + apply Nat.eqb_eq in L.
      destruct (forallb is_hexchar v) eqn:F.
      * apply forallb_hex in F. rewrite IH. split.
        -- intros H. constructor; auto.
        -- intros H. now inversion H.
      * split; [discriminate|]. intros H. inversion H as [|? ? [_ Hh] _]; subst.
        apply forallb_hex in Hh. simpl in Hh. congruence.
    + apply Nat.eqb_neq in L. split; [discriminate|].
      intros H. inversion H as [|? ? [Hl _] _]; subst. simpl in Hl. lia.
Qed.

Lemma validate_id_ok (cs : list ascii) :
  validate_id (str cs) = JobId (str cs) <-> uid_shape cs.
Proof.
  unfold validate_id, uid_shape. rewrite chars_str.
  destruct (List.length cs =? 36) eqn:L; simpl.
  2:{ apply Nat.eqb_neq in L. split; [discriminate|tauto]. }
  apply Nat.eqb_eq in L.
  destruct (count "-" cs =? 4) eqn:C; simpl.
  2:{ apply Nat.eqb_neq in C. split; [discriminate|tauto]. }
  apply Nat.eqb_eq in C.
  rewrite check_hashes_ok. split.
  - intros H. split; [exact L|]. split; [exact C|].
    pose proof (split_length "-" cs) as SL. rewrite C in SL.
    pose proof (join_split "-" cs) as J.
    destruct (split "-" cs) as [|g1 [|g2 [|g3 [|g4 [|g5 [|g6 r]]]]]];
      try discriminate.
    exists g1, g2, g3, g4, g5. simpl in H, J.
    repeat match goal with
           | H : Forall _ (_ :: _) |- _ => inversion H; clear H; subst
           end.
    simpl in *.
    repeat match goal with H : _ /\ _ |- _ => destruct H end.
    split; [now symmetry|].
    repeat (split; [assumption|]).
    repeat (apply Forall_app; split); assumption.
  - intros (_ & _ & g1 & g2 & g3 & g4 & g5 & E & L1 & L2 & L3 & L4 & L5 & F).
    repeat (apply Forall_app in F; destruct F as [? F]).
    subst cs.
    repeat (rewrite split_app by now apply hex_not_hyphen).
    rewrite split_free by now apply hex_not_hyphen.
    simpl. repeat constructor; simpl; auto.
Qed.

(** C2 (as amended).  A string is accepted exactly when, once the surrounding
    whitespace is stripped, it has 36 characters, 4 hyphens and five groups
    of 8, 4, 4, 4 and 12 digits among [0]-[9] and [a]-[f]; the identifier
    returned is the stripped string; every other string gives an error
    dictionary, so that the check returns on every string. *)
Theorem validate_jobid_hash_accepts_iff (s : string) :
  ((exists id, validate_jobid_hash (JStr s) = JobId id)
   <-> uid_shape (strip (chars s)))
  /\ (forall id, validate_jobid_hash (JStr s) = JobId id
                 -> id = str (strip (chars s)))
  /\ (~ uid_shape (strip (chars s))
      -> exists e, validate_jobid_hash (JStr s) = JobIdError e).
Proof.
  simpl. set (cs := strip (chars s)).
  assert (Hid : forall id, validate_id (str cs) = JobId id -> id = str cs).
  { unfold validate_id. intros id.
    destruct (_ || _); [discriminate|]. apply check_hashes_id. }
  split; [|split].
  - split.
    + intros [id H]. pose proof (Hid _ H); subst id.
      now apply validate_id_ok.
    + intros H. exists (str cs). now apply validate_id_ok.
  - exact Hid.
  - intros N. pose proof (validate_id_ok cs) as V.
    destruct (validate_id (str cs)) as [id|e] eqn:E.
    + exfalso. apply N. pose proof (Hid _ eq_refl); subst id.
      now apply V.
    + now exists e.
Qed.

Lemma validate_jobid_hash_accepts_iff_witness :
  (exists id, validate_jobid_hash (JStr sample_jobid) = JobId id)
  /\ ~ uid_shape (strip (chars "not-a-job-id"))
  /\ exists e, validate_jobid_hash (JStr "not-a-job-id") = JobIdError e.
Proof.
  assert (N : ~ uid_shape (strip (chars "not-a-job-id"))).
  { intros (L & _). vm_compute in L. discriminate. }
  split; [|split; [exact N|]].
  - apply (proj1 (validate_jobid_hash_accepts_iff sample_jobid)).
    split; [reflexivity|]. split; [reflexivity|].
    exists (chars "01234567"), (chars "89ab"), (chars "cdef"), (chars "0123"),
      (chars "456789abcdef").
    repeat (split; [reflexivity|]).
    apply forallb_hex. reflexivity.
  - apply (proj2 (proj2 (validate_jobid_hash_accepts_iff "not-a-job-id"))).
    exact N.
Defined.

(** C2 (as stated) fails: a string of 37 characters, an identifier after a
    space, is accepted, and the identifier returned is not that string. *)
Lemma jobid_with_whitespace_accepted :
  let s := String " " sample_jobid in
  validate_jobid_hash (JStr s) = JobId sample_jobid
  /\ String.length s <> 36
  /\ JobId sample_jobid <> JobId s.
Proof.
  repeat split; try reflexivity; vm_compute; discriminate.
Qed.

(** An identifier written with upper-case hex digits is rejected. *)
Example jobid_upper_case_rejected :
  validate_jobid_hash (JStr "01234567-89AB-CDEF-0123-456789ABCDEF")
  = JobIdError (HashWrongHexChar "01234567-89AB-CDEF-0123-456789ABCDEF" "89AB").
Proof. reflexivity. Qed.

(** ** The loop of [validate_circuit] *)

Lemma validate_entries_run (es : list value) :
  forall j vc up out upd,
    validate_entries j es vc up = Ok (Validated out upd) ->
    exists out' upd',
      out = vc ++ out' /\ upd = up ++ upd' /\ run j es out' upd'.
Proof.
  induction es as [|e es IH]; intros j vc up out upd; simpl.
  - destruct (List.length vc =? 0); intros H; inversion H; subst.
    exists [], []. rewrite !app_nil_r. repeat split. constructor.
  - destruct e; try discriminate.
    destruct (validate_entry j d) as [[|ops u|err]|] eqn:E; simpl;
      try discriminate; intros H; apply IH in H;
      destruct H as (out' & upd' & -> & -> & R).
    + exists out', upd'. repeat split. now apply run_skip.
    + exists (ops ++ out'), ((if u then [j] else []) ++ upd').
      rewrite !app_assoc. split; [reflexivity|]. split.
      * now destruct u; simpl; rewrite <- ?app_assoc.
      * now apply run_emit.
Qed.

Lemma run_validate_entries (j : nat) (es : list value) (out' : list out_op)
  (upd' : list nat) :
  run j es out' upd' ->
  forall rest vc up,
    validate_entries j (es ++ rest) vc up
    = validate_entries (j + List.length es) rest (vc ++ out') (up ++ upd').
Proof.
  induction 1 as [j|j entry es out upd E R IH|j entry es ops u out upd E R IH];
    intros rest vc up; simpl.
  - now rewrite !app_nil_r, Nat.add_0_r.
  - rewrite E. simpl. rewrite IH. f_equal. lia.
  - rewrite E. simpl. rewrite IH.
    replace (S j + List.length es) with (j + S (List.length es)) by lia.
    f_equal; [now rewrite app_assoc|].
    destruct u; simpl; now rewrite <- ?app_assoc.
Qed.

(** What a run says about the entry at position [i]. *)
Lemma run_nth (j : nat) (es : list value) (out : list out_op)
  (upd : list nat) :
  run j es out upd ->
  forall i v, nth_error es i = Some v ->
    exists entry, v = VDict entry
      /\ (validate_entry (j + i) entry = Ok Skip
          \/ exists ops u,
               validate_entry (j + i) entry = Ok (Emit ops u)
               /\ incl ops out /\ (u = true -> In (j + i) upd)).
Proof.
  induction 1 as [j|j entry es out upd E R IH|j entry es ops u out upd E R IH];
    intros i v N.
  - destruct i; discriminate.
  - destruct i as [|i]; simpl in N.
    + inversion N; subst. exists entry. rewrite Nat.add_0_r. auto.
    + replace (j + S i) with (S j + i) by lia. now apply IH.
  - destruct i as [|i]; simpl in N.
    + inversion N; subst. exists entry. rewrite Nat.add_0_r.
      split; [reflexivity|]. right. exists ops, u.
      split; [exact E|]. split; [now apply incl_appl, incl_refl|].
      intros ->. now left.
    + replace (j + S i) with (S j + i) by lia.
      destruct (IH _ _ N) as (e' & -> & [S|(ops' & u' & E' & I & U)]).
      * exists e'. auto.
      * exists e'. split; [reflexivity|]. right. exists ops', u'.
        split; [exact E'|]. split; [now apply incl_appr|].
        intros Hu. apply in_or_app. right. auto.
Qed.

(** Where an element of the output comes from. *)
Lemma run_out (j : nat) (es : list value) (out : list out_op)
  (upd : list nat) :
  run j es out upd ->
  forall op, In op out ->
    exists i entry ops u,
      nth_error es i = Some (VDict entry)
      /\ validate_entry (j + i) entry = Ok (Emit ops u)
      /\ In op ops /\ (u = true -> In (j + i) upd).
Proof.
  induction 1 as [j|j entry es out upd E R IH|j entry es ops u out upd E R IH];
    intros op I.
  - destruct I.
  - destruct (IH _ I) as (i & e' & ops' & u' & N & E' & I' & U).
    exists (S i), e', ops', u'.
    replace (j + S i) with (S j + i) by lia. auto.
  - apply in_app_or in I. destruct I as [I|I].
    + exists 0, entry, ops, u. rewrite Nat.add_0_r.
      repeat split; auto. intros ->. now left.
    + destruct (IH _ I) as (i & e' & ops' & u' & N & E' & I' & U).
      exists (S i), e', ops', u'.
      replace (j + S i) with (S j + i) by lia.
      repeat split; auto. intros Hu. apply in_or_app. right. auto.
Qed.

Lemma validate_circuit_run (c : list value) (out : list out_op)
  (upd : list nat) :
  validate_circuit (VList c) = Ok (Validated out upd) -> run 0 c out upd.
Proof.
  intros H. apply validate_entries_run in H.
  now destruct H as (out' & upd' & -> & -> & R).
Qed.

(** ** One entry *)

Lemma validate_entry_skip (j : nat) (entry : pydict) :
  validate_entry j entry = Ok Skip -> lookup "gate" entry = None.
Proof.
  unfold validate_entry. destruct (lookup "gate" entry) as [g|]; [|reflexivity].
  destruct (entry_targets entry) as [[t ft]|]; [|discriminate].
  destruct (entry_controls entry) as [c fc].
  destruct (negb (hashable g)); [discriminate|].
  destruct (gate_macro g) as [m|].
  - destruct (_ || _); [discriminate|].
    destruct (expand _ _); discriminate.
  - destruct (classify _ _ _ _ _) as [e|[[[g' t'] c'] []]]; discriminate.
Qed.

(** The two ways an entry is emitted: the expansion of a macro, or the
    reclassified entry, rebuilt or passed through. *)
Lemma validate_entry_emit (j : nat) (entry : pydict) (ops : list out_op)
  (u : bool) :
  validate_entry j entry = Ok (Emit ops u) ->
  exists mygate tgt ft,
    lookup "gate" entry = Some mygate
    /\ entry_targets entry = Some (tgt, ft)
    /\ hashable mygate = true
    /\ ((exists m circs,
           gate_macro mygate = Some m
           /\ List.length (m_targets m) = List.length tgt
           /\ List.length (m_controls m)
              = List.length (fst (entry_controls entry))
           /\ expand (tgt ++ fst (entry_controls entry)) (m_body m) = Ok circs
           /\ ops = map (OutOp j false) circs /\ u = true)
        \/ (gate_macro mygate = None
            /\ exists g' t' c' f',
                 classify j mygate tgt (fst (entry_controls entry))
                   (ft || snd (entry_controls entry)
                    || scalar_under "parameters" entry
                    || scalar_under "rotations" entry)
                 = inr (g', t', c', f')
                 /\ ((f' = true /\ ops = [OutOp j false (rebuilt g' t' c')]
                      /\ u = true)
                     \/ (f' = false /\ ops = [OutOp j true entry]
                         /\ u = false)))).
Proof.
  unfold validate_entry. destruct (lookup "gate" entry) as [g|]; [|discriminate].
  destruct (entry_targets entry) as [[t ft]|]; [|discriminate].
  destruct (entry_controls entry) as [c fc]. simpl.
  destruct (hashable g) eqn:Hh; [|discriminate]. simpl.
  intros H. exists g, t, ft. repeat (split; [reflexivity || assumption|]).
  destruct (gate_macro g) as [m|].
  - left. destruct (List.length (m_targets m) =? List.length t) eqn:L1;
      [|discriminate].
    destruct (List.length (m_controls m) =? List.length c) eqn:L2;
      [|discriminate].
    simpl in H. apply Nat.eqb_eq in L1, L2.
    destruct (expand (t ++ c) (m_body m)) as [circs|] eqn:X; [|discriminate].
    simpl in H. inversion H; subst. exists m, circs. repeat split; auto.
  - right. split; [reflexivity|].
    destruct (classify _ _ _ _ _) as [e|[[[g' t'] c'] f']]; [discriminate|].
    exists g', t', c', f'. split; [reflexivity|].
    destruct f'; inversion H; subst; auto.
Qed.

Lemma validate_entry_index (j : nat) (entry : pydict) (ops : list out_op)
  (u : bool) (op : out_op) :
  validate_entry j entry = Ok (Emit ops u) -> In op ops -> op_index op = j.
Proof.
  intros H I. apply validate_entry_emit in H.
  destruct H as (g & t & ft & _ & _ & _ & [(m & circs & _ & _ & _ & _ & -> & _)
    |(_ & g' & t' & c' & f' & _ & [(_ & -> & _)|(_ & -> & _)])]).
  - apply in_map_iff in I. now destruct I as (r & <- & _).
  - destruct I as [<-|[]]. reflexivity.
  - destruct I as [<-|[]]. reflexivity.
Qed.

Lemma classify_keeps_flag (j : nat) (g : value) (t c : list value)
  (g' : value) (t' c' : list value) (f' : bool) :
  classify j g t c true = inr (g', t', c', f') -> f' = true.
Proof.
  unfold classify.
  repeat match goal with
         | |- context [if ?b then _ else _] => destruct b
         end; intros H; inversion H; reflexivity.
Qed.

Lemma shape_flag (singular plural : string) (entry : pydict) (l : list value)
  (f : bool) :
  shape singular plural entry = Some (l, f) ->
  f = holds_list singular entry
      || (negb (in_keys singular entry) && scalar_under plural entry).
Proof.
  unfold shape, holds_list, in_keys, scalar_under.
  destruct (lookup singular entry) as [[]|];
    try (intros H; inversion H; reflexivity).
  destruct (lookup plural entry) as [[]|];
    intros H; inversion H; reflexivity.
Qed.

Lemma shape_mismatch_flag (entry : pydict) (tgt : list value) (ft : bool) :
  entry_targets entry = Some (tgt, ft) ->
  shape_mismatch entry = true ->
  ft || snd (entry_controls entry) = true.
Proof.
  unfold entry_targets, entry_controls, shape_mismatch. intros T M.
  apply shape_flag in T. rewrite T.
  destruct (shape "control" "controls" entry) as [[c fc]|] eqn:C.
  - apply shape_flag in C. simpl. rewrite C.
    now rewrite <- !orb_assoc in *.
  - simpl. rewrite orb_false_r.
    unfold shape, holds_list, in_keys, scalar_under in *.
    destruct (lookup "control" entry) as [[]|]; try discriminate.
    destruct (lookup "controls" entry) as [[]|]; try discriminate.
    simpl in M. now rewrite !orb_false_r in M.
Qed.

(** ** Arity of the validated operations *)

(** C3 (not met by the code).  A [swap] on three targets is validated as it
    is: the uncontrolled class is entered with more than one target, and
    neither the number of targets nor the controls are looked at again. *)
Theorem validate_swap_three_targets :
  let entry := [("gate", VStr "swap"); ("targets", qubits [0; 1; 2])] in
  validate_circuit (VList [VDict entry])
  = Ok (Validated [OutOp 0 true entry] [])
  /\ canonical TwoQubitUncontrolled "swap"
  /\ ~ arity_ok TwoQubitUncontrolled 3 0.
Proof.
  split; [reflexivity|]. split.
  - exists "swap". simpl. auto.
  - simpl. lia.
Qed.

(** An uncontrolled gate keeps a control it is given, and a one-qubit gate
    is validated on no target at all. *)
Example validate_swap_with_control :
  let entry := [("gate", VStr "swap"); ("targets", qubits [0; 1]);
                ("controls", qubits [2])] in
  validate_circuit (VList [VDict entry]) = Ok (Validated [OutOp 0 true entry] []).
Proof. reflexivity. Qed.

Example validate_h_no_target :
  let entry := [("gate", VStr "h"); ("targets", qubits [])] in
  validate_circuit (VList [VDict entry]) = Ok (Validated [OutOp 0 true entry] []).
Proof. reflexivity. Qed.

(** ** Macro gates *)

Lemma gate_macro_hashable (g : value) (m : macro) :
  gate_macro g = Some m -> hashable g = true.
Proof. destruct g; simpl; congruence. Qed.

Lemma special_entry_stops (j : nat) (entry : pydict) (mygate : value)
  (m : macro) (tgt_vals : list value) (flg : bool) :
  lookup "gate" entry = Some mygate ->
  gate_macro mygate = Some m ->
  entry_targets entry = Some (tgt_vals, flg) ->
  List.length tgt_vals <> List.length (m_targets m)
  \/ List.length (fst (entry_controls entry)) <> List.length (m_controls m) ->
  validate_entry j entry = Ok (Stop (SpecialArity j mygate)).
Proof.
  intros G M T A. unfold validate_entry. rewrite G, T.
  destruct (entry_controls entry) as [c fc]. simpl in A.
  rewrite (gate_macro_hashable _ _ M), M. simpl.
  destruct (List.length (m_targets m) =? List.length tgt_vals) eqn:L1;
    [|reflexivity].
  destruct (List.length (m_controls m) =? List.length c) eqn:L2;
    [|reflexivity].
  apply Nat.eqb_eq in L1, L2. lia.
Qed.

(** C6.  An entry that names a macro gate with a number of targets or of
    controls other than the declared one is never part of a validated
    circuit: whatever surrounds it, no validated list is returned, and when
    the entries before it go through, the error returned names the gate and
    the index of the entry. *)
Theorem special_arity_mismatch_fails (pre post : list value) (entry : pydict)
  (mygate : value) (m : macro) (tgt_vals : list value) (flg : bool) :
  lookup "gate" entry = Some mygate ->
  gate_macro mygate = Some m ->
  entry_targets entry = Some (tgt_vals, flg) ->
  List.length tgt_vals <> List.length (m_targets m)
  \/ List.length (fst (entry_controls entry)) <> List.length (m_controls m) ->
  (forall out upd,
     validate_circuit (VList (pre ++ VDict entry :: post))
     <> Ok (Validated out upd))
  /\ (forall out upd,
        run 0 pre out upd ->
        validate_circuit (VList (pre ++ VDict entry :: post))
        = Ok (Invalid (SpecialArity (List.length pre) mygate))).
Proof.
  intros G M T A.
  pose proof (fun j => special_entry_stops j _ _ _ _ _ G M T A) as S.
  split.
  - intros out upd H. apply validate_circuit_run in H.
    destruct (run_nth _ _ _ _ H (List.length pre) (VDict entry))
      as (e & E & [K|(ops & u & K & _)]).
    + now rewrite nth_error_app2, Nat.sub_diag by lia.
    + inversion E; subst e. rewrite S in K. discriminate.
    + inversion E; subst e. rewrite S in K. discriminate.
  - intros out upd R. unfold validate_circuit.
    rewrite (run_validate_entries _ _ _ _ R). simpl. now rewrite S.
Qed.

Lemma special_arity_mismatch_fails_witness :
  validate_circuit
    (VList [VDict [("gate", VStr "h"); ("target", qubit 0)];
            VDict [("gate", VStr "sswap"); ("targets", qubits [0])];
            VDict [("gate", VStr "x"); ("target", qubit 1)]])
  = Ok (Invalid (SpecialArity 1 (VStr "sswap"))).
Proof.
  set (h := [("gate", VStr "h"); ("target", qubit 0)]).
  set (e := [("gate", VStr "sswap"); ("targets", qubits [0])]).
  set (x := [("gate", VStr "x"); ("target", qubit 1)]).
  refine (proj2 (special_arity_mismatch_fails [VDict h] [VDict x] e
                   (VStr "sswap") (Macro [0; 1] [] [] _) [qubit 0] false
                   eq_refl eq_refl eq_refl _) [OutOp 0 true h] [] _).
  - left. simpl. discriminate.
  - apply (run_emit 0 h [] [OutOp 0 true h] false [] []).
    + reflexivity.
    + constructor.
Defined.

(** ** Shape changes *)

(** C7 (as amended).  The entry of the scenario is rebuilt with list-valued
    [targets] and [controls] and its index is recorded; and in every
    validated circuit, an entry with a list under [target] or [control], or
    with a scalar under the [targets] or [controls] key that is read, has
    its index in [updated_entries]. *)
Theorem shape_mismatch_recorded :
  validate_circuit
    (VList [VDict [("gate", VStr "x"); ("target", qubits [1]);
                   ("control", qubit 0)]])
  = Ok (Validated
          [OutOp 0 false [("gate", VStr "x"); ("targets", qubits [1]);
                          ("controls", qubits [0])]]
          [0])
  /\ forall (c : list value) (out : list out_op) (upd : list nat) (j : nat)
       (entry : pydict),
       validate_circuit (VList c) = Ok (Validated out upd) ->
       nth_error c j = Some (VDict entry) ->
       in_keys "gate" entry = true ->
       shape_mismatch entry = true ->
       In j upd.
Proof.
  split; [reflexivity|].
  intros c out upd j entry V N G M. apply validate_circuit_run in V.
  destruct (run_nth _ _ _ _ V _ _ N) as (e & E & [K|(ops & u & K & _ & U)]);
    inversion E; subst e; simpl in *.
  - apply validate_entry_skip in K. unfold in_keys in G. rewrite K in G.
    discriminate.
  - apply U. apply validate_entry_emit in K.
    destruct K as (g & t & ft & _ & T & _ & [(m & circs & _ & _ & _ & _ & _ & Hu)
      |(_ & g' & t' & c' & f' & C & [(_ & _ & Hu)|(F & _ & _)])]); auto.
    subst f'. rewrite (shape_mismatch_flag _ _ _ T M) in C. simpl in C.
    now apply classify_keeps_flag in C.
Qed.

Lemma shape_mismatch_recorded_witness :
  let h := [("gate", VStr "h"); ("target", qubit 0)] in
  let e := [("gate", VStr "x"); ("target", qubit 1); ("controls", qubit 0)] in
  let out := [OutOp 0 true h;
              OutOp 1 false [("gate", VStr "x"); ("targets", qubits [1]);
                             ("controls", qubits [0])]] in
  validate_circuit (VList [VDict h; VDict e]) = Ok (Validated out [1])
  /\ shape_mismatch e = true
  /\ In 1 [1].
Proof.
  intros h e out. split; [reflexivity|]. split; [reflexivity|].
  exact (proj2 shape_mismatch_recorded [VDict h; VDict e] out [1] 1 e
           eq_refl eq_refl eq_refl eq_refl).
Defined.

(** C7 (as stated) fails: a scalar target and a scalar control are read as
    the lists [[1]] and [[0]], the entry is passed on as it is and no index
    is recorded. *)
Lemma scalar_shape_not_recorded :
  let entry := [("gate", VStr "x"); ("target", qubit 1); ("control", qubit 0)] in
  entry_targets entry = Some ([qubit 1], false)
  /\ entry_controls entry = ([qubit 0], false)
  /\ validate_circuit (VList [VDict entry])
     = Ok (Validated [OutOp 0 true entry] []).
Proof. repeat split. Qed.

(** ** Rebuilt records *)

(** C10.  In a validated circuit, an operation that was rebuilt from an
    entry whose gate is not a macro has the keys [gate] and [targets], and
    [controls] when there are controls, and nothing else: whatever the entry
    held under [parameters], [parameter], [rotations] or [rotation] is
    gone; and the index of the entry is recorded. *)
Theorem rewritten_record_keys (c : list value) (out : list out_op)
  (upd : list nat) (op : out_op) (entry : pydict) (mygate : value) :
  validate_circuit (VList c) = Ok (Validated out upd) ->
  In op out ->
  nth_error c (op_index op) = Some (VDict entry) ->
  lookup "gate" entry = Some mygate ->
  gate_macro mygate = None ->
  op_same op = false ->
  In (op_index op) upd
  /\ (exists g tgt,
        op_record op = [("gate", g); ("targets", VList tgt)]
        \/ exists ctl,
             ctl <> []
             /\ op_record op
                = [("gate", g); ("targets", VList tgt); ("controls", VList ctl)])
  /\ lookup "parameters" (op_record op) = None
  /\ lookup "parameter" (op_record op) = None
  /\ lookup "rotations" (op_record op) = None
  /\ lookup "rotation" (op_record op) = None.
Proof.
  intros V I N G M S. apply validate_circuit_run in V.
  destruct (run_out _ _ _ _ V _ I) as (i & e & ops & u & N' & K & I' & U).
  simpl in K, U. pose proof (validate_entry_index _ _ _ _ _ K I') as X.
  rewrite X in *. rewrite N' in N. inversion N; subst e.
  apply validate_entry_emit in K.
  destruct K as (g & t & ft & G' & _ & _ & [(m & circs & M' & _)
    |(_ & g' & t' & c' & f' & _ & [(_ & -> & ->)|(_ & -> & _)])]).
  - rewrite G in G'. inversion G'; subst g. congruence.
  - destruct I' as [<-|[]]. split; [auto|]. unfold rebuilt. simpl.
    destruct c' as [|q c']; simpl; repeat split; exists g', t'; auto.
    right. exists (q :: c'). split; [discriminate|reflexivity].
  - destruct I' as [<-|[]]. discriminate.
Qed.

Lemma rewritten_record_keys_witness :
  let e := [("gate", VStr "rz"); ("targets", qubit 0);
            ("rotation", VFloat half_pi)] in
  let op := OutOp 0 false [("gate", VStr "rz"); ("targets", qubits [0])] in
  validate_circuit (VList [VDict e]) = Ok (Validated [op] [0])
  /\ In 0 [0]
  /\ lookup "rotation" (op_record op) = None.
Proof.
  intros e op. split; [reflexivity|].
  pose proof (rewritten_record_keys [VDict e] [op] [0] op e (VStr "rz")
                eq_refl (or_introl eq_refl) eq_refl eq_refl eq_refl eq_refl)
    as (U & _ & _ & _ & _ & R).
  exact (conj U R).
Defined.

(** ** Entries that pass through *)

Lemma in_values_In (g : string) (tbl : list (string * string)) :
  in_values g tbl = true <-> exists k, In (k, g) tbl.
Proof.
  unfold in_values. rewrite existsb_exists. split.
  - intros ([k v] & I & E). apply String.eqb_eq in E. simpl in E. subst v.
    now exists k.
  - intros (k & I). exists (k, g). split; [exact I|apply String.eqb_refl].
Qed.

Lemma lookup_In {A : Type} (k : string) (d : list (string * A)) (a : A) :
  lookup k d = Some a -> In (k, a) d.
Proof.
  induction d as [|[k' v] d IH]; simpl; [discriminate|].
  destruct (String.eqb k k') eqn:E.
  - apply String.eqb_eq in E. intros H. inversion H; subst. now left.
  - intros H. right. auto.
Qed.





(** ** Re-validation *)

Lemma remap_spec (g : value) (tbl : list (string * string)) :
  gate_in_keys g tbl = true ->
  exists s s', g = VStr s /\ gate_remap g tbl = VStr s'
               /\ in_values s' tbl = true.
Proof.
  destruct g; simpl; try discriminate. unfold in_keys.
  destruct (lookup s tbl) as [s'|] eqn:L; [|discriminate].
  intros _. exists s, s'. repeat split. apply in_values_In. exists s.
  now apply lookup_In.
Qed.












(** ** The emission loop *)

Lemma bind_ok {A B : Type} (r : result A) (k : A -> result B) (b : B) :
  (x <- r ;; k x) = Ok b -> exists a, r = Ok a /\ k a = Ok b.
Proof. destruct r; simpl; [eauto|discriminate]. Qed.

Lemma store_append_length (st : list (list nat)) (r x : nat) :
  List.length (store_append st r x) = List.length st.
Proof.
  revert r. induction st as [|l st IH]; intros [|r]; simpl; auto.
Qed.

Lemma ref_ok_mono (n m : nat) (e : emitted) :
  n <= m -> ref_ok n e -> ref_ok m e.
Proof. destruct e; simpl; lia. Qed.

Lemma rebind_refs_ok (qname : list (string * nat)) (qval : list string)
  (st st' : emit_state) :
  rebind qname qval st = Ok st' -> refs_ok st -> refs_ok st'.
Proof.
  unfold rebind. destruct (in_keys _ _); [|now intros [= <-]].
  intros H. apply bind_ok in H. destruct H as (t & _ & H).
  apply bind_ok in H. destruct H as (cs & _ & H). inversion H; subst; clear H.
  intros (C & _ & _). unfold refs_ok. simpl. rewrite length_app. simpl.
  repeat split.
  - eapply Forall_impl; [|exact C]. intros e. apply ref_ok_mono. lia.
  - intros r [= <-]. lia.
  - intros r [= <-]. lia.
Qed.

Lemma rebind_circ (qname : list (string * nat)) (qval : list string)
  (st st' : emit_state) :
  rebind qname qval st = Ok st' ->
  circ st' = circ st
  /\ exists more, store st' = store st ++ more.
Proof.
  unfold rebind. destruct (in_keys _ _).
  - intros H. apply bind_ok in H. destruct H as (t & _ & H).
    apply bind_ok in H. destruct H as (cs & _ & H). inversion H; subst.
    simpl. eauto.
  - intros [= <-]. split; [reflexivity|]. exists []. now rewrite app_nil_r.
Qed.

Lemma emit_step_refs_ok (qname : list (string * nat)) (line : string)
  (st st' : emit_state) :
  emit_step qname line st = Ok st' -> refs_ok st -> refs_ok st'.
Proof.
  unfold emit_step.
  destruct (lookup _ gates_1q) as [g|].
  { intros H. apply bind_ok in H. destruct H as (v1 & _ & H).
    apply bind_ok in H. destruct H as (t & _ & H). inversion H; subst.
    intros (C & T & K). unfold refs_ok. simpl. repeat split; auto.
    apply Forall_app. split; [exact C|]. repeat constructor. }
  intros H. apply bind_ok in H. destruct H as (v1 & _ & H).
  apply bind_ok in H. destruct H as (st1 & R & H).
  intros W. pose proof (rebind_refs_ok _ _ _ _ R W) as (C & T & K).
  destruct (lookup _ gates_2q_noctl) as [g|].
  { apply bind_ok in H. destruct H as (r & B & H).
    apply bind_ok in H. destruct H as (q0 & _ & H). inversion H; subst.
    unfold refs_ok. simpl. rewrite store_append_length.
    destruct (qtgt st1) as [r'|] eqn:Q; [|discriminate].
    inversion B; subst r'. repeat split; auto.
    apply Forall_app. split; [exact C|]. repeat constructor. simpl. auto. }
  assert (X : forall g,
             (t <- bound (qtgt st1) ;; c <- bound (qctl st1) ;;
              Ok (EmitState (store st1) (circ st1 ++ [EmitCtl g t c])
                    (qtgt st1) (qctl st1))) = Ok st' -> refs_ok st').
  { intros g H'. apply bind_ok in H'. destruct H' as (t & B1 & H').
    apply bind_ok in H'. destruct H' as (c & B2 & H'). inversion H'; subst.
    unfold refs_ok. simpl.
    destruct (qtgt st1) as [t'|] eqn:Q1; [|discriminate].
    destruct (qctl st1) as [c'|] eqn:Q2; [|discriminate].
    inversion B1; inversion B2; subst. repeat split; auto.
    apply Forall_app. split; [exact C|]. repeat constructor; simpl; auto. }
  destruct (lookup _ gates_2q_ctl) as [g|]; [now apply (X g)|].
  destruct (lookup _ gates_mq) as [g|]; [now apply (X g)|].
  inversion H; subst. repeat split; auto.
Qed.

Lemma emit_loop_refs_ok (qname : list (string * nat)) (qc_list : list string) :
  forall st st',
    emit_loop qname qc_list st = Ok st' -> refs_ok st -> refs_ok st'.
Proof.
  induction qc_list as [|line rest IH]; intros st st'; simpl.
  - now intros [= <-].
  - intros H. apply bind_ok in H. destruct H as (st1 & E & H).
    intros W. eapply IH; [exact H|]. eapply emit_step_refs_ok; eauto.
Qed.

Lemma emit_loop_app (qname : list (string * nat)) (a b : list string) :
  forall st,
    emit_loop qname (a ++ b) st
    = (st' <- emit_loop qname a st ;; emit_loop qname b st').
Proof.
  induction a as [|line a IH]; intros st; simpl; [reflexivity|].
  destruct (emit_step qname line st); simpl; auto.
Qed.

Lemma render_more (st : list (list nat)) (more : list (list nat))
  (c : list emitted) :
  Forall (ref_ok (List.length st)) c ->
  map (render_op (st ++ more)) c = map (render_op st) c.
Proof.
  intros F. apply map_ext_in. intros e I. rewrite Forall_forall in F.
  apply F in I. unfold render_op, deref.
  destruct e; simpl in I; rewrite ?app_nth1 by lia; reflexivity.
Qed.

Lemma getitems_ok {A : Type} (d : list (string * A)) (ks : list string) :
  Forall (fun k => in_keys k d = true) ks -> exists l, getitems d ks = Ok l.
Proof.
  induction 1 as [|k ks H F [l IH]]; simpl; [eauto|].
  unfold getitem, in_keys in *. destruct (lookup k d); [|discriminate].
  simpl. rewrite IH. simpl. eauto.
Qed.

Lemma Forall_removelast {A : Type} (P : A -> Prop) (l : list A) :
  Forall P l -> Forall P (removelast l).
Proof.
  induction 1 as [|a l H F IH]; simpl; [constructor|].
  destruct l; [constructor|]. constructor; auto.
Qed.

Lemma rebind_ok (qname : list (string * nat)) (qval : list string)
  (st : emit_state) :
  Forall (fun q => in_keys q qname = true) qval ->
  exists st', rebind qname qval st = Ok st'.
Proof.
  intros F. unfold rebind. destruct (in_keys _ _) eqn:K; [|eauto].
  unfold getitem, in_keys in *.
  destruct (lookup (last qval "") qname); [|discriminate]. simpl.
  destruct (getitems_ok qname _ (Forall_removelast _ _ F)) as [l ->].
  simpl. eauto.
Qed.

Lemma not_in_keys {A : Type} (k : string) (d : list (string * A)) :
  negb (in_keys k d) = true -> lookup k d = None.
Proof. unfold in_keys. now destruct (lookup k d). Qed.

(** C5 (as amended).  At any point of a translation, a statement whose
    mnemonic is in none of the tables and whose operands resolve is
    processed without failure and emits nothing: the circuit after it is
    the circuit before it.  In particular, adding such a statement at the
    end of a program that translates leaves the circuit as it was. *)
Theorem unknown_mnemonic_dropped (qname : list (string * nat))
  (pre : list string) (line : string) :
  unknown_mnemonic line = true ->
  operands_resolve qname line ->
  (forall st,
     emit_loop qname pre emit_init = Ok st ->
     exists st',
       emit_step qname line st = Ok st'
       /\ circ st' = circ st /\ render st' = render st)
  /\ (forall circuit,
        translate_circuit qname pre = Ok circuit ->
        translate_circuit qname (pre ++ [line]) = Ok circuit).
Proof.
  intros U (ops & N & F).
  assert (Step : forall st,
             emit_loop qname pre emit_init = Ok st ->
             exists st',
               emit_step qname line st = Ok st'
               /\ circ st' = circ st /\ render st' = render st).
  { intros st L.
    assert (W : refs_ok emit_init)
      by (repeat split; [constructor|discriminate|discriminate]).
    pose proof (emit_loop_refs_ok _ _ _ _ L W) as (C & _ & _).
    unfold unknown_mnemonic, mnemonic in U.
    apply andb_prop in U. destruct U as [U U4].
    apply andb_prop in U. destruct U as [U U3].
    apply andb_prop in U. destruct U as [U1 U2].
    apply not_in_keys in U1, U2, U3, U4.
    destruct (rebind_ok qname (words "," ops) st F) as [st1 R].
    exists st1. unfold emit_step, item. rewrite U1, N. cbn [bind].
    rewrite R. cbn [bind]. rewrite U2, U3, U4.
    destruct (rebind_circ _ _ _ _ R) as (E & more & M).
    repeat split; auto. unfold render. rewrite E, M.
    now apply render_more. }
  split; [exact Step|].
  intros circuit. unfold translate_circuit.
  destruct (0 <? List.length qname); [|auto].
  rewrite emit_loop_app.
  destruct (emit_loop qname pre emit_init) as [st|] eqn:L; [|discriminate].
  simpl. intros [= <-].
  destruct (Step st eq_refl) as (st' & -> & _ & E). simpl. now rewrite E.
Qed.

Lemma unknown_mnemonic_dropped_witness :
  translate_circuit two_qubits ["h q[0]"; "cx q[0],q[1]"; "foo q[0],q[1]"]
  = Ok [[("gate", VStr "h"); ("target", qubit 0)];
        [("gate", VStr "x"); ("targets", qubits [1]); ("controls", qubits [0])]].
Proof.
  refine (proj2 (unknown_mnemonic_dropped two_qubits
                   ["h q[0]"; "cx q[0],q[1]"] "foo q[0],q[1]" eq_refl _)
            _ eq_refl).
  exists "q[0],q[1]". split; [reflexivity|]. repeat constructor.
Defined.

(** C5 (as stated) fails: the statement [foo q[0]] is in no table, the
    translation succeeds, and no operation of the circuit carries [foo]:
    the circuit is empty. *)
Lemma unknown_mnemonic_not_passed_through :
  unknown_mnemonic "foo q[0]" = true
  /\ translate_circuit two_qubits ["foo q[0]"] = Ok []
  /\ ~ passed_through "foo q[0]" [].
Proof.
  repeat split. intros (r & [] & _).
Qed.

(** ** Binary64 numbers

    The facts about binary64 numbers that the reading of the histogram
    rests on: valid numbers compare as their exact values do. *)

#[local] Set Warnings "-inexact-float".

Lemma digits2_pos_bounds (m : positive) :
  (2 ^ (Zpos (digits2_pos m) - 1) <= Zpos m < 2 ^ Zpos (digits2_pos m))%Z.
Proof.
  induction m as [p IH|p IH|]; cbn [digits2_pos].
  - rewrite Pos2Z.inj_succ.
    replace (Z.succ (Zpos (digits2_pos p)) - 1)%Z
      with (Z.succ (Zpos (digits2_pos p) - 1))%Z by lia.
    rewrite !Z.pow_succ_r by lia. lia.
  - rewrite Pos2Z.inj_succ.
    replace (Z.succ (Zpos (digits2_pos p)) - 1)%Z
      with (Z.succ (Zpos (digits2_pos p) - 1))%Z by lia.
    rewrite !Z.pow_succ_r by lia. lia.
  - simpl. lia.
Qed.

(** What validity says of the mantissa and exponent of a binary64 value. *)
Lemma bounded_spec (m : positive) (e : Z) :
  bounded prec emax m e = true ->
  (- 1074 <= e <= 971)%Z
  /\ (Zpos m < 2 ^ 53)%Z
  /\ ((- 1074 < e)%Z -> (2 ^ 52 <= Zpos m)%Z).
Proof.
  unfold bounded, canonical_mantissa, fexp, emin, prec, emax.
  intros H. apply andb_prop in H. destruct H as [C B].
  apply Z.eqb_eq in C. apply Z.leb_le in B.
  pose proof (digits2_pos_bounds m) as [L U].
  set (d := Zpos (digits2_pos m)) in *.
  assert (D : (0 < d)%Z) by (subst d; lia).
  assert (d <= 53 /\ (- 1074 < e -> d = 53))%Z as [D1 D2] by lia.
  split; [lia|]. split.
  - apply Z.lt_le_trans with (1 := U). apply Z.pow_le_mono_r; lia.
  - intros E. rewrite (D2 E) in L. exact L.
Qed.

Lemma valid_finite (f : float) (s : bool) (m : positive) (e : Z) :
  Prim2SF f = S754_finite s m e -> bounded prec emax m e = true.
Proof.
  intros H. pose proof (Prim2SF_valid f) as V. now rewrite H in V.
Qed.

Lemma scaled_pos (m : positive) (e : Z) :
  (- 1074 <= e)%Z -> (0 < scaled m e)%Z.
Proof.
  intros E. unfold scaled.
  assert (0 < 2 ^ (e + 1074))%Z by (apply Z.pow_pos_nonneg; lia). lia.
Qed.

Lemma compare_mul_pos (a b p : Z) :
  (0 < p)%Z -> (a * p ?= b * p)%Z = (a ?= b)%Z.
Proof.
  intros P. destruct (Z.compare_spec a b) as [E|E|E].
  - subst. apply Z.compare_refl.
  - apply Z.compare_lt_iff. nia.
  - apply Z.compare_gt_iff. nia.
Qed.

Lemma mantissa_step (a b c p q : Z) :
  (0 <= c)%Z -> (a < 2 * c)%Z -> (c <= b)%Z -> (0 < p)%Z -> (2 <= q)%Z ->
  (a * p < b * (p * q))%Z.
Proof.
  intros C A B P Q.
  assert (a * p < 2 * c * p)%Z by nia.
  assert (2 * c * p <= 2 * b * p)%Z by nia.
  assert (0 <= b * p)%Z by nia.
  assert (2 * (b * p) <= q * (b * p))%Z by nia.
  lia.
Qed.

(** Valid positive numbers compare as their values do. *)
Lemma SFcompare_scaled (m1 m2 : positive) (e1 e2 : Z) :
  bounded prec emax m1 e1 = true -> bounded prec emax m2 e2 = true ->
  SFcompare (S754_finite false m1 e1) (S754_finite false m2 e2)
  = Some (scaled m1 e1 ?= scaled m2 e2)%Z.
Proof.
  intros B1 B2.
  apply bounded_spec in B1. destruct B1 as (R1 & U1 & N1).
  apply bounded_spec in B2. destruct B2 as (R2 & U2 & N2).
  cbn [SFcompare]. f_equal. unfold scaled.
  destruct (Z.compare_spec e1 e2) as [E|E|E].
  - subst e2. rewrite Pos.compare_cont_spec.
    rewrite compare_mul_pos by (apply Z.pow_pos_nonneg; lia).
    change (Z.pos m1 ?= Z.pos m2)%Z with (m1 ?= m2)%positive.
    now destruct (m1 ?= m2)%positive.
  - symmetry. apply Z.compare_lt_iff.
    replace (e2 + 1074)%Z with ((e1 + 1074) + (e2 - e1))%Z by lia.
    rewrite (Z.pow_add_r 2 (e1 + 1074) (e2 - e1)) by lia.
    assert (P : (0 < 2 ^ (e1 + 1074))%Z) by (apply Z.pow_pos_nonneg; lia).
    assert (Q : (2 <= 2 ^ (e2 - e1))%Z).
    { change 2%Z with (2 ^ 1)%Z at 1. apply Z.pow_le_mono_r; lia. }
    specialize (N2 ltac:(lia)).
    change (2 ^ 53)%Z with (2 * 2 ^ 52)%Z in U1.
    apply (mantissa_step (Zpos m1) (Zpos m2) (2 ^ 52)); lia.
  - symmetry. apply Z.compare_gt_iff.
    replace (e1 + 1074)%Z with ((e2 + 1074) + (e1 - e2))%Z by lia.
    rewrite (Z.pow_add_r 2 (e2 + 1074) (e1 - e2)) by lia.
    assert (P : (0 < 2 ^ (e2 + 1074))%Z) by (apply Z.pow_pos_nonneg; lia).
    assert (Q : (2 <= 2 ^ (e1 - e2))%Z).
    { change 2%Z with (2 ^ 1)%Z at 1. apply Z.pow_le_mono_r; lia. }
    specialize (N1 ltac:(lia)).
    change (2 ^ 53)%Z with (2 * 2 ^ 52)%Z in U2.
    apply (mantissa_step (Zpos m2) (Zpos m1) (2 ^ 52)); lia.
Qed.

Lemma scale_lt (x y d : Z) : (0 < d)%Z -> (x < y <-> x * d < y * d)%Z.
Proof. intros D. split; intros H; nia. Qed.

(** The value of a valid positive number against a rational [a / 2^k]. *)
Lemma value_scaled (m : positive) (e : Z) (q : Q) (a : Z) (k : positive) :
  (- 1074 <= e)%Z -> (Zpos k <= 1074)%Z ->
  SF_value (S754_finite false m e) = Some q ->
  ((a # 2 ^ k < q)%Q <-> (a * 2 ^ (1074 - Zpos k) < scaled m e)%Z)
  /\ ((q < a # 2 ^ k)%Q <-> (scaled m e < a * 2 ^ (1074 - Zpos k))%Z).
Proof.
  intros E K V. cbn [SF_value cond_Zopp] in V. unfold scaled.
  assert (PK : (0 < 2 ^ Zpos k)%Z) by (apply Z.pow_pos_nonneg; lia).
  assert (PD : (0 < 2 ^ (1074 - Zpos k))%Z) by (apply Z.pow_pos_nonneg; lia).
  assert (S : (2 ^ 1074 = 2 ^ (1074 - Zpos k) * 2 ^ Zpos k)%Z).
  { rewrite <- Z.pow_add_r by lia. f_equal. lia. }
  destruct (0 <=? e)%Z eqn:Z0.
  - apply Z.leb_le in Z0. inversion V; subst q; clear V.
    unfold Qlt. cbn [Qnum Qden inject_Z]. rewrite Pos2Z.inj_pow.
    rewrite (Z.pow_add_r 2 e 1074), S by lia.
    set (D := (2 ^ (1074 - Zpos k))%Z) in *.
    set (P := (2 ^ Zpos k)%Z) in *. set (X := (2 ^ e)%Z).
    split.
    + rewrite (scale_lt (a * 1) (Zpos m * X * P) D PD).
      split; intros H; lia.
    + rewrite (scale_lt (Zpos m * X * P) (a * 1) D PD).
      split; intros H; lia.
  - apply Z.leb_gt in Z0. inversion V; subst q; clear V.
    unfold Qlt. cbn [Qnum Qden]. rewrite !Pos2Z.inj_pow, Z2Pos.id by lia.
    assert (PS : (0 < 2 ^ (e + 1074))%Z) by (apply Z.pow_pos_nonneg; lia).
    assert (T : (2 ^ 1074 = 2 ^ (e + 1074) * 2 ^ (- e))%Z).
    { rewrite <- Z.pow_add_r by lia. f_equal. lia. }
    rewrite S in T.
    set (D := (2 ^ (1074 - Zpos k))%Z) in *.
    set (P := (2 ^ Zpos k)%Z) in *. set (X := (2 ^ (- e))%Z) in *.
    set (Y := (2 ^ (e + 1074))%Z) in *.
    assert (PX : (0 < X)%Z) by (apply Z.pow_pos_nonneg; lia).
    assert (PW : (0 < D * Y)%Z) by nia.
    assert (PV : (0 < X * Y)%Z) by nia.
    split.
    + rewrite (scale_lt (a * X) (Zpos m * P) (D * Y) PW).
      rewrite (scale_lt (a * D) (Zpos m * Y) (X * Y) PV).
      replace (Zpos m * P * (D * Y))%Z with (Zpos m * Y * (D * P))%Z by ring.
      rewrite T. split; intros H; lia.
    + rewrite (scale_lt (Zpos m * P) (a * X) (D * Y) PW).
      rewrite (scale_lt (Zpos m * Y) (a * D) (X * Y) PV).
      replace (Zpos m * P * (D * Y))%Z with (Zpos m * Y * (D * P))%Z by ring.
      rewrite T. split; intros H; lia.
Qed.

Lemma SF_value_neg (m : positive) (e : Z) (q : Q) :
  SF_value (S754_finite true m e) = Some q -> (q < 0)%Q.
Proof.
  unfold SF_value. destruct (0 <=? e)%Z eqn:E; intros H.
  - assert (Q : q = inject_Z (cond_Zopp true (Z.pos m) * 2 ^ e)%Z)
      by congruence.
    rewrite Q. apply Z.leb_le in E. unfold Qlt, inject_Z, cond_Zopp.
    cbn [Qnum Qden].
    assert (0 < 2 ^ e)%Z by (apply Z.pow_pos_nonneg; lia). nia.
  - assert (Q : q = (cond_Zopp true (Z.pos m) # 2 ^ Z.to_pos (- e))%Q)
      by congruence.
    rewrite Q. unfold Qlt, cond_Zopp. cbn [Qnum Qden]. lia.
Qed.

Lemma between_spec (s : num) : between s = true <-> strictly_between s.
Proof.
  unfold between, strictly_between, num_ltb, lower_bound, upper_bound.
  destruct s as [z|f]; cbn [num_compare num_value].
  - unfold Z_compare_float.
    change (Prim2SF 0.8) with (S754_finite false 7205759403792794 (-53)).
    change (Prim2SF 1.2) with (S754_finite false 5404319552844595 (-52)).
    cbn [Z.leb Z.compare option_map cond_Zopp Z.opp].
    change (2 ^ 53)%Z with 9007199254740992%Z.
    change (2 ^ 52)%Z with 4503599627370496%Z.
    split.
    + intros H. apply andb_prop in H. destruct H as [A B].
      exists (inject_Z z). split; [reflexivity|].
      unfold Qlt. cbn [Qnum Qden inject_Z].
      destruct (Z.compare_spec (z * 9007199254740992) 7205759403792794);
        try discriminate.
      destruct (Z.compare_spec (z * 4503599627370496) 5404319552844595);
        try discriminate.
      lia.
    + intros (q & [= <-] & A & B). unfold Qlt in A, B.
      cbn [Qnum Qden inject_Z] in A, B.
      destruct (Z.compare_spec (z * 9007199254740992) 7205759403792794);
        try lia.
      destruct (Z.compare_spec (z * 4503599627370496) 5404319552844595);
        try lia.
      reflexivity.
  - unfold float_value. rewrite !compare_spec.
    change (Prim2SF 0.8) with (S754_finite false 7205759403792794 (-53)).
    change (Prim2SF 1.2) with (S754_finite false 5404319552844595 (-52)).
    destruct (Prim2SF f) as [s|s| |s m e] eqn:P.
    + cbn. split; [discriminate|]. intros (q & [= <-] & L & _).
      vm_compute in L. discriminate.
    + destruct s; cbn; split; try discriminate; intros (q & Q & _);
        discriminate.
    + cbn. split; [discriminate|]. intros (q & Q & _). discriminate.
    + pose proof (valid_finite f s m e P) as V.
      pose proof (bounded_spec m e V) as (B & U & N).
      destruct s.
      * cbn [SFcompare flatten_cmp_opt]. split; [discriminate|].
        intros (q & Q & L & _). exfalso.
        apply SF_value_neg in Q. unfold Qlt in L, Q.
        cbn [Qnum Qden] in L, Q. lia.
      * rewrite !SFcompare_scaled by (try exact V; reflexivity).
        cbn [flatten_cmp_opt].
        destruct (SF_value (S754_finite false m e)) as [q|] eqn:Q;
          [|discriminate Q].
        destruct (value_scaled m e q 7205759403792794 53 ltac:(lia)
                    ltac:(lia) Q) as [L _].
        destruct (value_scaled m e q 5404319552844595 52 ltac:(lia)
                    ltac:(lia) Q) as [_ R].
        change (2 ^ 53)%positive with 9007199254740992%positive in L.
        change (2 ^ 52)%positive with 4503599627370496%positive in R.
        change (scaled 7205759403792794 (-53))
          with (7205759403792794 * 2 ^ (1074 - 53))%Z.
        change (scaled 5404319552844595 (-52))
          with (5404319552844595 * 2 ^ (1074 - 52))%Z.
        split.
        -- intros H. apply andb_prop in H. destruct H as [A C].
           exists q. split; [reflexivity|]. split.
           ++ apply L.
              destruct (Z.compare_spec
                          (7205759403792794 * 2 ^ (1074 - 53))
                          (scaled m e)); try discriminate. assumption.
           ++ apply R.
              destruct (Z.compare_spec (scaled m e)
                          (5404319552844595 * 2 ^ (1074 - 52)));
                try discriminate. assumption.
        -- intros (q' & [= <-] & A & C). apply L in A. apply R in C.
           apply Z.compare_lt_iff in A. apply Z.compare_lt_iff in C.
           now rewrite A, C.
Qed.

(** ** Result reconciliation *)

(** *** Whole numbers

    Whole numbers below [2^53] in size are binary64 numbers, and their
    differences are exact. *)

























Lemma dict_set_fresh {A : Type} (k : string) (v : A)
  (d : list (string * A)) :
  ~ In k (map fst d) -> dict_set k v d = d ++ [(k, v)].
Proof.
  induction d as [|[k' v'] d IH]; simpl; intros N; [reflexivity|].
  destruct (String.eqb k k') eqn:E.
  - apply String.eqb_eq in E. subst. tauto.
  - rewrite IH; tauto.
Qed.

Lemma flg_probs_spec (resdata : list (Z * num)) (s : num) :
  sum_values resdata (NInt 0) = Ok s ->
  flg_probs resdata = Ok (between s)
  /\ (flg_probs resdata = Ok true <-> strictly_between s).
Proof.
  intros S. unfold flg_probs. rewrite S. cbn [bind]. split; [reflexivity|].
  rewrite <- between_spec. split; [now intros [= ->]|now intros ->].
Qed.

(** On fresh keys, the loop appends one binding per entry to each map: the
    reading of the entry, and it raises what the reading raises. *)
Lemma fill_reads (flg : bool) (shots : float) (nqbits : Z)
  (resdata : list (Z * num)) :
  forall t,
    NoDup (map fst (probs t) ++ map (fun kv => kbin nqbits (fst kv)) resdata) ->
    map fst (cnts t) = map fst (probs t) ->
    (if flg then exists z, sumcnts t = NInt z
     else exists s, sum_values resdata (sumcnts t) = Ok s) ->
    maps_of (fill flg shots nqbits resdata t)
    = rest <- (if flg then read_as_probabilities shots nqbits resdata
               else read_as_counts shots nqbits resdata) ;;
      Ok (probs t ++ fst rest, cnts t ++ snd rest).
Proof.
  induction resdata as [|[k v] r IH]; intros t N E I.
  - destruct flg; simpl; now rewrite !app_nil_r.
  - assert (Fp : ~ In (kbin nqbits k) (map fst (probs t))).
    { intros X. simpl in N. apply NoDup_remove_2 in N. apply N.
      apply in_or_app. now left. }
    assert (Fc : ~ In (kbin nqbits k) (map fst (cnts t))) by now rewrite E.
    assert (N' : forall p : num,
               NoDup (map fst (probs t ++ [(kbin nqbits k, p)])
                      ++ map (fun kv => kbin nqbits (fst kv)) r)).
    { intros p. rewrite map_app. simpl. now rewrite <- app_assoc. }
    assert (E' : forall p c : num,
               map fst (cnts t ++ [(kbin nqbits k, c)])
               = map fst (probs t ++ [(kbin nqbits k, p)])).
    { intros p c. now rewrite !map_app, E. }
    cbn [fill]. destruct flg.
    + destruct I as [z Z]. cbn [bind read_as_probabilities].
      unfold py_mul. destruct (to_float v) as [a|x] eqn:T; [|reflexivity].
      cbn [bind]. destruct (py_int (a * shots)) as [n|x]; [|reflexivity].
      cbn [bind]. rewrite Z. cbn [num_add bind].
      rewrite (dict_set_fresh _ _ _ Fp), (dict_set_fresh _ _ _ Fc).
      rewrite IH; cbn [probs cnts sumcnts]; [|apply N'|apply E'|now eexists].
      destruct (read_as_probabilities shots nqbits r) as [rest|x];
        [|reflexivity].
      cbn [bind fst snd]. now rewrite <- !app_assoc.
    + destruct I as [s S]. cbn [sum_values] in S.
      destruct (num_add (sumcnts t) v) as [sc|x] eqn:A; [|discriminate].
      cbn [bind] in S. cbn [read_as_counts].
      destruct (py_div v shots) as [q|x]; [|reflexivity].
      cbn [bind to_float]. rewrite A. cbn [bind].
      rewrite (dict_set_fresh _ _ _ Fp), (dict_set_fresh _ _ _ Fc).
      rewrite IH; cbn [probs cnts sumcnts];
        [|apply N'|apply E'|exists s; exact S].
      destruct (read_as_counts shots nqbits r) as [rest|x]; [|reflexivity].
      cbn [bind fst snd]. now rewrite <- !app_assoc.
Qed.

(** C4 (as amended).  The numbers of a histogram are read as
    probabilities exactly when their running sum, taken in binary64 from
    the first [float] on, lies strictly between the binary64 numbers
    [0.8] and [1.2], and as counts in every other case, a sum equal to
    one of the two included; for distinct states the loop then builds the
    maps of that reading, key by key, or raises what the reading of a
    number raises. *)
Theorem probabilities_iff_strictly_between (shots : float) (nqbits : Z)
  (resdata : list (Z * num)) (s : num) :
  distinct_states nqbits resdata ->
  sum_values resdata (NInt 0) = Ok s ->
  (flg_probs resdata = Ok true <-> strictly_between s)
  /\ (strictly_between s ->
      maps_of (fill true shots nqbits resdata (Tally [] [] (NInt 0) 0))
      = read_as_probabilities shots nqbits resdata)
  /\ (~ strictly_between s ->
      flg_probs resdata = Ok false
      /\ maps_of (fill false shots nqbits resdata (Tally [] [] (NInt 0) 0))
         = read_as_counts shots nqbits resdata).
Proof.
  intros D S. destruct (flg_probs_spec resdata s S) as [F B].
  split; [exact B|]. split.
  - intros _. rewrite (fill_reads true); cbn [probs cnts sumcnts];
      [|exact D|reflexivity|exists 0%Z; reflexivity].
    now destruct (read_as_probabilities shots nqbits resdata) as [[p c]|x].
  - intros NB. split.
    + rewrite F. destruct (between s) eqn:E; [|reflexivity].
      destruct NB. apply B. now rewrite F.
    + rewrite (fill_reads false); cbn [probs cnts sumcnts];
        [|exact D|reflexivity|exists s; exact S].
      now destruct (read_as_counts shots nqbits resdata) as [[p c]|x].
Qed.

Lemma probabilities_iff_strictly_between_witness :
  maps_of (fill true 1024 2 [(0%Z, NFloat 0.5); (3%Z, NFloat 0.5)]
             (Tally [] [] (NInt 0) 0))
  = Ok ([("00", NFloat 0.5); ("11", NFloat 0.5)],
        [("00", NInt 512); ("11", NInt 512)]).
Proof.
  refine (proj1 (proj2 (probabilities_iff_strictly_between 1024 2
                          [(0%Z, NFloat 0.5); (3%Z, NFloat 0.5)]
                          (NFloat 1) _ eq_refl)) _).
  - repeat constructor; simpl; intuition discriminate.
  - eexists. split; [reflexivity|]. split; reflexivity.
Defined.

(** C4 (as stated) fails: a histogram whose running sum is the binary64
    number [0.8], or [1.2], is read as counts. *)
Lemma sum_on_the_bounds_read_as_counts :
  sum_values [(0%Z, NFloat 0.8)] (NInt 0) = Ok (NFloat 0.8)
  /\ num_value (NFloat 0.8) = Some lower_bound
  /\ flg_probs [(0%Z, NFloat 0.8)] = Ok false
  /\ sum_values [(1%Z, NFloat 1.2)] (NInt 0) = Ok (NFloat 1.2)
  /\ num_value (NFloat 1.2) = Some upper_bound
  /\ flg_probs [(1%Z, NFloat 1.2)] = Ok false
  /\ maps_of (fill false 1024 1 [(0%Z, NFloat 0.8)] (Tally [] [] (NInt 0) 0))
     = read_as_counts 1024 1 [(0%Z, NFloat 0.8)]
  /\ read_as_counts 1024 1 [(0%Z, NFloat 0.8)]
     <> read_as_probabilities 1024 1 [(0%Z, NFloat 0.8)].
Proof.
  repeat (split; [reflexivity|]). discriminate.
Qed.

(** The sum that counts is the running binary64 sum: the numbers 0.35, 0.7
    and 0.15 add up to 1.1999999999999997 and are read as
    probabilities. *)
Example running_sum_below_the_bound :
  sum_values [(0%Z, NFloat 0.35); (1%Z, NFloat 0.7); (2%Z, NFloat 0.15)]
    (NInt 0)
  = Ok (NFloat 1.1999999999999997)
  /\ flg_probs [(0%Z, NFloat 0.35); (1%Z, NFloat 0.7); (2%Z, NFloat 0.15)]
     = Ok true.
Proof. split; reflexivity. Qed.

(** C1 (not met by the code).  With one shot and two states of probability
    one half, every count is truncated to zero, no state holds a count
    above zero, and the correction looks up the key [''], which [cnts] does
    not have: [KeyError] is raised and no result is returned. *)
Theorem reconcile_all_counts_truncated :
  flg_probs [(0%Z, NFloat 0.5); (1%Z, NFloat 0.5)] = Ok true
  /\ fill true 1 1 [(0%Z, NFloat 0.5); (1%Z, NFloat 0.5)]
       (Tally [] [] (NInt 0) 0)
     = Ok (Tally [("0", NFloat 0.5); ("1", NFloat 0.5)]
             [("0", NInt 0); ("1", NInt 0)] (NInt 0) 1)
  /\ reconcile 1 1 [(0%Z, NFloat 0.5); (1%Z, NFloat 0.5)] = Raise KeyError
  /\ with_results (JobData "completed" (Some (NInt 1)) 1)
       [(0%Z, NFloat 0.5); (1%Z, NFloat 0.5)]
     = Raise KeyError.
Proof. repeat split. Qed.

(** The same correction fails on an empty histogram, and the normalisation
    divides by zero on a histogram of zeros. *)
Example reconcile_empty : reconcile 1024 2 [] = Raise KeyError.
Proof. reflexivity. Qed.

Example reconcile_zeros :
  reconcile 1024 1 [(0%Z, NFloat 0); (1%Z, NFloat 0)]
  = Raise ZeroDivisionError.
Proof. reflexivity. Qed.

(** ** Polling *)

(** The loop ends: [wait_minutes + 1] passes are enough. *)
Lemma poll_fuel (svc : service) (fuel : nat) :
  forall (w : Z) (p r : bool) (nj nr : nat) (tr : list event),
    Z.to_nat (w + 1) <= fuel -> poll fuel svc w p r nj nr tr <> None.
Proof.
  induction fuel as [|fuel IH]; intros w p r nj nr tr F; simpl.
  - destruct (w <? 0)%Z eqn:W; [discriminate|]. apply Z.ltb_ge in W. lia.
  - destruct (w <? 0)%Z eqn:W; [discriminate|]. apply Z.ltb_ge in W.
    assert (N : forall w' nr' tr', (w' <= w)%Z ->
                 poll fuel svc (w' - 1) false true (S nj) nr' tr' <> None)
      by (intros; apply IH; lia).
    destruct (job_reply svc nj) as [data|]; [|apply N; lia].
    set (w' := if (String.eqb (job_status data) "failed"
                   || String.eqb (job_status data) "canceled")%bool
               then 0%Z else w).
    assert (w' <= w)%Z by (subst w'; destruct (_ || _)%bool; lia).
    destruct (String.eqb (job_status data) "completed").
    + destruct (results_reply svc nr); [discriminate|now apply N].
    + destruct (w' <=? 0)%Z; [discriminate|now apply N].
Qed.

Lemma retrieve_job_returns (svc : service) (jobid : jobid_arg) (w : Z) :
  retrieve_job svc jobid w <> None.
Proof.
  unfold retrieve_job. destruct (validate_jobid_hash jobid); [|discriminate].
  apply poll_fuel. lia.
Qed.




(** * Further properties *)

(** ** The keys of the result maps *)

Lemma bits_value_app (s : list ascii) (c : ascii) :
  bits_value (s ++ [c])
  = match bits_value s with
    | None => None
    | Some n =>
        if Ascii.eqb c "0" then Some (2 * n)%Z
        else if Ascii.eqb c "1" then Some (2 * n + 1)%Z
        else None
    end.
Proof. unfold bits_value. now rewrite fold_left_app. Qed.

Lemma bits_value_digits (p : positive) :
  bits_value (bin_digits p) = Some (Zpos p).
Proof.
  induction p as [p IH|p IH|]; simpl; try reflexivity;
    rewrite bits_value_app, IH; reflexivity.
Qed.

Lemma bits_value_zeros (n : nat) (s : list ascii) :
  bits_value (repeat "0"%char n ++ s) = bits_value s.
Proof.
  unfold bits_value. rewrite fold_left_app.
  replace (fold_left _ (repeat "0"%char n) (Some 0%Z)) with (Some 0%Z);
    [reflexivity|].
  induction n as [|n IH]; simpl; auto.
Qed.

Lemma bin_digits_length (p : positive) (m : nat) :
  (Zpos p < 2 ^ Z.of_nat m)%Z -> List.length (bin_digits p) <= m.
Proof.
  revert m. induction p as [p IH|p IH|]; intros m H; simpl.
  - destruct m as [|m]; [simpl in H; lia|].
    rewrite length_app. simpl. rewrite Nat2Z.inj_succ, Z.pow_succ_r in H by lia.
    specialize (IH m). lia.
  - destruct m as [|m]; [simpl in H; lia|].
    rewrite length_app. simpl. rewrite Nat2Z.inj_succ, Z.pow_succ_r in H by lia.
    specialize (IH m). lia.
  - destruct m as [|m]; [simpl in H; lia|]. lia.
Qed.

Lemma bin_digits_first (p : positive) :
  exists r, bin_digits p = "1"%char :: r.
Proof.
  induction p as [p [r IH]|p [r IH]|]; simpl; rewrite ?IH; simpl; eauto.
Qed.

(** The digits of a key that is not negative, before padding. *)
Lemma digits_of_key (k : Z) :
  (0 <= k)%Z ->
  exists c r,
    skipn 2 (py_bin k) = c :: r
    /\ (c = "0"%char \/ c = "1"%char)
    /\ bits_value (c :: r) = Some k
    /\ forall m, (k < 2 ^ Z.of_nat m)%Z -> 0 < m -> List.length (c :: r) <= m.
Proof.
  intros H. destruct k as [|p|p]; [| |lia].
  - exists "0"%char, []. split; [reflexivity|]. split; [now left|].
    split; [reflexivity|]. intros m _ M. simpl. lia.
  - destruct (bin_digits_first p) as [r E].
    exists "1"%char, r. simpl. rewrite <- E. split; [reflexivity|].
    split; [now right|]. split; [apply bits_value_digits|].
    intros m L _. apply bin_digits_length in L. now rewrite E in L.
Qed.

Lemma kbin_value (nqbits k : Z) :
  (0 <= k)%Z -> bits_value (chars (kbin nqbits k)) = Some k.
Proof.
  intros H. unfold kbin. rewrite chars_str.
  destruct (digits_of_key k H) as (c & r & -> & C & V & _).
  unfold zfill.
  assert (E : (Ascii.eqb c "+" || Ascii.eqb c "-")%bool = false)
    by (destruct C; subst c; reflexivity).
  rewrite E. now rewrite bits_value_zeros.
Qed.

Lemma kbin_length (nqbits k : Z) :
  (0 <= k)%Z -> (0 < nqbits)%Z -> (k < 2 ^ nqbits)%Z ->
  List.length (chars (kbin nqbits k)) = Z.to_nat nqbits.
Proof.
  intros H N B. unfold kbin. rewrite chars_str.
  destruct (digits_of_key k H) as (c & r & -> & C & _ & L).
  unfold zfill.
  assert (E : (Ascii.eqb c "+" || Ascii.eqb c "-")%bool = false)
    by (destruct C; subst c; reflexivity).
  rewrite E, length_app, repeat_length.
  specialize (L (Z.to_nat nqbits)). rewrite Z2Nat.id in L by lia.
  specialize (L B). lia.
Qed.

(** X2.  The key of a basis state that is not negative is a string of
    binary digits that reads back as the state; with [n >= 1] qubits and a
    state below [2^n] it has exactly [n] characters. *)
Theorem kbin_round_trip (nqbits k : Z) :
  (0 <= k)%Z ->
  bits_value (chars (kbin nqbits k)) = Some k
  /\ ((0 < nqbits)%Z -> (k < 2 ^ nqbits)%Z ->
      List.length (chars (kbin nqbits k)) = Z.to_nat nqbits).
Proof.
  intros H. split; [now apply kbin_value|]. intros N B. now apply kbin_length.
Qed.

Lemma kbin_round_trip_witness :
  bits_value (chars (kbin 3 5)) = Some 5%Z
  /\ List.length (chars (kbin 3 5)) = 3.
Proof.
  assert (H : (0 <= 5)%Z) by lia.
  destruct (kbin_round_trip 3 5 H) as [V L].
  split; [exact V|]. apply L; [lia|reflexivity].
Defined.

(** X3.  Distinct basis states that are not negative get distinct keys, so
    that no entry of the histogram overwrites another. *)
Theorem distinct_keys_distinct_states (nqbits : Z)
  (resdata : list (Z * num)) :
  NoDup (map fst resdata) ->
  Forall (fun kv => (0 <= fst kv)%Z) resdata ->
  distinct_states nqbits resdata.
Proof.
  unfold distinct_states. induction resdata as [|[k v] r IH]; simpl.
  - constructor.
  - intros N F. inversion N as [|? ? Nk Nr]; subst.
    inversion F as [|? ? Fk Fr]; subst. simpl in Fk.
    constructor; [|auto]. intros I. apply in_map_iff in I.
    destruct I as ([k' v'] & E & I). simpl in E. apply Nk.
    rewrite Forall_forall in Fr. pose proof (Fr _ I) as Fk'. simpl in Fk'.
    pose proof (kbin_value nqbits k Fk) as A.
    pose proof (kbin_value nqbits k' Fk') as B.
    rewrite E in B. rewrite A in B. inversion B; subst k'.
    apply in_map_iff. now exists (k, v').
Qed.

Lemma distinct_keys_distinct_states_witness :
  distinct_states 2 [(0%Z, NInt 512); (3%Z, NInt 512)].
Proof.
  apply distinct_keys_distinct_states.
  - repeat constructor; simpl; intuition discriminate.
  - repeat constructor; simpl; lia.
Defined.

(** ** More on the reconciliation *)


















(** The counts of the example above before the correction: [0.29 * 100.0]
    is below 29 in binary64, and [int] truncates it to 28. *)
Example counts_truncated :
  py_mul (NFloat 0.29) 100 = Ok 28.999999999999996%float
  /\ py_int 28.999999999999996 = Ok 28%Z
  /\ maps_of (fill true 100 2
                [(0%Z, NFloat 0.29); (1%Z, NFloat 0.29); (2%Z, NFloat 0.42)]
                (Tally [] [] (NInt 0) 0))
     = Ok ([("00", NFloat 0.29); ("01", NFloat 0.29); ("10", NFloat 0.42)],
           [("00", NInt 28); ("01", NInt 28); ("10", NInt 42)]).
Proof. repeat split. Qed.







(** The probabilities of this histogram do not sum to [1.0] in binary64,
    and are divided by their sum. *)
Example probabilities_renormalised :
  fill false 10 2 (ints [(0%Z, 2%Z); (1%Z, 7%Z); (2%Z, 1%Z)])
    (Tally [] [] (NInt 0) 0)
  = Ok (Tally [("00", NFloat 0.2); ("01", NFloat 0.7); ("10", NFloat 0.1)]
          [("00", NInt 2); ("01", NInt 7); ("10", NInt 1)]
          (NInt 10) 0.99999999999999989)
  /\ reconcile 10 2 (ints [(0%Z, 2%Z); (1%Z, 7%Z); (2%Z, 1%Z)])
     = Ok ([("00", NFloat 0.20000000000000004);
            ("01", NFloat 0.70000000000000007);
            ("10", NFloat 0.10000000000000002)],
           [("00", NInt 2); ("01", NInt 7); ("10", NInt 1)]).
Proof. split; reflexivity. Qed.


(** ** More on the circuit validator *)

Lemma gate_in_values_spec (g : value) (tbl : list (string * string)) :
  gate_in_values g tbl = true -> exists s, g = VStr s /\ in_values s tbl = true.
Proof. destruct g; simpl; try discriminate. eauto. Qed.

Lemma classify_canonical (j : nat) (g : value) (t c : list value) (f : bool)
  (g' : value) (t' c' : list value) (f' : bool) :
  classify j g t c f = inr (g', t', c', f') ->
  exists cls s, g' = VStr s /\ canonical cls s.
Proof.
  assert (V : forall cls x,
             gate_in_values x (class_table cls) = true ->
             exists cls' s, x = VStr s /\ canonical cls' s).
  { intros cls x H. apply gate_in_values_spec in H. destruct H as (s & -> & H).
    exists cls, s. split; [reflexivity|]. now apply in_values_In. }
  assert (K : forall cls x,
             gate_in_keys x (class_table cls) = true ->
             exists cls' s, gate_remap x (class_table cls) = VStr s
                            /\ canonical cls' s).
  { intros cls x H. apply remap_spec in H. destruct H as (s & s' & _ & E & H).
    exists cls, s'. split; [exact E|]. now apply in_values_In. }
  unfold classify.
  destruct (1 <? List.length t).
  { destruct (gate_in_values g gates_2q_noctl) eqn:A.
    - intros [= <- _ _ _]. exact (V TwoQubitUncontrolled g A).
    - destruct (gate_in_keys g gates_2q_noctl) eqn:B; [|discriminate].
      intros [= <- _ _ _]. exact (K TwoQubitUncontrolled g B). }
  destruct (1 <? List.length c).
  { destruct (gate_in_values g gates_mq) eqn:A.
    - intros [= <- _ _ _]. exact (V MultiControl g A).
    - destruct (gate_in_keys g gates_mq) eqn:B; [|discriminate].
      intros [= <- _ _ _]. exact (K MultiControl g B). }
  destruct (List.length c =? 1).
  { destruct (gate_in_values g gates_2q_ctl) eqn:A.
    - intros [= <- _ _ _]. exact (V TwoQubitControlled g A).
    - destruct (gate_in_keys g gates_2q_ctl) eqn:B.
      + intros [= <- _ _ _]. exact (K TwoQubitControlled g B).
      + destruct (gate_in_values g gates_2q_noctl) eqn:A'; simpl.
        * intros [= <- _ _ _]. exact (V TwoQubitUncontrolled g A').
        * destruct (gate_in_keys g gates_2q_noctl) eqn:B'; [|discriminate].
          intros [= <- _ _ _]. exact (K TwoQubitUncontrolled g B'). }
  destruct (gate_in_values g gates_1q) eqn:A.
  - intros [= <- _ _ _]. exact (V SingleQubit g A).
  - destruct (gate_in_keys g gates_1q) eqn:B; [|discriminate].
    intros [= <- _ _ _]. exact (K SingleQubit g B).
Qed.

Lemma classify_unchanged (j : nat) (g : value) (t c : list value) (f : bool)
  (g' : value) (t' c' : list value) :
  classify j g t c f = inr (g', t', c', false) -> g' = g.
Proof.
  unfold classify.
  repeat match goal with
         | |- context [if ?b then _ else _] => destruct b
         end; intros H; inversion H; reflexivity.
Qed.

Lemma expansion_canonical (g : value) (m : macro) (t c : list value)
  (circs : list pydict) :
  gate_macro g = Some m ->
  List.length (m_targets m) = List.length t ->
  List.length (m_controls m) = List.length c ->
  expand (t ++ c) (m_body m) = Ok circs ->
  Forall (fun r => exists s, lookup "gate" r = Some (VStr s)
                             /\ in_values s gates_1q = true) circs.
Proof.
  destruct g; simpl; try discriminate. unfold gates_special, lookup.
  repeat match goal with
         | |- context [String.eqb s ?k] => destruct (String.eqb s k)
         end; intros M; inversion M; subst m; clear M; simpl; intros Lt Lc;
    destruct t as [|a [|b [|]]]; try discriminate;
    destruct c as [|x [|]]; try discriminate;
    simpl; intros X; inversion X; subst circs;
    repeat (apply Forall_cons; [eexists; split; reflexivity|]);
    apply Forall_nil.
Qed.

(** X6.  Every operation of a validated circuit carries, as a string, a
    gate name of the service's vocabulary: a name that one of the four
    translation tables maps to. *)
Theorem validated_gates_canonical (c : list value) (out : list out_op)
  (upd : list nat) (op : out_op) :
  validate_circuit (VList c) = Ok (Validated out upd) ->
  In op out ->
  exists s cls,
    lookup "gate" (op_record op) = Some (VStr s) /\ canonical cls s.
Proof.
  intros V I. apply validate_circuit_run in V.
  destruct (run_out _ _ _ _ V _ I) as (i & e & ops & u & _ & K & I' & _).
  apply validate_entry_emit in K.
  destruct K as (g & t & ft & G & _ & _ & [(m & circs & M & L1 & L2 & X & -> & _)
    |(_ & g' & t' & c' & f' & C & [(_ & -> & _)|(-> & -> & _)])]).
  - apply in_map_iff in I'. destruct I' as (r & <- & I'). simpl.
    pose proof (expansion_canonical _ _ _ _ _ M L1 L2 X) as F.
    rewrite Forall_forall in F. destruct (F _ I') as (s & Gs & Vs).
    exists s, SingleQubit. split; [exact Gs|]. now apply in_values_In.
  - destruct I' as [<-|[]]. simpl.
    destruct (classify_canonical _ _ _ _ _ _ _ _ _ C) as (cls & s & -> & Cs).
    exists s, cls. split; [reflexivity|exact Cs].
  - destruct I' as [<-|[]]. simpl.
    destruct (classify_canonical _ _ _ _ _ _ _ _ _ C) as (cls & s & E & Cs).
    apply classify_unchanged in C. subst g'. subst g.
    exists s, cls. split; [exact G|exact Cs].
Qed.

Lemma validated_gates_canonical_witness :
  exists s cls,
    lookup "gate" [("gate", VStr "x"); ("targets", qubits [1]);
                   ("controls", qubits [0])] = Some (VStr s)
    /\ canonical cls s.
Proof.
  set (e := [("gate", VStr "cnot"); ("target", qubit 1); ("control", qubit 0)]).
  set (op := OutOp 0 false [("gate", VStr "x"); ("targets", qubits [1]);
                            ("controls", qubits [0])]).
  exact (validated_gates_canonical [VDict e] [op] [0] op eq_refl
           (or_introl eq_refl)).
Defined.

(** X7.  A macro gate given as many targets and controls as it declares is
    always expanded: no index of its body falls outside the operands, the
    expansion has one operation per step of the body, and the targets and
    controls of these operations are operands of the entry. *)
Theorem macro_expansion_uses_operands (g : value) (m : macro)
  (tgt ctl : list value) :
  gate_macro g = Some m ->
  List.length tgt = List.length (m_targets m) ->
  List.length ctl = List.length (m_controls m) ->
  exists circs,
    expand (tgt ++ ctl) (m_body m) = Ok circs
    /\ List.length circs = List.length (m_body m)
    /\ Forall (fun r =>
                 (exists ts, lookup "targets" r = Some (VList ts)
                             /\ incl ts (tgt ++ ctl))
                 /\ forall cs, lookup "controls" r = Some (VList cs) ->
                               incl cs (tgt ++ ctl)) circs.
Proof.
  destruct g; simpl; try discriminate. unfold gates_special, lookup.
  repeat match goal with
         | |- context [String.eqb s ?k] => destruct (String.eqb s k)
         end; intros M; inversion M; subst m; clear M; simpl; intros Lt Lc;
    destruct tgt as [|a [|b [|]]]; try discriminate;
    destruct ctl as [|x [|]]; try discriminate;
    simpl; eexists; (split; [reflexivity|]); (split; [reflexivity|]);
    repeat (apply Forall_cons;
            [split;
             [eexists; split; [reflexivity|];
              intros q Hq; simpl in *; intuition (subst; auto)
             |intros cs Hc; simpl in Hc; inversion Hc; subst cs;
              intros q Hq; simpl in *; intuition (subst; auto)]|]);
    apply Forall_nil.
Qed.

Lemma macro_expansion_uses_operands_witness :
  exists circs,
    expand [qubit 4; qubit 7; qubit 2]
      [("x",[1],[0],[]); ("x",[0],[1;2],[]); ("x",[1],[0],[])] = Ok circs
    /\ List.length circs = 3.
Proof.
  destruct (macro_expansion_uses_operands (VStr "cswap")
              (Macro [0;1] [0] []
                 [("x",[1],[0],[]); ("x",[0],[1;2],[]); ("x",[1],[0],[])])
              [qubit 4; qubit 7] [qubit 2] eq_refl eq_refl eq_refl)
    as (circs & E & L & _).
  exists circs. exact (conj E L).
Defined.





(** X9.  Validation stops at the first entry it cannot accept: when the
    entries before it go through, the answer is the error of that entry,
    or of its not being a dictionary, whatever follows it. *)
Theorem first_error_wins (pre post : list value) (out : list out_op)
  (upd : list nat) (bad : value) :
  run 0 pre out upd ->
  (forall entry err,
     bad = VDict entry ->
     validate_entry (List.length pre) entry = Ok (Stop err) ->
     validate_circuit (VList (pre ++ bad :: post)) = Ok (Invalid err))
  /\ ((forall entry, bad <> VDict entry) ->
      validate_circuit (VList (pre ++ bad :: post))
      = Ok (Invalid (NotADict (List.length pre)))).
Proof.
  intros R. unfold validate_circuit.
  rewrite (run_validate_entries _ _ _ _ R). simpl. split.
  - intros entry err -> E. now rewrite E.
  - intros N. destruct bad; try reflexivity. now destruct (N d).
Qed.

Lemma first_error_wins_witness :
  validate_circuit
    (VList [VDict [("gate", VStr "h"); ("target", qubit 0)];
            VDict [("gate", VStr "foo"); ("target", qubit 0)];
            VInt 3])
  = Ok (Invalid (NotOneQubit 1 (VStr "foo"))).
Proof.
  set (h := [("gate", VStr "h"); ("target", qubit 0)]).
  set (foo := [("gate", VStr "foo"); ("target", qubit 0)]).
  refine (proj1 (first_error_wins [VDict h] [VInt 3] [OutOp 0 true h] []
                   (VDict foo) _) foo _ eq_refl eq_refl).
  apply (run_emit 0 h [] [OutOp 0 true h] false [] []);
    [reflexivity|constructor].
Defined.

(** ** More on the emission loop *)

Lemma words_not_nil (sep : ascii) (s : string) : words sep s <> [].
Proof.
  unfold words. intros H. apply map_eq_nil in H.
  now apply split_not_nil in H.
Qed.

Lemma getitems_length {A : Type} (d : list (string * A)) (ks : list string)
  (l : list A) :
  getitems d ks = Ok l -> List.length l = List.length ks.
Proof.
  revert l. induction ks as [|k ks IH]; simpl; intros l H.
  - now inversion H.
  - apply bind_ok in H. destruct H as (a & _ & H).
    apply bind_ok in H. destruct H as (r & R & H). inversion H; subst.
    simpl. now rewrite (IH _ R).
Qed.

(** Resolving a non-empty list of names resolves its last name and the
    names before it. *)
Lemma getitems_last {A : Type} (d : list (string * A)) (ks : list string)
  (l : list A) (dk : string) (da : A) :
  getitems d ks = Ok l -> ks <> [] ->
  in_keys (last ks dk) d = true
  /\ getitem d (last ks dk) = Ok (last l da)
  /\ getitems d (removelast ks) = Ok (removelast l).
Proof.
  revert l. induction ks as [|k ks IH]; intros l H N; [congruence|].
  simpl in H. apply bind_ok in H. destruct H as (a & G & H).
  apply bind_ok in H. destruct H as (r & R & H). inversion H; subst l.
  destruct ks as [|k' ks].
  - simpl in R. inversion R; subst r. simpl. unfold in_keys, getitem in *.
    destruct (lookup k d); [|discriminate]. inversion G; subst. auto.
  - destruct (IH _ R) as (I1 & I2 & I3); [discriminate|].
    pose proof (getitems_length _ _ _ R) as L.
    destruct r as [|b r]; [discriminate|].
    change (last (k :: k' :: ks) dk) with (last (k' :: ks) dk).
    change (last (a :: b :: r) da) with (last (b :: r) da).
    change (removelast (k :: k' :: ks)) with (k :: removelast (k' :: ks)).
    change (removelast (a :: b :: r)) with (a :: removelast (b :: r)).
    split; [exact I1|]. split; [exact I2|].
    cbn [getitems]. rewrite G. cbn [bind]. rewrite I3. reflexivity.
Qed.

Lemma getitems_hd {A : Type} (d : list (string * A)) (ks : list string)
  (l : list A) (dk : string) (da : A) :
  getitems d ks = Ok l -> ks <> [] -> getitem d (hd dk ks) = Ok (hd da l).
Proof.
  destruct ks as [|k ks]; [congruence|]. simpl. intros H _.
  apply bind_ok in H. destruct H as (a & G & H).
  apply bind_ok in H. destruct H as (r & R & H). now inversion H; subst.
Qed.

Lemma rebind_resolved (qname : list (string * nat)) (qval : list string)
  (qs : list nat) (st : emit_state) :
  getitems qname qval = Ok qs -> qval <> [] ->
  rebind qname qval st
  = Ok (EmitState (store st ++ [[last qs 0]; removelast qs]) (circ st)
          (Some (List.length (store st)))
          (Some (S (List.length (store st))))).
Proof.
  intros G N. unfold rebind.
  destruct (getitems_last _ _ _ "" 0 G N) as (I1 & I2 & I3).
  now rewrite I1, I2, I3.
Qed.

Lemma store_append_fresh (st : list (list nat)) (l : list nat)
  (more : list (list nat)) (x : nat) :
  store_append (st ++ l :: more) (List.length st) x
  = st ++ (l ++ [x]) :: more.
Proof. induction st as [|a st IH]; simpl; [reflexivity|now rewrite IH]. Qed.

Lemma store_append_other (st : list (list nat)) (r r' x : nat) :
  r <> r' -> nth r' (store_append st r x) [] = nth r' st [].
Proof.
  revert r r'. induction st as [|a st IH]; intros [|r] [|r'] N; simpl; auto;
    try congruence.
Qed.

Lemma nth_middle_store (st : list (list nat)) (a b : list nat) :
  nth (List.length st) (st ++ [a; b]) [] = a
  /\ nth (S (List.length st)) (st ++ [a; b]) [] = b.
Proof.
  split.
  - rewrite app_nth2, Nat.sub_diag by lia. reflexivity.
  - rewrite app_nth2 by lia.
    replace (S (List.length st) - List.length st) with 1 by lia. reflexivity.
Qed.

Lemma controlled_key (k g : string) :
  lookup k gates_2q_ctl = Some g \/ lookup k gates_mq = Some g ->
  lookup k gates_1q = None /\ lookup k gates_2q_noctl = None
  /\ (lookup k gates_2q_ctl = Some g
      \/ (lookup k gates_2q_ctl = None /\ lookup k gates_mq = Some g)).
Proof.
  intros [H|H]; pose proof (lookup_In _ _ _ H) as I; simpl in I;
    repeat (destruct I as [I|I];
            [inversion I; subst k g; repeat split; auto|]);
    contradiction.
Qed.

(** X10.  A statement of a controlled or multi-controlled gate whose
    operands are all declared qubits appends one operation and leaves the
    operations before it as they were: the gate is the canonical name, the
    target is the last operand and the controls are the operands before it,
    in their order. *)
Theorem controlled_statement_convention (qname : list (string * nat))
  (line ops canon : string) (qs : list nat) (st : emit_state) :
  refs_ok st ->
  nth_error (words " " line) 1 = Some ops ->
  lookup (mnemonic line) gates_2q_ctl = Some canon
  \/ lookup (mnemonic line) gates_mq = Some canon ->
  getitems qname (words "," ops) = Ok qs ->
  exists st',
    emit_step qname line st = Ok st'
    /\ refs_ok st'
    /\ render st'
       = render st
         ++ [[("gate", VStr canon); ("targets", qubits [last qs 0]);
              ("controls", qubits (removelast qs))]].
Proof.
  intros W N K G. unfold mnemonic in K.
  destruct (controlled_key _ _ K) as (K1 & K2 & K3).
  pose proof (rebind_resolved qname _ _ st G (words_not_nil _ _)) as R.
  set (st1 := EmitState (store st ++ [[last qs 0]; removelast qs]) (circ st)
                (Some (List.length (store st)))
                (Some (S (List.length (store st))))) in *.
  assert (E : emit_step qname line st
              = Ok (EmitState (store st1)
                      (circ st1 ++ [EmitCtl canon (List.length (store st))
                                      (S (List.length (store st)))])
                      (qtgt st1) (qctl st1))).
  { unfold emit_step, item. rewrite K1, N. cbn [bind]. rewrite R. cbn [bind].
    rewrite K2. destruct K3 as [K3|[K3 K4]].
    - now rewrite K3.
    - now rewrite K3, K4. }
  eexists. split; [exact E|]. split.
  - eapply emit_step_refs_ok; eauto.
  - unfold render. simpl. rewrite map_app. simpl.
    destruct W as (C & _ & _). rewrite (render_more _ _ _ C).
    unfold deref. destruct (nth_middle_store (store st) [last qs 0]
                              (removelast qs)) as [-> ->].
    reflexivity.
Qed.

Lemma controlled_statement_convention_witness :
  translate_circuit [("a", 0); ("b", 1); ("c", 2)] ["ccx a,b,c"]
  = Ok [[("gate", VStr "x"); ("targets", qubits [2]);
         ("controls", qubits [0; 1])]].
Proof.
  destruct (controlled_statement_convention [("a", 0); ("b", 1); ("c", 2)]
              "ccx a,b,c" "a,b,c" "x" [0; 1; 2] emit_init)
    as (st' & E & _ & R).
  - repeat split; [constructor|discriminate|discriminate].
  - reflexivity.
  - right. reflexivity.
  - reflexivity.
  - unfold translate_circuit. cbn [emit_loop]. rewrite E. cbn [bind].
    now rewrite R.
Defined.

(** X11.  A statement of an uncontrolled two-qubit gate whose operands are
    all declared qubits appends one operation and leaves the operations
    before it as they were: its targets are the last operand followed by
    the first operand. *)
Theorem uncontrolled_statement_targets (qname : list (string * nat))
  (line ops canon : string) (qs : list nat) (st : emit_state) :
  refs_ok st ->
  nth_error (words " " line) 1 = Some ops ->
  lookup (mnemonic line) gates_2q_noctl = Some canon ->
  getitems qname (words "," ops) = Ok qs ->
  exists st',
    emit_step qname line st = Ok st'
    /\ refs_ok st'
    /\ render st'
       = render st
         ++ [[("gate", VStr canon); ("targets", qubits [last qs 0; hd 0 qs])]].
Proof.
  intros W N K G. unfold mnemonic in K.
  assert (K1 : lookup (hd "" (words " " line)) gates_1q = None).
  { pose proof (lookup_In _ _ _ K) as I. simpl in I.
    repeat (destruct I as [I|I];
            [injection I as I1 I2; rewrite <- I1; reflexivity|]).
    contradiction. }
  pose proof (rebind_resolved qname _ _ st G (words_not_nil _ _)) as R.
  pose proof (getitems_hd _ _ _ "" 0 G (words_not_nil _ _)) as H0.
  assert (E : emit_step qname line st
              = Ok (EmitState
                      (store st ++ [[last qs 0; hd 0 qs]; removelast qs])
                      (circ st ++ [EmitNoctl canon (List.length (store st))])
                      (Some (List.length (store st)))
                      (Some (S (List.length (store st)))))).
  { unfold emit_step, item. rewrite K1, N. cbn [bind]. rewrite R. cbn [bind].
    rewrite K. cbn [qtgt bound bind store circ qctl]. rewrite H0. cbn [bind].
    now rewrite store_append_fresh. }
  eexists. split; [exact E|]. split.
  - eapply emit_step_refs_ok; eauto.
  - unfold render. simpl. rewrite map_app. simpl.
    destruct W as (C & _ & _). rewrite (render_more _ _ _ C).
    unfold deref. destruct (nth_middle_store (store st) [last qs 0; hd 0 qs]
                              (removelast qs)) as [-> _].
    reflexivity.
Qed.

Lemma uncontrolled_statement_targets_witness :
  translate_circuit two_qubits ["swap q[0],q[1]"]
  = Ok [[("gate", VStr "swap"); ("targets", qubits [1; 0])]].
Proof.
  destruct (uncontrolled_statement_targets two_qubits "swap q[0],q[1]"
              "q[0],q[1]" "swap" [0; 1] emit_init)
    as (st' & E & _ & R).
  - repeat split; [constructor|discriminate|discriminate].
  - reflexivity.
  - reflexivity.
  - reflexivity.
  - unfold translate_circuit. cbn [emit_loop]. rewrite E. cbn [bind].
    now rewrite R.
Defined.

Lemma render_store_append (st : list (list nat)) (r x : nat)
  (c : list emitted) :
  Forall (ref_ok r) c ->
  map (render_op (store_append st r x)) c = map (render_op st) c.
Proof.
  intros F. apply map_ext_in. intros e I. rewrite Forall_forall in F.
  apply F in I. unfold render_op, deref.
  destruct e; simpl in I; rewrite ?store_append_other by lia; reflexivity.
Qed.

Lemma emit_step_keeps (qname : list (string * nat)) (line : string)
  (st st' : emit_state) :
  refs_ok st -> keeps_earlier qname line ->
  emit_step qname line st = Ok st' ->
  exists new, render st' = render st ++ new /\ List.length new <= 1.
Proof.
  intros W S. pose proof W as (C & _ & _). unfold emit_step.
  destruct (lookup _ gates_1q) as [g|] eqn:K1.
  { intros H. apply bind_ok in H. destruct H as (v1 & _ & H).
    apply bind_ok in H. destruct H as (t & _ & H). inversion H; subst.
    unfold render. simpl. rewrite map_app. eexists. split; [reflexivity|].
    simpl. lia. }
  intros H. apply bind_ok in H. destruct H as (v1 & V & H).
  apply bind_ok in H. destruct H as (st1 & R & H).
  destruct (rebind_circ _ _ _ _ R) as (Ec & more & Es).
  assert (Old : map (render_op (store st1)) (circ st1) = render st)
    by (unfold render; rewrite Ec, Es; now apply render_more).
  assert (X : forall g,
             (t <- bound (qtgt st1) ;; c <- bound (qctl st1) ;;
              Ok (EmitState (store st1) (circ st1 ++ [EmitCtl g t c])
                    (qtgt st1) (qctl st1))) = Ok st' ->
             exists new, render st' = render st ++ new
                         /\ List.length new <= 1).
  { intros g H'. apply bind_ok in H'. destruct H' as (t & _ & H').
    apply bind_ok in H'. destruct H' as (c & _ & H'). inversion H'; subst.
    unfold render at 1. simpl. rewrite map_app, Old. eexists.
    split; [reflexivity|]. simpl. lia. }
  destruct (lookup _ gates_2q_noctl) as [g|] eqn:K2.
  - destruct S as [(ops & N & I)|S]; [|unfold mnemonic in S; congruence].
    unfold item in V. rewrite N in V. inversion V; subst v1.
    unfold rebind in R. rewrite I in R.
    apply bind_ok in R. destruct R as (t & _ & R).
    apply bind_ok in R. destruct R as (cs & _ & R). inversion R; subst st1.
    simpl in *. apply bind_ok in H. destruct H as (q0 & _ & H).
    inversion H; subst st'. unfold render at 1. simpl.
    rewrite map_app, (render_store_append _ _ _ _ C), (render_more _ _ _ C).
    eexists. split; [reflexivity|]. simpl. lia.
  - destruct (lookup _ gates_2q_ctl) as [g|]; [now apply (X g)|].
    destruct (lookup _ gates_mq) as [g|]; [now apply (X g)|].
    inversion H; subst st'. exists []. rewrite app_nil_r. split; [|simpl; lia].
    exact Old.
Qed.

Lemma emit_loop_keeps (qname : list (string * nat)) (post : list string) :
  Forall (keeps_earlier qname) post ->
  forall st st',
    refs_ok st -> emit_loop qname post st = Ok st' ->
    exists new,
      render st' = render st ++ new /\ List.length new <= List.length post.
Proof.
  induction 1 as [|line post S F IH]; intros st st' W; simpl.
  - intros [= <-]. exists []. now rewrite app_nil_r.
  - intros H. apply bind_ok in H. destruct H as (st1 & E & H).
    destruct (emit_step_keeps _ _ _ _ W S E) as (n1 & R1 & L1).
    destruct (IH _ _ (emit_step_refs_ok _ _ _ _ E W) H) as (n2 & R2 & L2).
    exists (n1 ++ n2). rewrite R2, R1, <- app_assoc. split; [reflexivity|].
    rewrite length_app. lia.
Qed.

(** X12.  Operations are emitted in the order of the statements and, once
    emitted, stay as they are: when every statement of the rest of a
    program binds its target or is not an uncontrolled two-qubit gate, the
    circuit of the whole program is the circuit of its first part followed
    by at most one operation per statement of the rest. *)
Theorem circuit_of_prefix_kept (qname : list (string * nat))
  (pre post : list string) (circuit : list pydict) :
  Forall (keeps_earlier qname) post ->
  translate_circuit qname (pre ++ post) = Ok circuit ->
  exists first new,
    translate_circuit qname pre = Ok first
    /\ circuit = first ++ new
    /\ List.length new <= List.length post.
Proof.
  intros F. unfold translate_circuit.
  destruct (0 <? List.length qname).
  - rewrite emit_loop_app.
    destruct (emit_loop qname pre emit_init) as [st|] eqn:L; [|discriminate].
    simpl. intros H. apply bind_ok in H. destruct H as (st' & E & H).
    inversion H; subst circuit.
    assert (W : refs_ok emit_init)
      by (repeat split; [constructor|discriminate|discriminate]).
    destruct (emit_loop_keeps _ _ F _ _ (emit_loop_refs_ok _ _ _ _ L W) E)
      as (new & R & Ln).
    exists (render st), new. auto.
  - intros [= <-]. exists [], []. repeat split. simpl. lia.
Qed.

Lemma circuit_of_prefix_kept_witness :
  exists first new,
    translate_circuit two_qubits ["h q[0]"] = Ok first
    /\ [[("gate", VStr "h"); ("target", qubit 0)];
        [("gate", VStr "swap"); ("targets", qubits [1; 0])]]
       = first ++ new
    /\ List.length new <= 2.
Proof.
  apply (circuit_of_prefix_kept two_qubits ["h q[0]"]
           ["swap q[0],q[1]"; "barrier q[0]"]).
  - constructor; [|constructor; [|constructor]].
    + left. exists "q[0],q[1]". split; reflexivity.
    + right. reflexivity.
  - reflexivity.
Defined.

(** The condition is needed: an uncontrolled gate whose last operand is not
    a declared qubit appends to the list of an earlier operation. *)
Example stale_target_list_shared :
  translate_circuit two_qubits ["cx q[0],q[1]"]
  = Ok [[("gate", VStr "x"); ("targets", qubits [1]); ("controls", qubits [0])]]
  /\ translate_circuit two_qubits ["cx q[0],q[1]"; "swap q[0],r"]
     = Ok [[("gate", VStr "x"); ("targets", qubits [1; 0]);
            ("controls", qubits [0])];
           [("gate", VStr "swap"); ("targets", qubits [1; 0])]].
Proof. split; reflexivity. Qed.

(** ** More on the polling loop *)

Lemma occurrences_app (e : event) (a b : list event) :
  occurrences e (a ++ b) = occurrences e a + occurrences e b.
Proof. unfold occurrences. now rewrite filter_app, length_app. Qed.

Lemma poll_step (fuel : nat) (svc : service) (w : Z) (p r : bool)
  (nj nr : nat) (tr : list event) :
  (0 <= w)%Z ->
  poll (S fuel) svc w p r nj nr tr
  = let rest (w' : Z) (nr' : nat) (tr' : list event) :=
      poll fuel svc (w' - 1)%Z false true (S nj) nr'
        ((if p then tr' ++ [Print] else tr') ++ [Sleep]) in
    match job_reply svc nj with
    | HttpOk data =>
        let w' :=
          if (String.eqb (job_status data) "failed"
              || String.eqb (job_status data) "canceled")%bool
          then 0%Z else w in
        if String.eqb (job_status data) "completed" then
          match results_reply svc nr with
          | HttpOk resdata =>
              Some (tr ++ [GetJob; GetResults], with_results data resdata)
          | HttpError => rest w' (S nr) (tr ++ [GetJob; GetResults; Print])
          end
        else if (w' <=? 0)%Z then
          Some (tr ++ [GetJob], Ok (JobInfo data None))
        else rest w' nr (tr ++ [GetJob])
    | HttpError => rest w nr (tr ++ [GetJob])
    end.
Proof.
  intros W. simpl. destruct (w <? 0)%Z eqn:E; [|reflexivity].
  apply Z.ltb_lt in E. lia.
Qed.

(** What the arithmetic on the results returns is the job data with the
    results, never the error of the exhausted loop. *)
Lemma with_results_data (data : job_data) (resdata : list (Z * num)) :
  with_results data resdata <> Ok ResponseError.
Proof.
  unfold with_results.
  destruct (match job_shots data with
            | Some n => to_float n
            | None => Ok 1024%float
            end) as [shots|x]; [|discriminate].
  cbn [bind]. destruct (reconcile shots (job_qubits data) resdata);
    discriminate.
Qed.

(** What a run of the loop adds to the trace. *)
Lemma poll_counts (svc : service) (fuel : nat) :
  forall (w : Z) (p r : bool) (nj nr : nat) (tr tr' : list event)
         (out : result retrieved),
    poll fuel svc w p r nj nr tr = Some (tr', out) ->
    exists more,
      tr' = tr ++ more
      /\ occurrences GetJob more <= Z.to_nat (w + 1)
      /\ occurrences Sleep more <= occurrences GetJob more
      /\ occurrences GetResults more <= occurrences GetJob more
      /\ (out = Ok ResponseError ->
          occurrences GetJob more = Z.to_nat (w + 1)
          /\ occurrences Sleep more = Z.to_nat (w + 1)).
Proof.
  induction fuel as [|fuel IH]; intros w p r nj nr tr tr' out H.
  - simpl in H. destruct (w <? 0)%Z eqn:W; [|discriminate].
    apply Z.ltb_lt in W. inversion H; subst. exists [].
    rewrite app_nil_r. replace (Z.to_nat (w + 1)) with 0 by lia.
    repeat split; simpl; auto.
  - destruct (w <? 0)%Z eqn:W.
    { simpl in H. rewrite W in H. apply Z.ltb_lt in W. inversion H; subst.
      exists []. rewrite app_nil_r. replace (Z.to_nat (w + 1)) with 0 by lia.
      repeat split; simpl; auto. }
    apply Z.ltb_ge in W. rewrite (poll_step _ _ _ _ _ _ _ _ W) in H.
    cbv zeta in H.
    assert (Rest : forall w' nr' pre,
               w' = w ->
               occurrences GetJob pre = 1 -> occurrences Sleep pre = 0 ->
               occurrences GetResults pre <= 1 ->
               poll fuel svc (w' - 1) false true (S nj) nr'
                 ((if p then (tr ++ pre) ++ [Print] else tr ++ pre) ++ [Sleep])
               = Some (tr', out) ->
               exists more,
                 tr' = tr ++ more
                 /\ occurrences GetJob more <= Z.to_nat (w + 1)
                 /\ occurrences Sleep more <= occurrences GetJob more
                 /\ occurrences GetResults more <= occurrences GetJob more
                 /\ (out = Ok ResponseError ->
                     occurrences GetJob more = Z.to_nat (w + 1)
                     /\ occurrences Sleep more = Z.to_nat (w + 1))).
    { intros w' nr' pre -> G Sl Rr P. apply IH in P.
      destruct P as (more & -> & A & B & C & D).
      replace (w - 1 + 1)%Z with w in * by lia.
      exists (pre ++ (if p then [Print] else []) ++ [Sleep] ++ more).
      split.
      { destruct p; simpl; rewrite <- ?app_assoc; simpl;
          rewrite <- ?app_assoc; reflexivity. }
      rewrite !occurrences_app.
      assert (Pp : forall e, e <> Print ->
                   occurrences e (if p then [Print] else []) = 0)
        by (intros e Ne; destruct p, e; try reflexivity; now destruct Ne).
      rewrite !Pp by discriminate.
      change (occurrences GetJob [Sleep]) with 0.
      change (occurrences Sleep [Sleep]) with 1.
      change (occurrences GetResults [Sleep]) with 0.
      rewrite G, Sl. replace (Z.to_nat (w + 1)) with (S (Z.to_nat w)) by lia.
      split; [lia|]. split; [lia|]. split; [lia|].
      intros O. destruct (D O). lia. }
    destruct (job_reply svc nj) as [data|].
    + destruct (String.eqb (job_status data) "completed") eqn:Cm.
      * assert (Wd : (if (String.eqb (job_status data) "failed"
                          || String.eqb (job_status data) "canceled")%bool
                      then 0%Z else w) = w).
        { apply String.eqb_eq in Cm. rewrite Cm. reflexivity. }
        destruct (results_reply svc nr) as [resdata|].
        -- inversion H; subst. exists [GetJob; GetResults].
           replace (Z.to_nat (w + 1)) with (S (Z.to_nat w)) by lia.
           unfold occurrences. simpl.
           split; [reflexivity|]. split; [lia|]. split; [lia|]. split; [lia|].
           intros O. now apply with_results_data in O.
        -- apply (Rest _ _ [GetJob; GetResults; Print] Wd) in H; auto.
      * destruct (_ || _)%bool eqn:Fc.
        -- simpl in H. inversion H; subst. exists [GetJob].
           replace (Z.to_nat (w + 1)) with (S (Z.to_nat w)) by lia.
           unfold occurrences. simpl.
           split; [reflexivity|]. split; [lia|]. split; [lia|]. split; [lia|].
           discriminate.
        -- destruct (w <=? 0)%Z eqn:Wz.
           ++ inversion H; subst. exists [GetJob].
              replace (Z.to_nat (w + 1)) with (S (Z.to_nat w)) by lia.
              unfold occurrences. simpl.
              split; [reflexivity|]. split; [lia|]. split; [lia|].
              split; [lia|]. discriminate.
           ++ apply (Rest _ _ [GetJob] eq_refl) in H; auto.
    + apply (Rest _ _ [GetJob] eq_refl) in H; auto.
Qed.

(** X13.  With a valid identifier and a wait that is not negative, the
    call returns after at most [4 * wait_minutes + 1] job requests; it
    sleeps at most once per request and fetches results at most once per
    request; and when it returns the error of an unanswered request, it
    has used the whole budget: exactly [4 * wait_minutes + 1] requests and
    as many sleeps. *)
Theorem retrieve_job_bounded (svc : service) (jobid : jobid_arg)
  (id : string) (wait_minutes : Z) :
  validate_jobid_hash jobid = JobId id ->
  (0 <= wait_minutes)%Z ->
  exists tr out,
    retrieve_job svc jobid wait_minutes = Some (tr, out)
    /\ occurrences GetJob tr <= Z.to_nat (4 * wait_minutes + 1)
    /\ occurrences Sleep tr <= occurrences GetJob tr
    /\ occurrences GetResults tr <= occurrences GetJob tr
    /\ (out = Ok ResponseError ->
        occurrences GetJob tr = Z.to_nat (4 * wait_minutes + 1)
        /\ occurrences Sleep tr = Z.to_nat (4 * wait_minutes + 1)).
Proof.
  intros V W. unfold retrieve_job. rewrite V.
  destruct (poll (S (Z.to_nat (wait_minutes * 4))) svc (wait_minutes * 4)
              true false 0 0 []) as [[tr out]|] eqn:P.
  - exists tr, out. split; [reflexivity|].
    apply poll_counts in P. destruct P as (more & -> & A & B & C & D).
    change ([] ++ more) with more.
    replace (4 * wait_minutes + 1)%Z with (wait_minutes * 4 + 1)%Z by lia.
    auto.
  - exfalso. revert P. apply poll_fuel. lia.
Qed.

Lemma retrieve_job_bounded_witness :
  exists tr out,
    retrieve_job completed_without_results (JStr sample_jobid) 1
    = Some (tr, out)
    /\ occurrences GetJob tr <= 5.
Proof.
  assert (W : (0 <= 1)%Z) by lia.
  destruct (retrieve_job_bounded completed_without_results
              (JStr sample_jobid) sample_jobid 1 eq_refl W)
    as (tr & out & R & G & _).
  exists tr, out. split; [exact R|exact G].
Defined.

(** X14.  Whatever the wait, a first answer that the job failed or was
    canceled ends the call at once with the job data, and a first answer
    that it completed, with results that can be fetched, ends it right
    after the fetch: one job request, no sleep. *)
Theorem terminal_status_ends_polling (svc : service) (jobid : jobid_arg)
  (id : string) (wait_minutes : Z) (data : job_data) :
  validate_jobid_hash jobid = JobId id ->
  (0 <= wait_minutes)%Z ->
  job_reply svc 0 = HttpOk data ->
  (job_status data = "failed" \/ job_status data = "canceled" ->
   retrieve_job svc jobid wait_minutes
   = Some ([GetJob], Ok (JobInfo data None)))
  /\ (forall resdata,
        job_status data = "completed" ->
        results_reply svc 0 = HttpOk resdata ->
        retrieve_job svc jobid wait_minutes
        = Some ([GetJob; GetResults], with_results data resdata)).
Proof.
  intros V W J. unfold retrieve_job. rewrite V.
  rewrite poll_step by lia. cbv zeta. rewrite J. split.
  - intros [S|S]; rewrite S; reflexivity.
  - intros resdata S R. rewrite S, R. reflexivity.
Qed.

Lemma terminal_status_ends_polling_witness :
  retrieve_job (Service (fun _ => HttpOk (JobData "failed" None 2))
                  (fun _ => HttpError))
    (JStr sample_jobid) 30
  = Some ([GetJob], Ok (JobInfo (JobData "failed" None 2) None)).
Proof.
  assert (W : (0 <= 30)%Z) by lia.
  apply (proj1 (terminal_status_ends_polling
                  (Service (fun _ => HttpOk (JobData "failed" None 2))
                     (fun _ => HttpError))
                  (JStr sample_jobid) sample_jobid 30
                  (JobData "failed" None 2) eq_refl W eq_refl)).
  now left.
Defined.

(** X15.  With a valid identifier and a negative wait the loop is not
    entered: no request is sent and the [return] after the loop reads
    [response], which was never assigned. *)
Theorem negative_wait_raises (svc : service) (jobid : jobid_arg)
  (id : string) (wait_minutes : Z) :
  validate_jobid_hash jobid = JobId id ->
  (wait_minutes < 0)%Z ->
  retrieve_job svc jobid wait_minutes = Some ([], Raise NameError).
Proof.
  intros V W. unfold retrieve_job. rewrite V. simpl.
  destruct (wait_minutes * 4 <? 0)%Z eqn:E; [reflexivity|].
  apply Z.ltb_ge in E. lia.
Qed.

Lemma negative_wait_raises_witness :
  retrieve_job completed_without_results (JStr sample_jobid) (-1)
  = Some ([], Raise NameError).
Proof.
  assert (W : (-1 < 0)%Z) by lia.
  exact (negative_wait_raises completed_without_results (JStr sample_jobid)
           sample_jobid (-1) eq_refl W).
Defined.

(** ** Stripping *)

Lemma lstrip_first (c : ascii) (r : list ascii) :
  py_isspace c = false -> lstrip (c :: r) = c :: r.
Proof. intros H. simpl. now rewrite H. Qed.

Lemma lstrip_spaces (l s : list ascii) :
  forallb py_isspace l = true -> lstrip (l ++ s) = lstrip s.
Proof.
  induction l as [|c l IH]; simpl; [reflexivity|].
  intros H. apply andb_prop in H. destruct H as [-> H]. auto.
Qed.

(** A string that begins and ends with characters that are not whitespace,
    between whitespace, is what stripping leaves. *)
Lemma strip_padded (l m r : list ascii) (a b : ascii) (m' : list ascii) :
  forallb py_isspace l = true -> forallb py_isspace r = true ->
  m = a :: m' -> last m a = b ->
  py_isspace a = false -> py_isspace b = false ->
  strip (l ++ m ++ r) = m.
Proof.
  intros Hl Hr Hm Hb Ha Hb'. unfold strip, rstrip.
  rewrite (lstrip_spaces _ _ Hl). subst m. simpl app.
  rewrite (lstrip_first _ _ Ha).
  change (a :: m' ++ r) with ((a :: m') ++ r). rewrite rev_app_distr.
  rewrite lstrip_spaces by (rewrite forallb_forall in *; intros x I;
                            apply Hr; now apply in_rev).
  assert (E : exists pre, a :: m' = pre ++ [b]).
  { destruct (exists_last (l := a :: m')) as (pre & x & E); [discriminate|].
    exists pre. rewrite E in Hb. rewrite last_last in Hb. now subst. }
  destruct E as (pre & E). rewrite E, rev_app_distr. simpl.
  rewrite Hb'. simpl. now rewrite rev_involutive.
Qed.

Lemma strip_clean (a b : ascii) (m' : list ascii) :
  last (a :: m') a = b -> py_isspace a = false -> py_isspace b = false ->
  strip (a :: m') = a :: m'.
Proof.
  intros Hb Ha Hb'.
  pose proof (strip_padded [] (a :: m') [] a b m' eq_refl eq_refl eq_refl
                Hb Ha Hb') as H.
  simpl in H. now rewrite app_nil_r in H.
Qed.

Lemma hexchar_not_space (c : ascii) :
  is_hexchar c = true -> py_isspace c = false.
Proof.
  destruct c as [[] [] [] [] [] [] [] []]; vm_compute; congruence.
Qed.

(** An identifier has no whitespace at its ends. *)
Lemma uid_shape_ends (cs : list ascii) :
  uid_shape cs ->
  exists a m', cs = a :: m' /\ py_isspace a = false
               /\ py_isspace (last cs a) = false.
Proof.
  intros (_ & _ & g1 & g2 & g3 & g4 & g5 & E & L1 & _ & _ & _ & L5 & F).
  repeat (apply Forall_app in F; destruct F as [? F]).
  destruct g1 as [|a g1]; [discriminate|].
  exists a, (g1 ++ "-"%char :: g2 ++ "-"%char :: g3 ++ "-"%char :: g4
               ++ "-"%char :: g5).
  split; [exact E|].
  assert (S : forall c g, Forall lower_hex_digit g -> In c g ->
                          py_isspace c = false).
  { intros c g Fg I. rewrite Forall_forall in Fg.
    apply hexchar_not_space, is_hexchar_spec. auto. }
  split; [apply (S a (a :: g1)); [assumption|now left]|].
  destruct (exists_last (l := g5)) as (pre & b & E5);
    [intros ->; discriminate|].
  subst g5. rewrite E.
  replace ((a :: g1) ++ "-"%char :: g2 ++ "-"%char :: g3 ++ "-"%char :: g4
             ++ "-"%char :: pre ++ [b])
    with (((a :: g1) ++ "-"%char :: g2 ++ "-"%char :: g3 ++ "-"%char :: g4
             ++ "-"%char :: pre) ++ [b])
    by (rewrite <- !app_assoc; simpl; rewrite <- !app_assoc; simpl;
        rewrite <- !app_assoc; simpl; rewrite <- !app_assoc; reflexivity).
  rewrite last_last. apply (S b (pre ++ [b])); [assumption|].
  apply in_or_app. right. now left.
Qed.

Lemma strip_uid (cs : list ascii) : uid_shape cs -> strip cs = cs.
Proof.
  intros U. destruct (uid_shape_ends cs U) as (a & m' & E & A & B).
  rewrite E in *. now apply (strip_clean a (last (a :: m') a)).
Qed.

Lemma validated_shape (a : jobid_arg) (id : string) :
  validate_jobid_hash a = JobId id -> uid_shape (chars id).
Proof.
  assert (V : forall x, validate_id x = JobId id -> uid_shape (chars id)).
  { intros x H.
    assert (E : id = x).
    { unfold validate_id in H. destruct (_ || _)%bool; [discriminate|].
      now apply check_hashes_id in H. }
    subst x. apply validate_id_ok. now rewrite str_chars. }
  destruct a as [[x|]|s|]; simpl; try discriminate; apply V.
Qed.

(** ** Identifiers, again *)

(** X16.  Validation is idempotent: an identifier that
    [validate_jobid_hash] returns is accepted again, unchanged, both as a
    string and as the ["id"] entry of a dictionary. *)
Theorem validated_id_revalidates (a : jobid_arg) (id : string) :
  validate_jobid_hash a = JobId id ->
  validate_jobid_hash (JStr id) = JobId id
  /\ validate_jobid_hash (JDict (Some id)) = JobId id.
Proof.
  intros H. apply validated_shape in H.
  assert (V : validate_id id = JobId id).
  { rewrite <- (str_chars id). apply validate_id_ok. exact H. }
  split; [|exact V]. simpl. rewrite (strip_uid _ H), str_chars. exact V.
Qed.

Lemma validated_id_revalidates_witness :
  validate_jobid_hash (JStr sample_jobid) = JobId sample_jobid
  /\ validate_jobid_hash (JDict (Some sample_jobid)) = JobId sample_jobid.
Proof.
  apply (validated_id_revalidates
           (JStr (String " " (sample_jobid ++ " "))) sample_jobid).
  reflexivity.
Defined.

(** X17.  After a successful [set_jobid_dict] (of a string, a list or a
    dictionary with a string under ["id"]) the stored
    [last_jobid_dict] is a dictionary with an identifier of the right
    shape once stripped; the stored dictionary itself passes
    [validate_jobid_hash] whenever the argument was a string or a list,
    and, for a dictionary argument, exactly when its identifier has no
    whitespace around it. *)
Theorem set_jobid_dict_stored (x : jobid_input) (d : jobid_arg) :
  set_jobid_dict x = Ok (Some d) ->
  exists id,
    d = JDict (Some id)
    /\ uid_shape (strip (chars id))
    /\ ((forall i, x <> IDict i) -> validate_jobid_hash d = JobId id)
    /\ ((exists e, validate_jobid_hash d = JobIdError e)
        <-> strip (chars id) <> chars id).
Proof.
  assert (Good : forall id, uid_shape (chars id) ->
                 exists id', JDict (Some id) = JDict (Some id')
                   /\ uid_shape (strip (chars id'))
                   /\ ((forall i, x <> IDict i) ->
                       validate_jobid_hash (JDict (Some id)) = JobId id')
                   /\ ((exists e, validate_jobid_hash (JDict (Some id))
                                  = JobIdError e)
                       <-> strip (chars id') <> chars id')).
  { intros id U. exists id. rewrite (strip_uid _ U).
    assert (V : validate_jobid_hash (JDict (Some id)) = JobId id).
    { simpl. rewrite <- (str_chars id). now apply validate_id_ok. }
    split; [reflexivity|]. split; [exact U|]. split; [intros _; exact V|].
    split; [intros [e E]; congruence|intros N; now destruct N]. }
  destruct x as [|s|[id|]|l|]; cbn [set_jobid_dict]; try discriminate.
  - destruct (validate_jobid_hash (JStr s)) as [id|] eqn:V; [|discriminate].
    intros [= <-]. apply Good. now apply (validated_shape (JStr s)).
  - destruct (validate_jobid_hash (JStr id)) as [id'|] eqn:V; [|discriminate].
    intros [= <-].
    assert (U : uid_shape (strip (chars id))).
    { assert (E : id' = str (strip (chars id))).
      { simpl in V. unfold validate_id in V.
        destruct (_ || _)%bool; [discriminate|].
        now apply check_hashes_id in V. }
      pose proof (validated_shape (JStr id) _ V) as U.
      rewrite E, chars_str in U. exact U. }
    exists id. split; [reflexivity|]. split; [exact U|].
    split; [intros N; now destruct (N (Some id))|].
    split.
    + intros [e E] Eq. rewrite Eq in U.
      apply validate_id_ok in U. rewrite str_chars in U. simpl in E.
      congruence.
    + intros N.
      destruct (validate_jobid_hash (JDict (Some id))) as [i|e] eqn:E;
        [|eauto].
      exfalso. apply N. apply strip_uid.
      pose proof (validated_shape _ _ E) as Ui.
      simpl in E. unfold validate_id in E.
      destruct (_ || _)%bool; [discriminate|].
      apply check_hashes_id in E. now subst i.
  - intros H. apply bind_ok in H. destruct H as (a & _ & H).
    destruct (validate_jobid_hash a) as [id|] eqn:V; [|discriminate].
    inversion H; subst d. apply Good. now apply (validated_shape a).
Qed.

Lemma set_jobid_dict_stored_witness :
  exists id,
    JDict (Some (String " " sample_jobid)) = JDict (Some id)
    /\ strip (chars id) <> chars id.
Proof.
  destruct (set_jobid_dict_stored (IDict (Some (String " " sample_jobid)))
              (JDict (Some (String " " sample_jobid))) eq_refl)
    as (id & E & _ & _ & W).
  exists id. split; [exact E|]. apply W.
  inversion E; subst id. eexists. reflexivity.
Defined.

(** ** Lists and files of identifiers *)

Lemma shape_validates (id : string) :
  uid_shape (chars id) -> validate_jobid_hash (JStr id) = JobId id.
Proof.
  intros U. simpl. rewrite (strip_uid _ U), str_chars.
  rewrite <- (str_chars id). now apply validate_id_ok.
Qed.

Lemma dict_set_In {A : Type} (k n : string) (x v : A)
  (d : list (string * A)) :
  In (n, v) (dict_set k x d) -> (n, v) = (k, x) \/ In (n, v) d.
Proof.
  induction d as [|[k' v'] d IH]; simpl.
  - intros [E|[]]. left. now symmetry.
  - destruct (String.eqb k k'); simpl.
    + intros [E|I]; [left; now symmetry|right; now right].
    + intros [E|I]; [right; now left|].
      destruct (IH I) as [E|I']; [now left|right; now right].
Qed.

Lemma dict_set_not_nil {A : Type} (k : string) (x : A)
  (d : list (string * A)) : dict_set k x d <> [].
Proof.
  destruct d as [|[k' v'] d]; simpl; [discriminate|].
  destruct (String.eqb k k'); discriminate.
Qed.

Lemma lookup_dict_set {A : Type} (k k' : string) (x : A)
  (d : list (string * A)) :
  lookup k (dict_set k' x d)
  = if String.eqb k k' then Some x else lookup k d.
Proof.
  induction d as [|[k0 v0] d IH]; simpl.
  - reflexivity.
  - destruct (String.eqb k' k0) eqn:E; simpl.
    + apply String.eqb_eq in E. subst k0.
      destruct (String.eqb k k'); reflexivity.
    + rewrite IH. destruct (String.eqb k k0) eqn:E0; [|reflexivity].
      apply String.eqb_eq in E0. subst k0.
      rewrite String.eqb_sym in E. now rewrite E.
Qed.

Lemma add_valid_keeps (name : string) (a : jobid_arg)
  (jobdict : list (string * string)) :
  all_valid jobdict -> all_valid (add_valid name a jobdict).
Proof.
  unfold add_valid. destruct (validate_jobid_hash a) as [id|] eqn:V; [|auto].
  intros H n i I. apply dict_set_In in I. destruct I as [E|I]; [|eauto].
  inversion E; subst. now apply (validated_shape a).
Qed.

Lemma from_list_keeps (nb : string) (l : list jobid_arg) :
  forall j jobdict, all_valid jobdict -> all_valid (from_list nb j l jobdict).
Proof.
  induction l as [|a l IH]; intros j jobdict H; simpl; [exact H|].
  apply IH. now apply add_valid_keeps.
Qed.

Lemma from_items_keeps (items : list (string * dval)) :
  forall jobdict, all_valid jobdict -> all_valid (from_items items jobdict).
Proof.
  induction items as [|[k v] r IH]; intros jobdict H; simpl; [exact H|].
  apply IH. now apply add_valid_keeps.
Qed.

Lemma from_lines_keeps (nb : string) (lines : list string) :
  forall j jobdict jobdict',
    all_valid jobdict -> from_lines nb j lines jobdict = Ok jobdict' ->
    all_valid jobdict'.
Proof.
  induction lines as [|line r IH]; intros j jobdict jobdict' H; simpl.
  - now intros [= <-].
  - intros F. apply bind_ok in F. destruct F as (d & L & F).
    refine (IH _ _ _ _ F). intros n id I.
    unfold from_line in L. apply bind_ok in L. destruct L as (c & _ & L).
    destruct (Ascii.eqb c "#"); [inversion L; subst; eauto|].
    destruct (validate_jobid_hash _) as [i|] eqn:V;
      [|inversion L; subst; eauto].
    pose proof (validated_shape _ _ V) as U.
    destruct (1 <? _); inversion L; subst; apply dict_set_In in I;
      (destruct I as [E|I]; [inversion E; subst; exact U|eauto]).
Qed.

Lemma all_valid_nil : all_valid [].
Proof. intros n id []. Qed.

(** X18.  Whatever the input (a list, a dictionary, a single string or a
    file), the mapping [get_jobids_from_input] returns is not empty and
    every identifier in it has the shape of a job identifier and passes
    [validate_jobid_hash] unchanged. *)
Theorem jobids_all_valid (fs : string -> option (list string))
  (x : ids_input) (name_base : string) (jobdict : list (string * string)) :
  get_jobids_from_input fs x name_base = Ok (Names jobdict) ->
  jobdict <> []
  /\ forall n id, In (n, id) jobdict ->
       uid_shape (chars id) /\ validate_jobid_hash (JStr id) = JobId id.
Proof.
  intros H.
  assert (G : jobdict <> [] /\ all_valid jobdict).
  { assert (J : forall nb l, from_jobidlist nb l = Names jobdict ->
                  jobdict <> [] /\ all_valid jobdict).
    { intros nb l. unfold from_jobidlist.
      destruct (List.length _ =? 0) eqn:E; [discriminate|].
      intros [= <-]. split.
      - intros N. rewrite N in E. discriminate.
      - apply from_list_keeps, all_valid_nil. }
    destruct x as [|name ids d|l|s|]; simpl in H; try discriminate.
    - destruct ids as [l|]; [inversion H; eauto|].
      destruct (lookup "id" d) as [[a|l]|]; try (inversion H; eauto).
      destruct (List.length _ =? 0) eqn:E; [discriminate|].
      inversion H; subst jobdict. split.
      + intros N. rewrite N in E. discriminate.
      + apply from_items_keeps, all_valid_nil.
    - inversion H; eauto.
    - destruct (fs s) as [lines|]; [|inversion H; eauto].
      apply bind_ok in H. destruct H as (d & L & H).
      destruct (List.length d =? 0) eqn:E; [inversion H; eauto|].
      inversion H; subst jobdict. split.
      + intros N. rewrite N in E. discriminate.
      + eapply from_lines_keeps; [apply all_valid_nil|exact L]. }
  destruct G as [N A]. split; [exact N|].
  intros n id I. pose proof (A _ _ I) as U. split; [exact U|].
  now apply shape_validates.
Qed.

Lemma jobids_all_valid_witness :
  validate_jobid_hash (JStr sample_jobid) = JobId sample_jobid.
Proof.
  refine (proj2 (proj2 (jobids_all_valid (fun _ => None)
                          (InList [JStr "no"; JStr sample_jobid]) "circuit_"
                          [("circuit_1", sample_jobid)] eq_refl)
                   "circuit_1" sample_jobid (or_introl eq_refl))).
Defined.

(** The names [f"{name_base}{j}"] of different indices are different. *)
Lemma py_str_nat_inj (i j : nat) : py_str_nat i = py_str_nat j -> i = j.
Proof.
  unfold py_str_nat. intros E.
  assert (U : Nat.to_uint i = Nat.to_uint j).
  { pose proof (NilEmpty.usu (Nat.to_uint i)) as A.
    pose proof (NilEmpty.usu (Nat.to_uint j)) as B.
    rewrite E in A. rewrite A in B. now inversion B. }
  rewrite <- (Unsigned.of_to i), <- (Unsigned.of_to j). now rewrite U.
Qed.

Lemma append_inj (a b c : string) : (a ++ b = a ++ c)%string -> b = c.
Proof.
  induction a as [|x a IH]; simpl; [auto|].
  intros E. inversion E. auto.
Qed.

Lemma indexed_name_inj (nb : string) (i j : nat) :
  i <> j -> String.eqb (nb ++ py_str_nat i) (nb ++ py_str_nat j) = false.
Proof.
  intros N. apply String.eqb_neq. intros E.
  apply N, py_str_nat_inj. now apply append_inj in E.
Qed.

Lemma lookup_add_valid_other (nb : string) (i j : nat) (a : jobid_arg)
  (jobdict : list (string * string)) :
  i <> j ->
  lookup (nb ++ py_str_nat i) (add_valid (nb ++ py_str_nat j) a jobdict)
  = lookup (nb ++ py_str_nat i) jobdict.
Proof.
  intros N. unfold add_valid. destruct (validate_jobid_hash a); [|reflexivity].
  now rewrite lookup_dict_set, indexed_name_inj.
Qed.

Lemma from_list_lookup (nb : string) (l : list jobid_arg) :
  forall j0 jobdict i,
    lookup (nb ++ py_str_nat i) (from_list nb j0 l jobdict)
    = match (if j0 <=? i then nth_error l (i - j0) else None) with
      | Some a =>
          match validate_jobid_hash a with
          | JobId id => Some id
          | JobIdError _ => lookup (nb ++ py_str_nat i) jobdict
          end
      | None => lookup (nb ++ py_str_nat i) jobdict
      end.
Proof.
  induction l as [|a l IH]; intros j0 jobdict i.
  - simpl. destruct (j0 <=? i); [|reflexivity].
    now destruct (i - j0).
  - simpl from_list. rewrite IH.
    destruct (Nat.lt_trichotomy i j0) as [L|[E|G]].
    + assert (A : (S j0 <=? i) = false) by (apply Nat.leb_gt; lia).
      assert (B : (j0 <=? i) = false) by (apply Nat.leb_gt; lia).
      rewrite A, B. apply lookup_add_valid_other. lia.
    + subst i.
      assert (A : (S j0 <=? j0) = false) by (apply Nat.leb_gt; lia).
      rewrite A, Nat.leb_refl, Nat.sub_diag. simpl nth_error.
      unfold add_valid. destruct (validate_jobid_hash a); [|reflexivity].
      now rewrite lookup_dict_set, String.eqb_refl.
    + assert (A : (S j0 <=? i) = true) by (apply Nat.leb_le; lia).
      assert (B : (j0 <=? i) = true) by (apply Nat.leb_le; lia).
      rewrite A, B. replace (i - j0) with (S (i - S j0)) by lia.
      simpl nth_error. rewrite lookup_add_valid_other by lia. reflexivity.
Qed.

Lemma from_list_nil (nb : string) (l : list jobid_arg) :
  forall j jobdict,
    from_list nb j l jobdict = []
    <-> jobdict = []
        /\ forall a, In a l -> exists e, validate_jobid_hash a = JobIdError e.
Proof.
  induction l as [|a l IH]; intros j jobdict; simpl.
  - split; [intros ->; split; [reflexivity|intros a []]|now intros [-> _]].
  - rewrite IH. unfold add_valid.
    destruct (validate_jobid_hash a) as [id|e] eqn:V.
    + split.
      * intros [N _]. now apply dict_set_not_nil in N.
      * intros [_ H]. destruct (H a (or_introl eq_refl)) as [e E].
        rewrite V in E. discriminate.
    + split.
      * intros [-> H]. split; [reflexivity|].
        intros b [<-|I]; [now exists e|auto].
      * intros [-> H]. split; [reflexivity|]. intros b I. apply H. now right.
Qed.

(** X19.  Given a list, [get_jobids_from_input] names the valid entries by
    their position: entry [j] is found under [f"{name_base}{j}"] exactly
    when it is valid, with its identifier, and the invalid entries leave no
    name behind; the error for no valid identifier is returned exactly when
    every entry is invalid (also for the empty list). *)
Theorem listed_ids_named_by_position (fs : string -> option (list string))
  (l : list jobid_arg) (name_base : string) :
  (forall j id,
     (exists jobdict,
        get_jobids_from_input fs (InList l) name_base = Ok (Names jobdict)
        /\ lookup (name_base ++ py_str_nat j) jobdict = Some id)
     <-> (exists a, nth_error l j = Some a /\ validate_jobid_hash a = JobId id))
  /\ (get_jobids_from_input fs (InList l) name_base = Ok (IdsError NoValidIds)
      <-> forall a, In a l -> exists e, validate_jobid_hash a = JobIdError e).
Proof.
  assert (L : forall j,
             lookup (name_base ++ py_str_nat j) (from_list name_base 0 l [])
             = match nth_error l j with
               | Some a => match validate_jobid_hash a with
                           | JobId id => Some id
                           | JobIdError _ => None
                           end
               | None => None
               end).
  { intros j. rewrite from_list_lookup. simpl. now rewrite Nat.sub_0_r. }
  simpl. unfold from_jobidlist.
  destruct (List.length (from_list name_base 0 l []) =? 0) eqn:E.
  - apply Nat.eqb_eq, length_zero_iff_nil in E. split.
    + intros j id. split; [intros (jd & H & _); discriminate|].
      intros (a & N & V). specialize (L j). rewrite E, N, V in L.
      discriminate.
    + split; [intros _|reflexivity]. now apply from_list_nil in E.
  - split.
    + intros j id. split.
      * intros (jd & H & K). inversion H; subst jd. rewrite L in K.
        destruct (nth_error l j) as [a|]; [|discriminate]. exists a.
        split; [reflexivity|].
        destruct (validate_jobid_hash a); now inversion K.
      * intros (a & N & V). eexists. split; [reflexivity|].
        now rewrite L, N, V.
    + split; [discriminate|]. intros H.
      assert (N : from_list name_base 0 l [] = [])
        by (apply from_list_nil; auto).
      rewrite N in E. discriminate.
Qed.

(** *** A file written by [submit_job], read back *)

Lemma chars_app (a b : string) : chars (a ++ b) = chars a ++ chars b.
Proof.
  induction a as [|c a IH]; simpl; [reflexivity|].
  unfold chars in *. simpl. now rewrite IH.
Qed.

Lemma uid_no_colon (cs : list ascii) : uid_shape cs -> ~ In ":"%char cs.
Proof.
  intros (_ & _ & g1 & g2 & g3 & g4 & g5 & E & _ & _ & _ & _ & _ & F) I.
  assert (H : forall g, Forall lower_hex_digit g -> ~ In ":"%char g).
  { intros g G J. rewrite Forall_forall in G. apply G in J.
    unfold lower_hex_digit in J. vm_compute in J. lia. }
  repeat (apply Forall_app in F; destruct F as [? F]).
  subst cs.
  repeat (apply in_app_or in I; destruct I as [I|I];
          [revert I; apply H; assumption|];
          destruct I as [I|I]; [discriminate|]).
  revert I. apply H. assumption.
Qed.

Lemma last_split {A : Type} (a : A) (m : list A) :
  exists pre, a :: m = pre ++ [last (a :: m) a].
Proof.
  exists (removelast (a :: m)). now apply app_removelast_last.
Qed.

Lemma chars_log_line (ts id : string) :
  chars (log_line ts id)
  = chars ts
    ++ (" "%char :: ":"%char :: " "%char :: chars id) ++ ["010"%char].
Proof.
  unfold log_line. rewrite chars_app.
  change (chars (" : " ++ id ++ String "010" ""))
    with (" "%char :: ":"%char :: " "%char :: chars (id ++ String "010" "")).
  now rewrite chars_app.
Qed.

Lemma from_line_logged (nb : string) (j : nat) (ts id : string)
  (jobdict : list (string * string)) :
  timestamp_ok ts -> uid_shape (chars id) ->
  from_line nb j (log_line ts id) jobdict = Ok (dict_set ts id jobdict).
Proof.
  intros (c & r & E & Hash & Sc & Sl & Colon) U.
  destruct (uid_shape_ends _ U) as (a & m' & Ei & Sa & Sb).
  unfold from_line. rewrite chars_log_line.
  assert (I0 : item (chars ts ++ (" "%char :: ":"%char :: " "%char :: chars id)
                       ++ ["010"%char]) 0 = Ok c) by now rewrite E.
  rewrite I0. cbn [bind].
  assert (N : Ascii.eqb c "#" = false) by now apply Ascii.eqb_neq.
  rewrite N.
  set (m := chars ts ++ " "%char :: ":"%char :: " "%char :: chars id).
  assert (St : strip (chars ts
                      ++ (" "%char :: ":"%char :: " "%char :: chars id)
                      ++ ["010"%char]) = m).
  { rewrite app_assoc. fold m.
    destruct (last_split a m') as [pre P]. rewrite <- Ei in P.
    apply (strip_padded [] m ["010"%char] c (last (chars id) a)
             (r ++ " "%char :: ":"%char :: " "%char :: chars id));
      try reflexivity; try assumption.
    - unfold m. now rewrite E.
    - unfold m. rewrite P at 1.
      change (chars ts ++ " "%char :: ":"%char :: " "%char
                :: pre ++ [last (chars id) a])
        with (chars ts ++ [" "%char; ":"%char; " "%char]
                ++ pre ++ [last (chars id) a]).
      rewrite !app_assoc. apply last_last. }
  rewrite St.
  assert (Sp : split ":" m
               = [chars ts ++ [" "%char]; " "%char :: chars id]).
  { unfold m.
    change (chars ts ++ " "%char :: ":"%char :: " "%char :: chars id)
      with (chars ts ++ [" "%char] ++ ":"%char :: " "%char :: chars id).
    rewrite app_assoc, split_app.
    - rewrite split_free; [reflexivity|].
      intros [X|X]; [discriminate|]. now apply (uid_no_colon _ U).
    - intros X. apply in_app_or in X.
      destruct X as [X|[X|[]]]; [tauto|discriminate]. }
  rewrite Sp. cbn [last hd List.length].
  change (strip (" "%char :: chars id)) with (strip (chars id)).
  rewrite (strip_uid _ U), str_chars, (shape_validates _ U).
  change (1 <? 2) with true. cbv iota.
  assert (T : strip (chars ts ++ [" "%char]) = chars ts).
  { apply (strip_padded [] (chars ts) [" "%char] c (last (chars ts) c) r);
      try reflexivity; assumption. }
  now rewrite T, str_chars.
Qed.

Lemma from_lines_logged (nb : string) (entries : list (string * string)) :
  (forall ts id, In (ts, id) entries ->
                 timestamp_ok ts /\ uid_shape (chars id)) ->
  forall j jobdict,
    from_lines nb j (map (fun e => log_line (fst e) (snd e)) entries) jobdict
    = Ok (fold_left (fun d e => dict_set (fst e) (snd e) d) entries jobdict).
Proof.
  induction entries as [|[ts id] es IH]; intros H j jobdict; simpl;
    [reflexivity|].
  destruct (H ts id (or_introl eq_refl)) as [T U].
  rewrite (from_line_logged _ _ _ _ _ T U). cbn [bind].
  apply IH. intros ts' id' I. apply H. now right.
Qed.

Lemma logged_snoc (es : list (string * string)) (e : string * string) :
  logged (es ++ [e]) = dict_set (fst e) (snd e) (logged es).
Proof. unfold logged. now rewrite fold_left_app. Qed.

Lemma logged_lookup (entries : list (string * string)) :
  NoDup (map fst entries) ->
  forall ts id, In (ts, id) entries -> lookup ts (logged entries) = Some id.
Proof.
  induction entries as [|[ts' id'] es IH] using rev_ind; intros N ts id I;
    [destruct I|].
  rewrite logged_snoc, lookup_dict_set. simpl fst. simpl snd.
  rewrite map_app in N. simpl in N. apply NoDup_remove in N.
  rewrite app_nil_r in N. destruct N as [N M].
  apply in_app_or in I. destruct I as [I|[I|[]]].
  - destruct (String.eqb ts ts') eqn:E.
    + apply String.eqb_eq in E. subst ts'. exfalso. apply M.
      change ts with (fst (ts, id)). now apply in_map.
    + now apply IH.
  - inversion I; subst. now rewrite String.eqb_refl.
Qed.

(** X20.  The file of identifiers that [submit_job] writes is read back by
    [get_jobids_from_input]: from a file whose lines are
    [f"{timestamp} : {id}\n"], with timestamps that have no colon, do not
    begin with [#] and have no whitespace at their ends, and identifiers of
    the right shape, the mapping returned is the one built from the
    entries in order, and with different timestamps every job is found
    under its timestamp. *)
Theorem logged_ids_read_back (fs : string -> option (list string))
  (path name_base : string) (entries : list (string * string)) :
  fs path = Some (map (fun e => log_line (fst e) (snd e)) entries) ->
  entries <> [] ->
  (forall ts id, In (ts, id) entries ->
                 timestamp_ok ts /\ uid_shape (chars id)) ->
  get_jobids_from_input fs (InStr path) name_base
  = Ok (Names (logged entries))
  /\ (NoDup (map fst entries) ->
      forall ts id, In (ts, id) entries ->
                    lookup ts (logged entries) = Some id).
Proof.
  intros F N H. split; [|apply logged_lookup].
  simpl. rewrite F, (from_lines_logged _ _ H). cbn [bind]. fold (logged entries).
  destruct (List.length (logged entries) =? 0) eqn:E; [|reflexivity].
  apply Nat.eqb_eq, length_zero_iff_nil in E. exfalso.
  destruct entries as [|e es] using rev_ind; [now apply N|].
  rewrite logged_snoc in E. now apply dict_set_not_nil in E.
Qed.

Lemma logged_ids_read_back_witness :
  get_jobids_from_input
    (fun _ => Some [log_line "2024.01.31-12_00_00" sample_jobid])
    (InStr "qpu_jobs.txt") "circuit_"
  = Ok (Names [("2024.01.31-12_00_00", sample_jobid)]).
Proof.
  refine (proj1 (logged_ids_read_back _ "qpu_jobs.txt" "circuit_"
                   [("2024.01.31-12_00_00", sample_jobid)] eq_refl _ _)).
  - discriminate.
  - intros ts id [E|[]]. inversion E; subst. split.
    + exists "2"%char, (chars "024.01.31-12_00_00").
      split; [reflexivity|]. split; [discriminate|].
      split; [reflexivity|]. split; [reflexivity|].
      vm_compute. intuition discriminate.
    + apply validate_id_ok. reflexivity.
Defined.

(** ** Registers *)

Lemma digit_plain (c : ascii) :
  is_digit c = true ->
  py_isspace c = false
  /\ c <> ","%char /\ c <> "["%char /\ c <> "]"%char
  /\ Ascii.eqb c "-" = false /\ Ascii.eqb c "+" = false
  /\ Ascii.eqb c "_" = false.
Proof.
  destruct c as [[] [] [] [] [] [] [] []]; vm_compute; intros H;
    try discriminate H;
    (split; [reflexivity|]); (split; [discriminate|]);
    (split; [discriminate|]); (split; [discriminate|]);
    (split; [reflexivity|]); split; reflexivity.
Qed.

Lemma digit_chars (d : Decimal.uint) :
  forallb is_digit (chars (NilEmpty.string_of_uint d)) = true.
Proof.
  unfold chars. induction d; simpl; try reflexivity; exact IHd.
Qed.

Lemma strip_nospace (l : list ascii) :
  forallb (fun c => negb (py_isspace c)) l = true -> strip l = l.
Proof.
  intros H.
  assert (L : forall m, forallb (fun c => negb (py_isspace c)) m = true ->
                        lstrip m = m).
  { intros [|c m]; simpl; [reflexivity|]. intros K.
    apply andb_prop in K. destruct K as [K _].
    now destruct (py_isspace c). }
  unfold strip, rstrip. rewrite (L l H).
  rewrite L; [apply rev_involutive|].
  rewrite forallb_forall in *. intros x I. apply H. now apply in_rev.
Qed.

Lemma int_digits_step (c : ascii) (k acc : nat) (r : list ascii) :
  digit_value c = Some k ->
  int_digits acc (c :: r) = int_digits (10 * acc + k) r.
Proof.
  intros H.
  assert (D : is_digit c = true) by (unfold is_digit; now rewrite H).
  destruct (digit_plain c D) as (_ & _ & _ & _ & _ & _ & U).
  cbn [int_digits]. now rewrite U, H.
Qed.

Lemma int_digits_uint (d : Decimal.uint) :
  forall acc,
    int_digits acc (list_ascii_of_string (NilEmpty.string_of_uint d))
    = Some (Nat.of_uint_acc d acc).
Proof.
  induction d; intros acc;
    cbn [NilEmpty.string_of_uint list_ascii_of_string Nat.of_uint_acc];
    [reflexivity|..];
    (erewrite int_digits_step by reflexivity);
    rewrite IHd, Nat.tail_mul_spec; apply f_equal; apply f_equal;
    match goal with
    | |- context [nat_of_ascii ?c - 48] =>
        let v := eval vm_compute in (nat_of_ascii c - 48) in
        change (nat_of_ascii c - 48) with v
    end; lia.
Qed.

Lemma to_uint_not_nil (n : nat) : Nat.to_uint n <> Decimal.Nil.
Proof.
  unfold Nat.to_uint. intros E. apply DecimalFacts.rev_nil_inv in E. revert E.
  assert (G : forall m acc, acc <> Decimal.Nil ->
                            Nat.to_little_uint m acc <> Decimal.Nil).
  { induction m as [|m IH]; intros acc A; simpl; [exact A|].
    apply IH. destruct acc; simpl; discriminate. }
  apply G. discriminate.
Qed.

(** [int(str(n))] is [n]. *)
Lemma py_int_str_nat (n : nat) :
  py_int_str (chars (py_str_nat n)) = Some (Z.of_nat n).
Proof.
  unfold py_str_nat.
  pose proof (to_uint_not_nil n) as NN.
  pose proof (Unsigned.of_to n) as OT. unfold Nat.of_uint in OT.
  pose proof (int_digits_uint (Nat.to_uint n) 0) as ID.
  pose proof (digit_chars (Nat.to_uint n)) as DC.
  fold (chars (NilEmpty.string_of_uint (Nat.to_uint n))) in ID.
  rewrite OT in ID. clear OT.
  assert (St : strip (chars (NilEmpty.string_of_uint (Nat.to_uint n)))
               = chars (NilEmpty.string_of_uint (Nat.to_uint n))).
  { apply strip_nospace. rewrite forallb_forall in *. intros x I.
    destruct (digit_plain x (DC x I)) as [-> _]. reflexivity. }
  assert (F : exists c r, chars (NilEmpty.string_of_uint (Nat.to_uint n))
                          = c :: r).
  { destruct (Nat.to_uint n); [now destruct NN|..];
      eexists _, _; reflexivity. }
  destruct F as (c & r & F).
  unfold py_int_str. cbv zeta. rewrite St, F. rewrite F in DC, ID.
  simpl in DC. apply andb_prop in DC. destruct DC as [Dc _].
  destruct (digit_plain c Dc) as (_ & _ & _ & _ & M & P & _).
  rewrite M, P. cbn [snd fst].
  unfold is_digit in Dc. destruct (digit_value c) as [k|] eqn:K;
    [|discriminate].
  rewrite (int_digits_step c k 0 r K) in ID. simpl in ID.
  now rewrite ID.
Qed.

Lemma append_inj_r (a b c : string) : (a ++ c = b ++ c)%string -> a = b.
Proof.
  intros E. apply (f_equal chars) in E. rewrite !chars_app in E.
  apply app_inv_tail in E. apply (f_equal str) in E.
  now rewrite !str_chars in E.
Qed.

Lemma bit_name_inj (name : string) (i j : nat) :
  i <> j -> String.eqb (bit_name name i) (bit_name name j) = false.
Proof.
  intros N. apply String.eqb_neq. intros E. unfold bit_name in E.
  apply append_inj in E. simpl in E. inversion E as [E'].
  apply append_inj_r in E'. now apply py_str_nat_inj in E'.
Qed.

Lemma indexed_names_lookup (name : string) (count : nat) :
  forall j0 d i,
    lookup (bit_name name i) (indexed_names name j0 count d)
    = if (j0 <=? i) && (i <? j0 + count) then Some i
      else lookup (bit_name name i) d.
Proof.
  induction count as [|count IH]; intros j0 d i; cbn [indexed_names].
  - destruct (Nat.leb_spec j0 i), (Nat.ltb_spec i (j0 + 0)); simpl;
      try reflexivity; lia.
  - change (name ++ "[" ++ py_str_nat j0 ++ "]")%string
      with (bit_name name j0).
    rewrite IH, lookup_dict_set.
    destruct (Nat.eq_dec i j0) as [->|N].
    + rewrite String.eqb_refl.
      destruct (Nat.leb_spec (S j0) j0), (Nat.leb_spec j0 j0),
        (Nat.ltb_spec j0 (j0 + S count)); simpl; try reflexivity; lia.
    + rewrite (bit_name_inj _ _ _ N).
      destruct (Nat.leb_spec (S j0) i), (Nat.ltb_spec i (S j0 + count)),
        (Nat.leb_spec j0 i), (Nat.ltb_spec i (j0 + S count)); simpl;
        try reflexivity; lia.
Qed.

Lemma dict_set_length {A : Type} (k : string) (v : A)
  (d : list (string * A)) :
  lookup k d = None -> List.length (dict_set k v d) = S (List.length d).
Proof.
  induction d as [|[k' v'] d IH]; simpl; [reflexivity|].
  destruct (String.eqb k k'); [discriminate|].
  intros H. simpl. now rewrite IH.
Qed.

Lemma indexed_names_length (name : string) (count : nat) :
  forall j0 d,
    (forall i, j0 <= i -> lookup (bit_name name i) d = None) ->
    List.length (indexed_names name j0 count d) = count + List.length d.
Proof.
  induction count as [|count IH]; intros j0 d H; cbn [indexed_names];
    [reflexivity|].
  change (name ++ "[" ++ py_str_nat j0 ++ "]")%string
    with (bit_name name j0).
  rewrite IH.
  - rewrite dict_set_length by (apply H; lia). lia.
  - intros i L. rewrite lookup_dict_set, bit_name_inj by lia.
    apply H. lia.
Qed.

(** X21.  A register declared as [name[N]] gets exactly the [N] bits
    [name[0]] .. [name[N-1]], each mapped to its index, for a name without
    comma or opening bracket: the count written by [str] is read back by
    [int]. *)
Theorem register_declaration_indexed (name : string) (n : nat) :
  ~ In ","%char (chars name) -> ~ In "["%char (chars name) ->
  exists d,
    parse_register (bit_name name n) = Some d
    /\ List.length d = n
    /\ forall j, lookup (bit_name name j) d
                 = if j <? n then Some j else None.
Proof.
  intros Comma Bracket.
  exists (indexed_names name 0 n []). split; [|split].
  - pose proof (digit_chars (Nat.to_uint n)) as DC.
    fold (py_str_nat n) in DC. rewrite forallb_forall in DC.
    assert (C : chars (bit_name name n)
                = chars name ++ "["%char :: chars (py_str_nat n ++ "]")).
    { unfold bit_name. now rewrite chars_app. }
    assert (C' : chars (py_str_nat n ++ "]")
                 = chars (py_str_nat n) ++ ["]"%char])
      by now rewrite chars_app.
    assert (P : forall x, In x (chars (py_str_nat n)) ->
                          x <> ","%char /\ x <> "["%char).
    { intros x I. destruct (digit_plain x (DC x I)) as (_ & A & B & _).
      now split. }
    unfold parse_register, words.
    rewrite split_free.
    + cbn [map]. rewrite str_chars, C, split_app by exact Bracket.
      rewrite split_free.
      * rewrite C', removelast_last, py_int_str_nat, str_chars, Nat2Z.id.
        reflexivity.
      * rewrite C'. intros I. apply in_app_or in I.
        destruct I as [I|[I|[]]]; [apply P in I; tauto|discriminate].
    + rewrite C, C'. intros I. apply in_app_or in I.
      destruct I as [I|[I|I]]; [tauto|discriminate|].
      apply in_app_or in I.
      destruct I as [I|[I|[]]]; [apply P in I; tauto|discriminate].
  - rewrite indexed_names_length; [simpl; lia|reflexivity].
  - intros j. rewrite indexed_names_lookup. simpl.
    now destruct (j <? n).
Qed.

Lemma register_declaration_indexed_witness :
  exists d,
    parse_register "q[3]" = Some d
    /\ List.length d = 3
    /\ forall j, lookup (bit_name "q" j) d
                 = if j <? 3 then Some j else None.
Proof.
  apply (register_declaration_indexed "q" 3).
  - vm_compute. intuition discriminate.
  - vm_compute. intuition discriminate.
Defined.

(** ** The number of digits of the probabilities *)

Lemma count_digits_stops (n : Z) (fuel k : nat) :
  (n < 10 ^ Z.of_nat k)%Z -> count_digits fuel n k = Some k.
Proof.
  intros B.
  assert (E : (0 <? n / 10 ^ Z.of_nat k)%Z = false).
  { apply Z.ltb_ge.
    destruct (Z.le_gt_cases 0 n) as [P|P].
    - rewrite Z.div_small; lia.
    - assert (n / 10 ^ Z.of_nat k < 0)%Z; [|lia].
      apply Z.div_lt_upper_bound; lia. }
  destruct fuel; cbn [count_digits]; now rewrite E.
Qed.

Lemma count_digits_spec (n : Z) :
  forall fuel k,
    (0 < n)%Z -> (n < 10 ^ Z.of_nat (k + fuel))%Z ->
    (k = 0 \/ (10 ^ (Z.of_nat k - 1) <= n)%Z) ->
    exists r,
      count_digits fuel n k = Some r
      /\ 1 <= r
      /\ (10 ^ (Z.of_nat r - 1) <= n < 10 ^ Z.of_nat r)%Z.
Proof.
  assert (Stop : forall fuel k,
             (0 < n)%Z -> (n < 10 ^ Z.of_nat k)%Z ->
             (k = 0 \/ (10 ^ (Z.of_nat k - 1) <= n)%Z) ->
             exists r,
               count_digits fuel n k = Some r
               /\ 1 <= r
               /\ (10 ^ (Z.of_nat r - 1) <= n < 10 ^ Z.of_nat r)%Z).
  { intros fuel k P B L. exists k. split; [now apply count_digits_stops|].
    destruct L as [->|L]; [simpl in B; lia|].
    split; [|lia]. destruct k; [simpl in B; lia|lia]. }
  induction fuel as [|fuel IH]; intros k P B L.
  - rewrite Nat.add_0_r in B. now apply Stop.
  - destruct (Z.lt_ge_cases n (10 ^ Z.of_nat k)) as [Lt|Ge];
      [now apply Stop|].
    assert (E : (0 <? n / 10 ^ Z.of_nat k)%Z = true).
    { apply Z.ltb_lt, Z.div_str_pos. lia. }
    cbn [count_digits]. rewrite E. apply IH; [exact P| |].
    + now replace (S k + fuel) with (k + S fuel) by lia.
    + right. now replace (Z.of_nat (S k) - 1)%Z with (Z.of_nat k) by lia.
Qed.

(** X22.  With [rounded] below one, [extract_probabilities] rounds to the
    number of decimal digits of the number of shots (1024 when the job
    has none): the loop ends, with [r] such that
    [10^(r-1) <= shots < 10^r], and with no digit at all for a number of
    shots that is not positive. *)
Theorem auto_rounded_counts_digits (shots : option Z) :
  let n := match shots with Some n => n | None => 1024%Z end in
  exists r,
    auto_rounded shots = Some r
    /\ ((n <= 0)%Z -> r = 0)
    /\ ((0 < n)%Z ->
        1 <= r /\ (10 ^ (Z.of_nat r - 1) <= n < 10 ^ Z.of_nat r)%Z).
Proof.
  intros n. unfold auto_rounded. fold n.
  destruct (Z.le_gt_cases n 0) as [NP|P].
  - exists 0. split; [apply count_digits_stops; simpl; lia|].
    split; [reflexivity|lia].
  - destruct (count_digits_spec n (Z.to_nat n) 0 P) as (r & C & R & B).
    + simpl. rewrite Z2Nat.id by lia. apply Z.pow_gt_lin_r; lia.
    + now left.
    + exists r. split; [exact C|]. split; [lia|]. intros _. now split.
Qed.

(** ** Where the identifiers are written *)

Lemma free_index_free (existing : string -> bool) (base : string) :
  forall fuel j0 j,
    free_index existing base fuel j0 = Some j ->
    existing (numbered_file base j) = false
    /\ j0 <= j
    /\ forall i, j0 <= i < j -> existing (numbered_file base i) = true.
Proof.
  induction fuel as [|fuel IH]; intros j0 j; cbn [free_index];
    fold (numbered_file base j0);
    destruct (existing (numbered_file base j0)) eqn:E; try discriminate.
  - intros [= <-]. split; [exact E|]. split; [lia|]. intros i L. lia.
  - intros H. destruct (IH _ _ H) as (F & L & A).
    split; [exact F|]. split; [lia|]. intros i B.
    destruct (Nat.eq_dec i j0) as [->|N]; [exact E|]. apply A. lia.
  - intros [= <-]. split; [exact E|]. split; [lia|]. intros i L. lia.
Qed.

Lemma free_index_finds (existing : string -> bool) (base : string) :
  forall fuel j0 k,
    existing (numbered_file base k) = false -> j0 <= k -> k - j0 <= fuel ->
    exists j, free_index existing base fuel j0 = Some j /\ j <= k.
Proof.
  induction fuel as [|fuel IH]; intros j0 k F L B; cbn [free_index];
    fold (numbered_file base j0);
    destruct (existing (numbered_file base j0)) eqn:E;
    try (exists j0; split; [reflexivity|exact L]).
  - replace j0 with k in E by lia. rewrite F in E. discriminate.
  - assert (N : j0 <> k) by (intros ->; rewrite F in E; discriminate).
    apply IH; [exact F|lia|lia].
Qed.

(** X23.  Neither [submit_job] nor [submit_multiple_jobs] opens an
    existing file with ["w"]: the file they choose for a base name is
    opened with ["a"] when it exists, and this only happens for the base
    name itself, and with ["w"] only when it does not exist. *)
Theorem existing_file_never_truncated (existing : string -> bool)
  (fuel : nat) (base path : string) (mode : io_mode) :
  file_target existing fuel base = Some (Some (path, mode)) ->
  existing path = match mode with ModeA => true | ModeW => false end
  /\ (mode = ModeA -> path = base).
Proof.
  unfold file_target. destruct (0 <? String.length base); [|discriminate].
  destruct (has_extension (chars base)).
  - intros [= <- <-]. destruct (existing base) eqn:E; split; auto.
  - destruct (existing (base ++ ".txt")%string) eqn:E; cbn [negb].
    + destruct (free_index existing base fuel 0) as [j|] eqn:F;
        [|discriminate].
      intros [= <- <-]. apply free_index_free in F.
      split; [apply F|discriminate].
    + intros [= <- <-]. split; [exact E|discriminate].
Qed.

Lemma existing_file_never_truncated_witness :
  String.eqb "jobs0.txt" "jobs.txt" = false
  /\ (ModeW = ModeA -> "jobs0.txt" = "jobs").
Proof.
  exact (existing_file_never_truncated
           (fun p => String.eqb p "jobs.txt") 5 "jobs" "jobs0.txt" ModeW
           eq_refl).
Defined.

(** X24.  When a base name has no extension and [base.txt] exists, the
    file written is [f"{base}{j}.txt"] for the least [j] whose file does
    not exist: the search ends as soon as there is such a number. *)
Theorem numbered_file_is_first_free (existing : string -> bool)
  (fuel : nat) (base : string) (k : nat) :
  0 < String.length base -> has_extension (chars base) = false ->
  existing (base ++ ".txt")%string = true ->
  existing (numbered_file base k) = false -> k <= fuel ->
  exists j,
    file_target existing fuel base
    = Some (Some (numbered_file base j, ModeW))
    /\ j <= k
    /\ existing (numbered_file base j) = false
    /\ forall i, i < j -> existing (numbered_file base i) = true.
Proof.
  intros L X E F B. unfold file_target.
  apply Nat.ltb_lt in L. rewrite L, X, E. cbn [negb].
  destruct (free_index_finds existing base fuel 0 k F) as (j & H & Le);
    [lia|lia|].
  exists j. rewrite H. split; [reflexivity|]. split; [exact Le|].
  apply free_index_free in H. destruct H as (Fr & _ & A).
  split; [exact Fr|]. intros i Lt. apply A. lia.
Qed.

Lemma numbered_file_is_first_free_witness :
  exists j,
    file_target (fun p => String.eqb p "jobs.txt" || String.eqb p "jobs0.txt")
      3 "jobs"
    = Some (Some (numbered_file "jobs" j, ModeW))
    /\ j <= 2
    /\ (String.eqb (numbered_file "jobs" j) "jobs.txt"
        || String.eqb (numbered_file "jobs" j) "jobs0.txt") = false
    /\ forall i, i < j ->
         (String.eqb (numbered_file "jobs" i) "jobs.txt"
          || String.eqb (numbered_file "jobs" i) "jobs0.txt") = true.
Proof.
  apply (numbered_file_is_first_free
           (fun p => String.eqb p "jobs.txt" || String.eqb p "jobs0.txt")
           3 "jobs" 2).
  - simpl. lia.
  - reflexivity.
  - reflexivity.
  - reflexivity.
  - lia.
Defined.

Lemma txt_has_extension (s : string) :
  s <> ""%string -> has_extension (chars (s ++ ".txt")) = true.
Proof.
  intros N. rewrite chars_app.
  change (chars ".txt") with ["."; "t"; "x"; "t"]%char.
  assert (P : 1 <= List.length (chars s)).
  { destruct s; [now destruct N|]. simpl. lia. }
  unfold has_extension. rewrite length_app. simpl List.length.
  apply andb_true_intro. split; [apply Nat.ltb_lt; lia|].
  rewrite skipn_app, existsb_app.
  replace (List.length (chars s) + 4 - 5 - List.length (chars s)) with 0
    by lia.
  simpl. apply orb_true_r.
Qed.

Lemma nonempty_length (s : string) : s <> ""%string -> 0 < String.length s.
Proof. destruct s; [now intros []|simpl; lia]. Qed.

(** X25.  A base name given to [__init__] as a non-empty string is stored
    with an extension, as it is or with [.txt] added, and storing the
    stored name again changes nothing; with it, [submit_job] writes every
    identifier to that one file, appending when the file exists.  With
    [True] the stored name has no extension, and no file is ever appended
    to. *)
Theorem named_base_single_file (s : string) (existing : string -> bool)
  (fuel : nat) :
  s <> ""%string ->
  (init_file_base (BStr s) = s
   \/ init_file_base (BStr s) = (s ++ ".txt")%string)
  /\ has_extension (chars (init_file_base (BStr s))) = true
  /\ init_file_base (BStr (init_file_base (BStr s))) = init_file_base (BStr s)
  /\ (forall save_file,
        save_file = SaveAbsent \/ save_file = SaveBool true ->
        save_target existing fuel (init_file_base (BStr s)) save_file
        = Ok (Some (Some (init_file_base (BStr s),
                          if existing (init_file_base (BStr s))
                          then ModeA else ModeW))))
  /\ forall path,
       save_target existing fuel (init_file_base (BBool true)) SaveAbsent
       <> Ok (Some (Some (path, ModeA))).
Proof.
  intros N.
  assert (X : has_extension (chars (init_file_base (BStr s))) = true).
  { cbn [init_file_base]. destruct (has_extension (chars s)) eqn:E;
      [exact E|now apply txt_has_extension]. }
  assert (L : (0 <? String.length (init_file_base (BStr s))) = true).
  { apply Nat.ltb_lt, nonempty_length. cbn [init_file_base].
    destruct (has_extension (chars s)); [exact N|]. now destruct s. }
  split; [|split; [exact X|split; [|split]]].
  - cbn [init_file_base]. destruct (has_extension (chars s)); auto.
  - set (b := init_file_base (BStr s)) in *. cbn [init_file_base].
    now rewrite X.
  - intros save_file [-> | ->]; unfold save_target; cbn [save_base bind];
      unfold file_target; now rewrite L, X.
  - intros path. cbn [init_file_base]. unfold save_target.
    cbn [save_base bind]. unfold file_target.
    change (0 <? String.length "qpu_jobs") with true.
    change (has_extension (chars "qpu_jobs")) with false. cbv iota.
    destruct (existing ("qpu_jobs" ++ ".txt")%string); cbn [negb];
      [destruct (free_index existing "qpu_jobs" fuel 0)|]; discriminate.
Qed.

Lemma named_base_single_file_witness :
  save_target (fun _ => true) 0 (init_file_base (BStr "myjobs")) SaveAbsent
  = Ok (Some (Some ("myjobs.txt"%string, ModeA))).
Proof.
  destruct (named_base_single_file "myjobs" (fun _ => true) 0)
    as (_ & _ & _ & T & _); [discriminate|].
  exact (T SaveAbsent (or_introl eq_refl)).
Defined.

(** ** Cancelling a job *)

Lemma cancel_validated_trace (svc : cancel_service) (id : string) :
  (forall x, In x (fst (cancel_validated svc id)) ->
             x = GetStatus id \/ x = PutCancel id)
  /\ (In (PutCancel id) (fst (cancel_validated svc id)) ->
      fst (cancel_validated svc id) = [GetStatus id; PutCancel id]
      /\ exists status,
           status_reply svc id = HttpOk (Some status)
           /\ ~ In status not_cancellable).
Proof.
  unfold cancel_validated.
  destruct (status_reply svc id) as [[status|]|] eqn:R.
  - destruct (existsb (String.eqb status) not_cancellable) eqn:E.
    + simpl. split; [intros x [<-|[]]; now left|].
      intros [H|[]]. discriminate.
    + assert (N : ~ In status not_cancellable).
      { intros I. assert (T : existsb (String.eqb status) not_cancellable
                              = true).
        { apply existsb_exists. exists status.
          split; [exact I|apply String.eqb_refl]. }
        rewrite T in E. discriminate. }
      destruct (cancel_reply svc id); simpl;
        (split; [intros x [<-|[<-|[]]]; auto|]);
        intros _; (split; [reflexivity|]); now exists status.
  - simpl. split; [intros x [<-|[]]; now left|].
    intros [H|[]]. discriminate.
  - simpl. split; [intros x [<-|[]]; now left|].
    intros [H|[]]. discriminate.
Qed.

(** X26.  [cancel_job] sends requests only about a valid identifier, and
    the request to cancel only after the request for the job has returned
    a status that is none of failed, running, completed and canceled; for
    an invalid identifier, or a list that has not exactly one entry,
    nothing is sent. *)
Theorem cancel_requested_only_when_pending (svc : cancel_service)
  (jobid : cancel_arg) :
  (forall id,
     In (GetStatus id) (fst (cancel_job svc jobid))
     \/ In (PutCancel id) (fst (cancel_job svc jobid)) ->
     uid_shape (chars id))
  /\ (forall id,
        In (PutCancel id) (fst (cancel_job svc jobid)) ->
        fst (cancel_job svc jobid) = [GetStatus id; PutCancel id]
        /\ exists status,
             status_reply svc id = HttpOk (Some status)
             /\ ~ In status not_cancellable)
  /\ ((exists e note, snd (cancel_job svc jobid) = CancelInvalid e note) ->
      fst (cancel_job svc jobid) = []).
Proof.
  assert (V : forall a id0,
             validate_jobid_hash a = JobId id0 ->
             (forall id,
                In (GetStatus id) (fst (cancel_validated svc id0))
                \/ In (PutCancel id) (fst (cancel_validated svc id0)) ->
                uid_shape (chars id))
             /\ (forall id,
                   In (PutCancel id) (fst (cancel_validated svc id0)) ->
                   fst (cancel_validated svc id0)
                   = [GetStatus id; PutCancel id]
                   /\ exists status,
                        status_reply svc id = HttpOk (Some status)
                        /\ ~ In status not_cancellable)
             /\ ((exists e note,
                    snd (cancel_validated svc id0) = CancelInvalid e note) ->
                 fst (cancel_validated svc id0) = [])).
  { intros a id0 H. pose proof (validated_shape _ _ H) as U.
    destruct (cancel_validated_trace svc id0) as [A B].
    split; [|split].
    - intros id [I|I]; apply A in I; destruct I as [E|E]; inversion E;
        now subst.
    - intros id I. assert (E : id = id0).
      { apply A in I. destruct I as [E|E]; now inversion E. }
      subst id0. now apply B.
    - intros (e & note & E). exfalso. unfold cancel_validated in E.
      destruct (status_reply svc id0) as [[status|]|];
        try discriminate.
      destruct (existsb (String.eqb status) not_cancellable);
        [discriminate|].
      destruct (cancel_reply svc id0); discriminate. }
  assert (Z : forall e note,
             (forall id, In (GetStatus id) (@nil cancel_event)
                         \/ In (PutCancel id) (@nil cancel_event) ->
                         uid_shape (chars id))
             /\ (forall id,
                   In (PutCancel id) (@nil cancel_event) ->
                   @nil cancel_event = [GetStatus id; PutCancel id]
                   /\ exists status,
                        status_reply svc id = HttpOk (Some status)
                        /\ ~ In status not_cancellable)
             /\ ((exists e' note', CancelInvalid e note
                                   = CancelInvalid e' note') ->
                 @nil cancel_event = [])).
  { intros e note. split; [intros id [[]|[]]|].
    split; [intros id []|reflexivity]. }
  destruct jobid as [a is_path|l]; cbn [cancel_job].
  - destruct (validate_jobid_hash a) as [id0|e] eqn:H;
      [exact (V a id0 H)|apply Z].
  - destruct l as [|a [|b l]]; try apply Z.
    destruct (validate_jobid_hash a) as [id0|e] eqn:H;
      [exact (V a id0 H)|apply Z].
Qed.

(** ** The names of the jobs submitted together *)

Lemma indexed_length (prefix : string) (n : nat) :
  List.length (indexed prefix n) = n.
Proof. unfold indexed. now rewrite length_map, length_seq. Qed.

Lemma indexed_NoDup (prefix : string) (n : nat) : NoDup (indexed prefix n).
Proof.
  unfold indexed. generalize 0.
  induction n as [|n IH]; intros a; simpl; constructor; [|apply IH].
  intros I. apply in_map_iff in I. destruct I as (x & E & I).
  apply append_inj, py_str_nat_inj in E. apply in_seq in I. lia.
Qed.

Lemma indexed_distinct (prefix : string) (n : nat) :
  (List.length (nodup string_dec (indexed prefix n)) =? n) = true.
Proof.
  rewrite nodup_fixed_point by apply indexed_NoDup.
  rewrite indexed_length. apply Nat.eqb_refl.
Qed.

Lemma submit_all_other {C J : Type} (submit : nat -> string -> C -> J)
  (nam : string) (pairs : list (string * C)) :
  forall j outdict,
    ~ In nam (map fst pairs) ->
    lookup nam (submit_all submit j pairs outdict) = lookup nam outdict.
Proof.
  induction pairs as [|[k c] r IH]; intros j outdict N; simpl;
    [reflexivity|].
  simpl in N. rewrite IH by tauto. rewrite lookup_dict_set.
  destruct (String.eqb nam k) eqn:E; [|reflexivity].
  apply String.eqb_eq in E. subst. tauto.
Qed.

Lemma submit_all_lookup {C J : Type} (submit : nat -> string -> C -> J)
  (nam : string) (c : C) (pairs : list (string * C)) :
  forall j0 outdict i,
    NoDup (map fst pairs) -> nth_error pairs i = Some (nam, c) ->
    lookup nam (submit_all submit j0 pairs outdict)
    = Some (submit (j0 + i) nam c).
Proof.
  induction pairs as [|[k c'] r IH]; intros j0 outdict i N I;
    [destruct i; discriminate|].
  simpl in N. inversion N as [|? ? Nk Nr]; subst. simpl.
  destruct i as [|i]; simpl in I.
  - inversion I; subst. rewrite submit_all_other by exact Nk.
    now rewrite lookup_dict_set, String.eqb_refl, Nat.add_0_r.
  - rewrite (IH _ _ i Nr I). now rewrite Nat.add_succ_r.
Qed.

Lemma combine_NoDup {A B : Type} (l : list A) :
  forall (l' : list B), NoDup l -> NoDup (map fst (combine l l')).
Proof.
  induction l as [|a l IH]; intros l' N; simpl; [constructor|].
  destruct l' as [|b l']; simpl; [constructor|].
  inversion N as [|? ? Na Nl]; subst. constructor; [|now apply IH].
  intros I. apply Na. apply in_map_iff in I.
  destruct I as ([x y] & E & I). simpl in E. subst x.
  now apply in_combine_l in I.
Qed.

Lemma combine_nth_error {A B : Type} (l : list A) :
  forall (l' : list B) j a b,
    nth_error l j = Some a -> nth_error l' j = Some b ->
    nth_error (combine l l') j = Some (a, b).
Proof.
  induction l as [|x l IH]; intros l' j a b Ha Hb;
    [destruct j; discriminate|].
  destruct l' as [|y l']; [destruct j; discriminate|].
  destruct j as [|j]; simpl in *.
  - now inversion Ha; inversion Hb; subst.
  - now apply IH.
Qed.

(** X27.  The names [submit_multiple_jobs] gives the circuits have as
    many different values as there are circuits; when they are pairwise
    different there is one for each circuit, and the loop over the
    circuits stores what [submit_job] returns for circuit [j] under name
    [j].  The names made from a string ([name] or [name_base]) are
    pairwise different. *)
Theorem every_circuit_under_its_name {C J : Type}
  (submit : nat -> string -> C -> J) (name : option name_arg)
  (name_base : option string) (names : option (list string))
  (circuits : list C) (l : list string) :
  job_names name name_base names (List.length circuits) = Ok l ->
  List.length (nodup string_dec l) = List.length circuits
  /\ (NoDup l ->
      List.length l = List.length circuits
      /\ forall j nam c,
           nth_error l j = Some nam -> nth_error circuits j = Some c ->
           lookup nam (submit_all submit 0 (combine l circuits) [])
           = Some (submit j nam c))
  /\ ((name_base <> None
       \/ (names = None /\ forall x, name <> Some (NameList x))) ->
      NoDup l).
Proof.
  intros H.
  assert (D : List.length (nodup string_dec l) = List.length circuits
              /\ ((name_base <> None
                   \/ (names = None /\ forall x, name <> Some (NameList x)))
                  -> NoDup l)).
  { unfold job_names in H. cbv zeta in H.
    destruct (negb (_ =? _)) eqn:E.
    - apply bind_ok in H. destruct H as (s & _ & H). inversion H; subst l.
      split; [|intros _; apply indexed_NoDup].
      apply Nat.eqb_eq, indexed_distinct.
    - inversion H; subst l. apply negb_false_iff, Nat.eqb_eq in E.
      split; [exact E|]. intros [N|[-> N]].
      + destruct name_base as [b|]; [apply indexed_NoDup|now destruct N].
      + destruct name_base as [b|]; [apply indexed_NoDup|].
        destruct name as [[s|x]|]; try apply indexed_NoDup.
        now destruct (N x). }
  destruct D as [D P]. split; [exact D|]. split; [|exact P].
  intros N. rewrite (nodup_fixed_point string_dec N) in D.
  split; [exact D|]. intros j nam c Hn Hc.
  apply (submit_all_lookup submit nam c (combine l circuits) 0 [] j);
    [now apply combine_NoDup|now apply combine_nth_error].
Qed.

Lemma every_circuit_under_its_name_witness :
  lookup "run1" (submit_all (fun (j : nat) nam (c : nat) => (nam, c))
                   0 (combine ["run0"; "run1"]%string [7; 8]) [])
  = Some ("run1"%string, 8).
Proof.
  refine (proj2 (proj1 (proj2 (every_circuit_under_its_name
                                 (fun (j : nat) nam (c : nat) => (nam, c))
                                 None
                                 (Some "run"%string) None [7; 8]
                                 ["run0"; "run1"]%string eq_refl))
                   _)
            1 "run1"%string 8 eq_refl eq_refl).
  repeat constructor; simpl; intuition discriminate.
Defined.

(** A list of names with a repeat can pass the test on the number of
    different names: two of three jobs are then lost. *)
Example repeated_names_collide :
  job_names None None (Some ["a"; "a"; "b"]%string) 2
  = Ok ["a"; "a"; "b"]%string
  /\ submit_all (fun (j : nat) (nam : string) (c : nat) => c)
       0 (combine ["a"; "a"; "b"]%string [7; 8]) []
     = [("a"%string, 8)].
Proof. split; reflexivity. Qed.
